(** * Obfuskey: a shallow embedding of the numeric and codec core

    The TypeScript sources are embedded function by function.  A [bigint] is
    a [Z]; the BigInt operators [/] and [%] truncate toward zero and are
    [Z.quot] and [Z.rem]; [<<], [>>], [&], [|] are [Z.shiftl], [Z.shiftr],
    [Z.land], [Z.lor].  A thrown exception is the [Throw] outcome, tagged
    with the class of the error.  Every [while]/[for] loop is a [Fixpoint]
    over an iteration budget: the loop test is evaluated first, so a loop
    that needs [k] iterations finishes with any budget [>= k], and a budget
    that is too small gives [OutOfFuel] (never a made-up value).

    Modelling choices.  A string is the list of its UTF-16 code units, each
    an integer from 0 to 65535; [length], [indexOf], indexing and [padStart]
    count code units, while iterating a string ([[...s]], [new Set(s)])
    yields code points, so that a surrogate pair is one element.  A Number
    is an IEEE binary64 value ([spec_float] at precision 53).  A JavaScript
    object used as a record ([Record<string, V>]) has its own properties, a
    finite map, and a prototype, which an assignment to the property
    [__proto__] replaces; a property name is a [string], since no function
    inspects a name except to compare it.  Arguments have their TypeScript
    types, so the [typeof] guards that only reject ill-typed arguments are
    not represented. *)

From Stdlib Require Import ZArith Lia String Ascii List SpecFloat.
From stdpp Require Import base option list gmap strings.
From Stdlib Require ZmodInv.

Local Open Scope Z_scope.

(** ** Outcomes: a returned value, a thrown error, or an exhausted budget *)

Inductive Error : Set :=
  | JsTypeError            (* built-in TypeError *)
  | JsRangeError           (* built-in RangeError (BigInt division by zero, ...) *)
  | JsError                (* plain [new Error(...)] *)
  | ObfTypeError           (* errors.ts: TypeError *)
  | ObfRangeError          (* errors.ts: RangeError *)
  | ValueError
  | DuplicateError
  | UnknownKeyError
  | KeyLengthError
  | MaximumValueError
  | NegativeValueError
  | MultiplierError
  | SchemaValidationError
  | BitOverflowError.

Inductive Outcome (A : Type) : Type :=
  | Ok (a : A)
  | Throw (e : Error)
  | OutOfFuel.

Arguments Ok {A} a.
Arguments Throw {A} e.
Arguments OutOfFuel {A}.

#[global] Instance Outcome_ret : MRet Outcome := fun A a => Ok a.
#[global] Instance Outcome_bind : MBind Outcome := fun A B f m =>
  match m with
  | Ok a => f a
  | Throw e => Throw e
  | OutOfFuel => OutOfFuel
  end.
#[global] Instance Outcome_fmap : FMap Outcome := fun A B f m =>
  match m with
  | Ok a => Ok (f a)
  | Throw e => Throw e
  | OutOfFuel => OutOfFuel
  end.

(** ** BigInt operators that can throw *)

Module BigInt.

(** [a / b] on BigInt: truncating, RangeError on a zero divisor. *)
Definition div (a b : Z) : Outcome Z :=
  if b =? 0 then Throw JsRangeError else Ok (Z.quot a b).

(** [a % b] on BigInt: sign of the dividend, RangeError on a zero divisor. *)
Definition rem (a b : Z) : Outcome Z :=
  if b =? 0 then Throw JsRangeError else Ok (Z.rem a b).

(** [a ** b] on BigInt: RangeError on a negative exponent. *)
Definition pow (a b : Z) : Outcome Z :=
  if b <? 0 then Throw JsRangeError else Ok (a ^ b).

(** [n.toString(2)] for a positive BigInt. *)
Fixpoint toString2 (p : positive) : string :=
  match p with
  | xH => String "1" EmptyString
  | xO q => String.append (toString2 q) (String "0" EmptyString)
  | xI q => String.append (toString2 q) (String "1" EmptyString)
  end.

End BigInt.

(** ** The iteration budget

    Each function below gives every loop it runs, and every function it
    calls, the same [budget].  Budgets are not shared between loops. *)

Section Budget.

Variable budget : nat.

(** ** src/math/gcd.ts *)

Fixpoint gcd_loop (fuel : nat) (a b : Z) : Outcome Z :=
  if negb (b =? 0) then
    match fuel with
    | O => OutOfFuel
    | S fuel' => gcd_loop fuel' b (Z.rem a b)
    end
  else Ok a.

Definition gcd (a b : Z) : Outcome Z :=
  let a := if a <? 0 then - a else a in
  let b := if b <? 0 then - b else b in
  gcd_loop budget a b.

(** ** src/math/divmod.ts *)

Definition divmod (a b : Z) : Outcome (Z * Z) :=
  if b =? 0 then Throw JsRangeError
  else
    let q := Z.quot a b in
    let r := Z.rem a b in
    if negb (r =? 0) && (((r <? 0) && (0 <? b)) || ((0 <? r) && (b <? 0)))
    then Ok (q - 1, r + b)
    else Ok (q, r).

(** ** src/utils/getBitLength.ts (bigint argument) *)

Definition getBitLength (n : Z) : Outcome Z :=
  match n with
  | Zneg _ => Throw ValueError
  | Z0 => Ok 0
  | Zpos p => Ok (Z.of_nat (String.length (BigInt.toString2 p)))
  end.

(** ** src/math/isqrt.ts *)

Fixpoint isqrt_loop (fuel : nat) (n x0 x1 : Z) : Outcome Z :=
  if x1 <? x0 then
    match fuel with
    | O => OutOfFuel
    | S fuel' =>
        let x0 := x1 in
        q ← BigInt.div n x0;
        isqrt_loop fuel' n x0 (Z.shiftr (x0 + q) 1)
    end
  else Ok x0.

Definition isqrt (n : Z) : Outcome Z :=
  if n <? 0 then Throw ObfRangeError
  else if n <? 2 then Ok n
  else
    bl ← getBitLength n;
    let x0 := Z.shiftl 1 (Z.shiftr (bl + 1) 1) in
    q ← BigInt.div n x0;
    isqrt_loop budget n x0 (Z.shiftr (x0 + q) 1).

(** ** src/math/pow.ts *)

Fixpoint pow_loop (fuel : nat) (modulus : option Z)
    (result currentBase currentExponent : Z) : Outcome Z :=
  if 0 <? currentExponent then
    match fuel with
    | O => OutOfFuel
    | S fuel' =>
        let result :=
          if Z.rem currentExponent 2 =? 1 then
            match modulus with
            | Some m => Z.rem (result * currentBase) m
            | None => result * currentBase
            end
          else result in
        let currentBase :=
          match modulus with
          | Some m => Z.rem (currentBase * currentBase) m
          | None => currentBase * currentBase
          end in
        pow_loop fuel' modulus result currentBase (Z.quot currentExponent 2)
    end
  else Ok result.

Definition pow (base exponent : Z) (modulus : option Z) : Outcome Z :=
  if exponent <? 0 then Throw NegativeValueError
  else if (match modulus with Some m => m =? 0 | None => false end)
  then Throw ValueError
  else if exponent =? 0 then
    Ok (if (match modulus with Some m => m =? 1 | None => false end) then 0 else 1)
  else if base =? 0 then Ok 0
  else if (match modulus with Some m => m =? 1 | None => false end) then Ok 0
  else
    let currentBase :=
      match modulus with
      | Some m => Z.rem (Z.rem base m + m) m
      | None => base
      end in
    result ← pow_loop budget modulus 1 currentBase exponent;
    match modulus with
    | Some m => Ok (Z.rem (result + m) m)
    | None => Ok result
    end.

(** ** src/math/modInv.ts *)

Fixpoint modInv_loop (fuel : nat) (r_prev r_curr t_prev t_curr : Z)
    : Outcome (Z * Z) :=
  if negb (r_curr =? 0) then
    match fuel with
    | O => OutOfFuel
    | S fuel' =>
        let q := Z.quot r_prev r_curr in
        let temp_r := r_prev - q * r_curr in
        let temp_t := t_prev - q * t_curr in
        modInv_loop fuel' r_curr temp_r t_curr temp_t
    end
  else Ok (r_prev, t_prev).

Definition modInv (base mod_ : Z) : Outcome Z :=
  if mod_ <=? 0 then Throw NegativeValueError
  else
    let a_init := Z.rem (Z.rem base mod_ + mod_) mod_ in
    '(r_prev, t_prev) ← modInv_loop budget mod_ a_init 0 1;
    if negb (r_prev =? 1) then Throw ValueError
    else Ok (Z.rem (Z.rem t_prev mod_ + mod_) mod_).

(** ** src/math/factor.ts *)

Fixpoint factor_loop (fuel : nat) (s d : Z) : Outcome (Z * Z) :=
  if Z.rem d 2 =? 0 then
    match fuel with
    | O => OutOfFuel
    | S fuel' => factor_loop fuel' (s + 1) (Z.quot d 2)
    end
  else Ok (s, d).

Definition factor (n : Z) : Outcome (Z * Z) :=
  if n <=? 1 then Throw ValueError
  else factor_loop budget 0 (n - 1).

(** ** src/math/isStrongPseudoprime.ts *)

Fixpoint isStrongPseudoprime_loop (fuel : nat) (n s i x : Z) : Outcome bool :=
  if i <? s then
    match fuel with
    | O => OutOfFuel
    | S fuel' =>
        x ← pow x 2 (Some n);
        if x =? n - 1 then Ok true
        else if x =? 1 then Ok false
        else isStrongPseudoprime_loop fuel' n s (i + 1) x
    end
  else Ok false.

Definition isStrongPseudoprime (n base : Z) : Outcome bool :=
  if Z.land n 1 =? 0 then Ok false
  else if n =? 1 then Ok false
  else
    '(s, d) ← factor n;
    x ← pow base d (Some n);
    if (x =? 1) || (x =? n - 1) then Ok true
    else isStrongPseudoprime_loop budget n s 0 x.

(** ** src/math/isSmallStrongPseudoprime.ts *)

(** [bases.every(f)]: stops at the first base on which [f] is false. *)
Fixpoint every (f : Z -> Outcome bool) (bases : list Z) : Outcome bool :=
  match bases with
  | [] => Ok true
  | base :: rest =>
      b ← f base;
      if (b : bool) then every f rest else Ok false
  end.

Definition isSmallStrongPseudoprime (n : Z) : Outcome bool :=
  let bases := [2; 13; 23; 1662803] in
  every (fun base => isStrongPseudoprime n base) bases.

(** ** src/math/trialDivision.ts *)

Fixpoint trialDivision_loop (fuel : nat) (n limit i : Z) : Outcome bool :=
  if i <=? limit then
    match fuel with
    | O => OutOfFuel
    | S fuel' =>
        if Z.rem n i =? 0 then Ok false
        else trialDivision_loop fuel' n limit (i + 2)
    end
  else Ok true.

Definition trialDivision (n : Z) : Outcome bool :=
  if n <=? 1 then Ok false
  else if (n =? 2) || (n =? 3) then Ok true
  else if Z.rem n 2 =? 0 then Ok false
  else
    limit ← isqrt n;
    trialDivision_loop budget n limit 3.

(** ** src/math/isPrime.ts

    [isPrime_at] is [isPrime] together with the [return] statement that
    produced the answer, in source order. *)

Inductive PrimeReturn : Set :=
  | BelowTwo          (* n < 2n *)
  | TwoThreeFive      (* n === 2n || n === 3n || n === 5n *)
  | MultipleOf235     (* n % 2n === 0n || n % 3n === 0n || n % 5n === 0n *)
  | SharesFactor      (* gcd(n, 510_510n) > 1n *)
  | ByTrialDivision   (* n < 2_000_000n *)
  | ByStrongPseudoprime.

Definition isPrime_at (n : Z) : Outcome (PrimeReturn * bool) :=
  if n <? 2 then Ok (BelowTwo, false)
  else if (n =? 2) || (n =? 3) || (n =? 5) then Ok (TwoThreeFive, true)
  else if (Z.rem n 2 =? 0) || (Z.rem n 3 =? 0) || (Z.rem n 5 =? 0)
  then Ok (MultipleOf235, false)
  else
    g ← gcd n 510510;
    if 1 <? g then
      Ok (SharesFactor, bool_decide (n ∈ [7; 11; 13; 17]))
    else if n <? 2000000 then
      b ← trialDivision n; Ok (ByTrialDivision, b)
    else
      b ← isSmallStrongPseudoprime n; Ok (ByStrongPseudoprime, b).

Definition isPrime (n : Z) : Outcome bool := snd <$> isPrime_at n.

(** ** src/math/getNextPrime.ts *)

Definition gap : list Z :=
  [1; 6; 5; 4; 3; 2; 1; 4; 3; 2; 1; 2; 1; 4; 3; 2; 1; 2; 1; 4; 3; 2; 1; 6;
   5; 4; 3; 2; 1; 2].

(** [n += gap[Number(n % 30n)]]; adding [undefined] to a BigInt is a
    TypeError. *)
Definition add_gap (n : Z) : Outcome Z :=
  match gap !! Z.to_nat (Z.rem n 30) with
  | Some g => Ok (n + g)
  | None => Throw JsTypeError
  end.

Fixpoint getNextPrime_loop (fuel : nat) (n : Z) : Outcome Z :=
  p ← isPrime n;
  if negb (p : bool) then
    match fuel with
    | O => OutOfFuel
    | S fuel' => n ← add_gap n; getNextPrime_loop fuel' n
    end
  else Ok n.

Definition getNextPrime (n : Z) : Outcome Z :=
  bl ← getBitLength n;
  if 512 <? bl then Throw MaximumValueError
  else if n <? 2 then Ok 2
  else if n <? 5 then
    match [3; 5; 5] !! Z.to_nat (n - 2) with
    | Some p => Ok p
    | None => Throw JsTypeError
    end
  else
    let n := n + (1 + Z.land n 1) in
    n ← (if (Z.rem n 3 =? 0) || (Z.rem n 5 =? 0) then add_gap n else Ok n);
    getNextPrime_loop budget n.

End Budget.

(** ** JavaScript strings and Numbers

    A string is the list of its UTF-16 code units.  A Number is an IEEE
    binary64 value, a [spec_float] at precision 53. *)

(** A UTF-16 code unit: an integer from 0 to 65535. *)
Abbreviation codeUnit := N (only parsing).

Module JsString.

(** The string written by a literal whose characters are all ASCII. *)
Definition lit (s : string) : list codeUnit :=
  map N_of_ascii (list_ascii_of_string s).

(** [s.padStart(targetLength, padString)] *)
Definition padStart (s : list codeUnit) (targetLength : Z)
    (padString : list codeUnit) : list codeUnit :=
  let fillLen := Z.to_nat (targetLength - Z.of_nat (length s)) in
  take fillLen (concat (replicate fillLen padString)) ++ s.

(** [s.indexOf(c)] for a one-character [c]: first position, or [-1]. *)
Fixpoint indexOf (s : list codeUnit) (c : codeUnit) : Z :=
  match s with
  | [] => -1
  | x :: rest =>
      if bool_decide (x = c) then 0
      else let i := indexOf rest c in if i =? -1 then -1 else i + 1
  end.

(** A leading surrogate is a code unit from 0xD800 to 0xDBFF, a trailing
    surrogate one from 0xDC00 to 0xDFFF. *)
Definition isLeadingSurrogate (c : codeUnit) : bool :=
  ((55296 <=? c) && (c <=? 56319))%N.

Definition isTrailingSurrogate (c : codeUnit) : bool :=
  ((56320 <=? c) && (c <=? 57343))%N.

(** The string iterator, which [[...s]] and [new Set(s)] run: the code
    points of [s], each as a string.  A leading surrogate directly followed
    by a trailing surrogate is one element of two code units; every other
    code unit is an element of its own. *)
Fixpoint spread (s : list codeUnit) : list (list codeUnit) :=
  match s with
  | [] => []
  | c :: rest =>
      match rest with
      | d :: rest' =>
          if isLeadingSurrogate c && isTrailingSurrogate d
          then [c; d] :: spread rest'
          else [c] :: spread rest
      | [] => [[c]]
      end
  end.

End JsString.

Module Number.

Definition prec : Z := 53.
Definition emax : Z := 1024.

(** [Number(z)] for a BigInt [z]: round to nearest, ties to even. *)
Definition ofBigInt (z : Z) : spec_float := binary_normalize prec emax z 0 false.

Definition mul (x y : spec_float) : spec_float := SFmul prec emax x y.

(** [Math.round(x)]: the nearest integer, ties toward plus infinity. *)
Definition round (x : spec_float) : spec_float :=
  match x with
  | S754_finite s m e =>
      if 0 <=? e then x
      else
        let v := cond_Zopp s (Zpos m) in
        let r := (2 * v + 2 ^ (- e)) / 2 ^ (1 - e) in
        if r =? 0 then S754_zero s else binary_normalize prec emax r 0 false
  | _ => x
  end.

(** [BigInt(x)]: RangeError unless [x] is an integer. *)
Definition toBigInt (x : spec_float) : Outcome Z :=
  match x with
  | S754_zero _ => Ok 0
  | S754_finite s m e =>
      if 0 <=? e then Ok (cond_Zopp s (Zpos m * 2 ^ e))
      else if Zpos m mod 2 ^ (- e) =? 0
      then Ok (cond_Zopp s (Zpos m / 2 ^ (- e)))
      else Throw JsRangeError
  | _ => Throw JsRangeError
  end.

End Number.

(** ** src/constants.ts *)

Definition FIXED_POINT_SCALE : Z := 1000000000000000000.

(** The literal [1.618033988749894848] denotes the binary64 value
    [0x3FF9E3779B97F4A8], that is [7286977268806824 * 2^-52]. *)
Definition PRIME_MULTIPLIER : spec_float :=
  S754_finite false 7286977268806824 (-52).

(** ** src/utils/toFixedPointBigInt.ts *)

Definition toFixedPointBigInt (num : spec_float) (scale : Z) : Outcome Z :=
  Number.toBigInt (Number.round (Number.mul num (Number.ofBigInt scale))).

(** ** src/ObfuskeyAlphabet.ts *)

Record ObfuskeyAlphabet : Type := {
  _alphabet : list codeUnit;
  _base : Z
}.

Module Alphabet.

(** [new Set(alphabet).size !== alphabet.length]: the set holds the
    distinct code points of the string, the length counts code units. *)
Definition new (alphabet : list codeUnit) : Outcome ObfuskeyAlphabet :=
  if negb (length (remove_dups (JsString.spread alphabet)) =? length alphabet)%nat
  then Throw DuplicateError
  else Ok {| _alphabet := alphabet; _base := Z.of_nat (length alphabet) |}.

Definition base (a : ObfuskeyAlphabet) : Z := _base a.

Definition indexOf (a : ObfuskeyAlphabet) (char : list codeUnit) : Outcome Z :=
  match char with
  | [] => Throw UnknownKeyError
  | [c] =>
      let index := JsString.indexOf (_alphabet a) c in
      if index =? -1 then Throw UnknownKeyError else Ok index
  | _ => Throw UnknownKeyError
  end.

(** [this._alphabet[Number(index)]], a one-character string. *)
Definition charAt (a : ObfuskeyAlphabet) (index : Z) : Outcome (list codeUnit) :=
  if (index <? 0) || (_base a <=? index) then Throw JsRangeError
  else Ok (take 1 (drop (Z.to_nat index) (_alphabet a))).

Definition getMaxValue (a : ObfuskeyAlphabet) (keyLength : Z) : Outcome Z :=
  if keyLength <? 0 then Throw NegativeValueError
  else p ← BigInt.pow (_base a) keyLength; Ok (p - 1).

End Alphabet.

Section CodecBudget.

Variable budget : nat.

(** ** src/utils/encode.ts *)

Fixpoint encode_loop (fuel : nat) (alphabet : ObfuskeyAlphabet) (value : Z)
    (key : list (list codeUnit)) : Outcome (list (list codeUnit)) :=
  if 0 <? value then
    match fuel with
    | O => OutOfFuel
    | S fuel' =>
        '(value, remainder) ← divmod value (Alphabet.base alphabet);
        c ← Alphabet.charAt alphabet remainder;
        encode_loop fuel' alphabet value (key ++ [c])
    end
  else Ok key.

Definition encode (value : Z) (alphabet : ObfuskeyAlphabet) : Outcome (list codeUnit) :=
  if value <? 0 then Throw JsError
  else if value <? Alphabet.base alphabet then Alphabet.charAt alphabet value
  else
    key ← encode_loop budget alphabet value [];
    Ok (concat (rev key)).

(** ** src/utils/enumerate.ts and src/utils/decode.ts *)

Fixpoint enumerate_from {A : Type} (index : Z) (items : list A) : list (Z * A) :=
  match items with
  | [] => []
  | item :: rest => (index, item) :: enumerate_from (index + 1) rest
  end.

Definition enumerate {A : Type} (items : list A) : list (Z * A) :=
  enumerate_from 0 items.

Fixpoint decode_reduce (alphabet : ObfuskeyAlphabet) (items : list (Z * list codeUnit))
    (acc : Z) : Outcome Z :=
  match items with
  | [] => Ok acc
  | (i, char) :: rest =>
      d ← Alphabet.indexOf alphabet char;
      p ← BigInt.pow (Alphabet.base alphabet) i;
      decode_reduce alphabet rest (acc + d * p)
  end.

Definition decode (value : list codeUnit) (alphabet : ObfuskeyAlphabet) : Outcome Z :=
  if (length value =? 1)%nat then Alphabet.indexOf alphabet value
  else
    let reversedChars := rev (JsString.spread value) in
    decode_reduce alphabet (enumerate reversedChars) 0.

(** ** src/utils/generateNextPrime.ts *)

Definition generateNextPrime (alphabet : ObfuskeyAlphabet) (keyLength : Z)
    (multiplier : spec_float) : Outcome Z :=
  scaledMultiplier ← toFixedPointBigInt multiplier FIXED_POINT_SCALE;
  maxValue ← Alphabet.getMaxValue alphabet keyLength;
  let scaledTargetValue := maxValue * scaledMultiplier in
  targetValue ← BigInt.div scaledTargetValue FIXED_POINT_SCALE;
  getNextPrime budget targetValue.

(** ** src/Obfuskey.ts

    The object is immutable except for the cached multiplier, so the
    methods that read [this.multiplier] return the object they leave
    behind. *)

Record Obfuskey : Type := {
  __alphabet : ObfuskeyAlphabet;
  __keyLength : Z;
  __maximumValue : Z;
  __multiplier : option Z
}.

Definition Obfuskey_new (alphabet : ObfuskeyAlphabet) (keyLength : Z)
    (multiplier : option Z) : Outcome Obfuskey :=
  if (match multiplier with Some m => Z.land m 1 =? 0 | None => false end)
  then Throw MultiplierError
  else
    maxValue ← Alphabet.getMaxValue alphabet keyLength;
    Ok {| __alphabet := alphabet; __keyLength := keyLength;
          __maximumValue := maxValue; __multiplier := multiplier |}.

(** [get maximumValue()] *)
Definition maximumValue (o : Obfuskey) : Z := __maximumValue o.

Definition generatePrimeMultiplier (o : Obfuskey) (multiplier : spec_float)
    : Outcome Z :=
  generateNextPrime (__alphabet o) (__keyLength o) multiplier.

(** [get multiplier()]: generated on first use, then cached. *)
Definition multiplier (o : Obfuskey) : Outcome (Z * Obfuskey) :=
  match __multiplier o with
  | Some m => Ok (m, o)
  | None =>
      m ← generatePrimeMultiplier o PRIME_MULTIPLIER;
      Ok (m, {| __alphabet := __alphabet o; __keyLength := __keyLength o;
                __maximumValue := __maximumValue o; __multiplier := Some m |})
  end.

Definition emptyKey (o : Obfuskey) : Outcome (list codeUnit) :=
  c ← Alphabet.charAt (__alphabet o) 0;
  Ok (JsString.padStart [] (__keyLength o) c).

Definition getKey (o : Obfuskey) (value : Z) : Outcome (list codeUnit * Obfuskey) :=
  if value <? 0 then Throw NegativeValueError
  else if __maximumValue o <? value then Throw MaximumValueError
  else if value =? 0 then k ← emptyKey o; Ok (k, o)
  else
    '(m, o) ← multiplier o;
    rawValue ← BigInt.rem (value * m) (__maximumValue o + 1);
    encodedValue ← encode rawValue (__alphabet o);
    c ← Alphabet.charAt (__alphabet o) 0;
    Ok (JsString.padStart encodedValue (__keyLength o) c, o).

Definition getValue (o : Obfuskey) (key : list codeUnit) : Outcome (Z * Obfuskey) :=
  if negb (Z.of_nat (length key) =? __keyLength o) then Throw KeyLengthError
  else
    e ← emptyKey o;
    if bool_decide (key = e) then Ok (0, o)
    else
      decodedBigIntValue ← decode key (__alphabet o);
      let maximumValuePlusOne := __maximumValue o + 1 in
      '(m, o) ← multiplier o;
      inv ← modInv budget m maximumValuePlusOne;
      r ← BigInt.rem (decodedBigIntValue * inv) maximumValuePlusOne;
      Ok (r, o).

End CodecBudget.

(** ** JavaScript objects used as records

    An object written [{}] inherits the accessor property [__proto__] of
    [Object.prototype].  An assignment [obj[name] = v] creates or overwrites
    an own property for every [name] but "__proto__"; for that name it runs
    the inherited setter, which makes [v] the prototype of [obj] when [v] is
    an object and does nothing when [v] is a primitive, such as a BigInt.
    Reading [obj["__proto__"]] returns the prototype, and [Object.keys]
    lists own properties only.

    [own] holds the own properties and [proto] the prototype once an
    assignment has replaced it; [None] there is [Object.prototype]. *)

Module JsObject.

Record t (V : Type) : Type := {
  own : gmap string V;
  proto : option V
}.

Arguments own {V} _.
Arguments proto {V} _.

(** [{}] *)
Definition empty {V : Type} : t V := {| own := ∅; proto := None |}.

(** [obj[name] = v], for an object [v]. *)
Definition set {V : Type} (obj : t V) (name : string) (v : V) : t V :=
  if bool_decide (name = "__proto__"%string)
  then {| own := own obj; proto := Some v |}
  else {| own := <[name := v]> (own obj); proto := proto obj |}.

(** [obj[name]], read as a [V]: an own property, or the prototype for
    "__proto__".  [None] is [undefined] or an inherited member, neither of
    which is a [V]; the caller fails when it uses one. *)
Definition get {V : Type} (obj : t V) (name : string) : option V :=
  if bool_decide (name = "__proto__"%string) then proto obj
  else own obj !! name.

(** [Object.keys(obj)] *)
Definition keys {V : Type} (obj : t V) : list string :=
  (map_to_list (own obj)).*1.

(** [obj[name] = v], for a primitive [v] and a record [obj] of primitives
    made by [{}], given by its own properties. *)
Definition set_primitive {V : Type} (obj : gmap string V) (name : string)
    (v : V) : gmap string V :=
  if bool_decide (name = "__proto__"%string) then obj
  else <[name := v]> obj.

End JsObject.

(** ** src/types.ts *)

Record FieldSchema : Type := {
  name : string;
  bits : Z
}.

Module FieldInfo.
Record t : Type := {
  bits : Z;
  shift : Z
}.
End FieldInfo.

(** ** src/ObfusbitSchema.ts

    [__fieldInfo] is an object built by assignments, a [JsObject.t]; the
    [fields] argument of [validateFields] is given by its own enumerable
    properties, a [gmap string Z]; a [Set<string>] is a [gset string].
    [name] and [bits] have the types of [FieldSchema], so the two [typeof]
    tests of [validateSchemaItem] cannot fire. *)

Module ObfusbitSchema.

Record t : Type := {
  __definition : list FieldSchema;
  __totalBits : Z;
  __maximumValue : Z;
  __fieldInfo : JsObject.t FieldInfo.t;
  __fieldNames : gset string
}.

Definition validateSchemaItem (field : FieldSchema) (index : Z)
    (seenFields : gset string) : Outcome unit :=
  if bits field <=? 0 then Throw SchemaValidationError
  else if bool_decide (name field ∈ seenFields) then Throw SchemaValidationError
  else Ok ().

Fixpoint validateSchema_loop (items : list (Z * FieldSchema))
    (seenFields : gset string) : Outcome unit :=
  match items with
  | [] => Ok ()
  | (i, field) :: rest =>
      _ ← validateSchemaItem field i seenFields;
      validateSchema_loop rest ({[name field]} ∪ seenFields)
  end.

Definition validateSchema (schema : list FieldSchema) : Outcome unit :=
  validateSchema_loop (enumerate schema) ∅.

Definition calculateFieldInfo (schema : list FieldSchema)
    : JsObject.t FieldInfo.t :=
  let reversedSchema := rev schema in
  fst (foldl
         (fun '(fieldInfo, currentShift) field =>
            (JsObject.set fieldInfo (name field)
               {| FieldInfo.bits := bits field;
                  FieldInfo.shift := currentShift |},
             currentShift + bits field))
         (JsObject.empty, 0) reversedSchema).

Definition new (schema : list FieldSchema) : Outcome t :=
  _ ← validateSchema schema;
  let totalBits := foldl (fun sum field => sum + bits field) 0 schema in
  Ok {| __definition := schema;
        __totalBits := totalBits;
        __maximumValue := Z.shiftl 1 totalBits - 1;
        __fieldInfo := calculateFieldInfo schema;
        __fieldNames := list_to_set (map name schema) |}.

(** [this.__fieldInfo[name]]; a result that is no [FieldInfo] fails as
    soon as the caller computes with a property of it. *)
Definition getFieldInfo (s : t) (name : string) : Outcome FieldInfo.t :=
  if negb (bool_decide (name ∈ __fieldNames s)) then Throw ValueError
  else
    match JsObject.get (__fieldInfo s) name with
    | Some info => Ok info
    | None => Throw JsTypeError
    end.

Fixpoint validateFields_loop (s : t) (entries : list (string * Z)) : Outcome unit :=
  match entries with
  | [] => Ok ()
  | (name, value) :: rest =>
      match JsObject.get (__fieldInfo s) name with
      | None => Throw JsTypeError
      | Some field =>
          if (value <? 0) || (Z.shiftl 1 (FieldInfo.bits field) <=? value)
          then Throw BitOverflowError
          else validateFields_loop s rest
      end
  end.

Definition validateFields (s : t) (fields : gmap string Z) : Outcome unit :=
  let fieldNames : gset string := dom fields in
  let missingFields :=
    filter (fun field => field ∉ fieldNames) (elements (__fieldNames s)) in
  if (0 <? length missingFields)%nat then Throw SchemaValidationError
  else
    let extraFields :=
      filter (fun field => field ∉ __fieldNames s) (elements fieldNames) in
    if (0 <? length extraFields)%nat then Throw ValueError
    else validateFields_loop s (map_to_list fields).

End ObfusbitSchema.

(** ** src/Obfusbit.ts *)

Inductive PackedData : Type :=
  | PackedInt (n : Z)
  | PackedKey (key : list codeUnit).

Module Obfusbit.

Record t : Type := {
  __schema : ObfusbitSchema.t;
  __obfuskey : option Obfuskey;
  __totalBits : Z;
  __maximumValue : Z
}.

Definition new (schema : list FieldSchema + ObfusbitSchema.t)
    (obfuskey : option Obfuskey) : Outcome t :=
  schema ← match schema with
           | inr s => Ok s
           | inl definition => ObfusbitSchema.new definition
           end;
  let schemaMaximumValue := ObfusbitSchema.__maximumValue schema in
  if (match obfuskey with
      | Some o => maximumValue o <? schemaMaximumValue
      | None => false
      end)
  then Throw MaximumValueError
  else Ok {| __schema := schema; __obfuskey := obfuskey;
             __totalBits := ObfusbitSchema.__totalBits schema;
             __maximumValue := schemaMaximumValue |}.

Fixpoint pack_loop (schema : ObfusbitSchema.t) (values : gmap string Z)
    (fieldNames : list string) (packedInt : Z) : Outcome Z :=
  match fieldNames with
  | [] => Ok packedInt
  | fieldName :: rest =>
      info ← ObfusbitSchema.getFieldInfo schema fieldName;
      match values !! fieldName with
      | None => Throw JsTypeError
      | Some value =>
          pack_loop schema values rest
            (Z.lor packedInt (Z.shiftl value (FieldInfo.shift info)))
      end
  end.

Fixpoint unpack_loop (schema : ObfusbitSchema.t) (packedInt : Z)
    (definition : list FieldSchema) (unpackedValues : gmap string Z)
    : Outcome (gmap string Z) :=
  match definition with
  | [] => Ok unpackedValues
  | field :: rest =>
      info ← ObfusbitSchema.getFieldInfo schema (name field);
      let mask := Z.shiftl 1 (FieldInfo.bits info) - 1 in
      let value := Z.land (Z.shiftr packedInt (FieldInfo.shift info)) mask in
      unpack_loop schema packedInt rest
        (JsObject.set_primitive unpackedValues (name field) value)
  end.

Section WithBudget.

Variable budget : nat.

Definition pack (b : t) (values : gmap string Z) (obfuscate : bool)
    : Outcome (PackedData * t) :=
  _ ← ObfusbitSchema.validateFields (__schema b) values;
  packedInt ← pack_loop (__schema b) values
                (JsObject.keys (ObfusbitSchema.__fieldInfo (__schema b))) 0;
  if negb obfuscate then Ok (PackedInt packedInt, b)
  else
    match __obfuskey b with
    | None => Throw ValueError
    | Some o =>
        '(key, o) ← getKey budget o packedInt;
        Ok (PackedKey key,
            {| __schema := __schema b; __obfuskey := Some o;
               __totalBits := __totalBits b;
               __maximumValue := __maximumValue b |})
    end.

Definition unpack (b : t) (packedData : PackedData) (obfuscated : bool)
    : Outcome (gmap string Z * t) :=
  '(packedInt, b) ←
    (if obfuscated then
       match __obfuskey b with
       | None => Throw ValueError
       | Some o =>
           match packedData with
           | PackedKey key =>
               '(v, o) ← getValue budget o key;
               Ok (v, {| __schema := __schema b; __obfuskey := Some o;
                         __totalBits := __totalBits b;
                         __maximumValue := __maximumValue b |})
           | PackedInt _ => Throw JsTypeError
           end
       end
     else
       match packedData with
       | PackedInt n => Ok (n, b)
       | PackedKey _ => Throw JsTypeError
       end);
  unpackedValues ← unpack_loop (__schema b) packedInt
                     (ObfusbitSchema.__definition (__schema b)) ∅;
  Ok (unpackedValues, b).

End WithBudget.

End Obfusbit.

(** ** src/Obfusbit.ts: byte sequences

    A [Uint8Array] is the list of its elements, integers from 0 to 255.
    [getRequiredByteLength] returns a Number that is a [Math.ceil], hence
    integral (or NaN or infinite); the array length made from it is its
    [ToIndex], and the loops bounded by it run over that integer. *)

Module Js.

(** [x / y] on Numbers. *)
Definition div (x y : spec_float) : spec_float :=
  SFdiv Number.prec Number.emax x y.

(** [Math.ceil(x)] *)
Definition ceil (x : spec_float) : spec_float :=
  match x with
  | S754_finite s m e =>
      if 0 <=? e then x
      else
        let v := cond_Zopp s (Zpos m) in
        let r := - ((- v) / 2 ^ (- e)) in
        if r =? 0 then S754_zero s
        else binary_normalize Number.prec Number.emax r 0 false
  | _ => x
  end.

(** [ToIndex(x)], applied by [new Uint8Array(x)]: the integer part, a
    RangeError when it is negative, above [2^53 - 1] or infinite. *)
Definition toIndex (x : spec_float) : Outcome Z :=
  match x with
  | S754_zero _ | S754_nan => Ok 0
  | S754_infinity _ => Throw JsRangeError
  | S754_finite s m e =>
      let t :=
        if 0 <=? e then cond_Zopp s (Zpos m * 2 ^ e)
        else Z.quot (cond_Zopp s (Zpos m)) (2 ^ (- e)) in
      if (t <? 0) || (2 ^ 53 - 1 <? t) then Throw JsRangeError else Ok t
  end.

(** [x === y] on Numbers. *)
Definition strictEquals (x y : spec_float) : bool := SFeqb x y.

Definition hexDigits : list codeUnit := JsString.lit "0123456789abcdef".

(** [byte.toString(16)] for an element of a [Uint8Array]. *)
Definition toString16 (byte : Z) : list codeUnit :=
  if byte <? 16 then take 1 (drop (Z.to_nat byte) hexDigits)
  else take 1 (drop (Z.to_nat (byte / 16)) hexDigits)
       ++ take 1 (drop (Z.to_nat (byte mod 16)) hexDigits).

(** The value of a hexadecimal digit, of either case. *)
Definition hexValue (c : codeUnit) : option Z :=
  let lower := JsString.indexOf hexDigits c in
  if negb (lower =? -1) then Some lower
  else
    let upper := JsString.indexOf (JsString.lit "ABCDEF") c in
    if negb (upper =? -1) then Some (10 + upper) else None.

Fixpoint parseHex (digits : list codeUnit) (acc : Z) : option Z :=
  match digits with
  | [] => Some acc
  | c :: rest =>
      match hexValue c with
      | Some d => parseHex rest (16 * acc + d)
      | None => None
      end
  end.

(** [BigInt('0x' + hex)] for a string [hex] without white space: [None] is
    the SyntaxError thrown when [hex] is empty or has a character that is
    not a hexadecimal digit. *)
Definition BigInt_of_0x (hex : list codeUnit) : option Z :=
  match hex with
  | [] => None
  | _ => parseHex hex 0
  end.

End Js.

(** The outcome of a call that can also end in the built-in SyntaxError of
    [BigInt(string)]. *)
Inductive OrSyntaxError (A : Type) : Type :=
  | Completed (r : Outcome A)
  | SyntaxError.

Arguments Completed {A} r.
Arguments SyntaxError {A}.

Inductive ByteOrder : Set := little | big.

Module ObfusbitBytes.

Definition getRequiredByteLength (b : Obfusbit.t) : spec_float :=
  Js.ceil (Js.div (Number.ofBigInt (Obfusbit.__totalBits b)) (Number.ofBigInt 8)).

Fixpoint intToBytes_loop (fuel : nat) (byteLength : Z) (byteorder : ByteOrder)
    (i : Z) (bytes : list Z) (tempPackedInt : Z) : Outcome (list Z) :=
  if i <? byteLength then
    match fuel with
    | O => OutOfFuel
    | S fuel' =>
        let byteValue := Z.land tempPackedInt 255 in
        let bytes :=
          match byteorder with
          | big => <[Z.to_nat (byteLength - 1 - i) := byteValue]> bytes
          | little => <[Z.to_nat i := byteValue]> bytes
          end in
        intToBytes_loop fuel' byteLength byteorder (i + 1) bytes
          (Z.shiftr tempPackedInt 8)
    end
  else Ok bytes.

Section WithBudget.

Variable budget : nat.

Definition intToBytesInternal (b : Obfusbit.t) (packedInt : Z)
    (byteorder : ByteOrder) : Outcome (list Z) :=
  if negb ((0 <=? packedInt) && (packedInt <=? Obfusbit.__maximumValue b))
  then Throw ValueError
  else
    byteLength ← Js.toIndex (getRequiredByteLength b);
    let bytes := replicate (Z.to_nat byteLength) 0 in
    intToBytes_loop budget byteLength byteorder 0 bytes packedInt.

(** [this.pack(values, false) as bigint]: without obfuscation [pack]
    returns a BigInt, so the other case does not arise. *)
Definition packBytes (b : Obfusbit.t) (values : gmap string Z)
    (byteorder : ByteOrder) : Outcome (list Z) :=
  '(packed, _) ← Obfusbit.pack budget b values false;
  match packed with
  | PackedInt packedInt => intToBytesInternal b packedInt byteorder
  | PackedKey _ => Throw JsTypeError
  end.

Definition bytesToIntInternal (b : Obfusbit.t) (byteData : list Z)
    (byteorder : ByteOrder) : OrSyntaxError Z :=
  let expectedByteLength := getRequiredByteLength b in
  if negb (Js.strictEquals (Number.ofBigInt (Z.of_nat (length byteData)))
             expectedByteLength)
  then Completed (Throw ValueError)
  else
    let ordered :=
      match byteorder with
      | big => byteData
      | little => rev byteData
      end in
    let hex :=
      concat (map (fun byte => JsString.padStart (Js.toString16 byte) 2 (JsString.lit "0"))
                  ordered) in
    match Js.BigInt_of_0x hex with
    | Some packedInt => Completed (Ok packedInt)
    | None => SyntaxError
    end.

Definition unpackBytes (b : Obfusbit.t) (byteData : list Z)
    (byteorder : ByteOrder) : OrSyntaxError (gmap string Z) :=
  match bytesToIntInternal b byteData byteorder with
  | Completed (Ok packedInt) =>
      Completed (fst <$> Obfusbit.unpack budget b (PackedInt packedInt) false)
  | Completed (Throw e) => Completed (Throw e)
  | Completed OutOfFuel => Completed OutOfFuel
  | SyntaxError => SyntaxError
  end.

End WithBudget.

End ObfusbitBytes.

(** ** Positional notation, for stating what the codec computes *)

Module Positional.

(** The first [n] base-[B] digits of [v], least significant first. *)
Fixpoint le_digits (n : nat) (B v : Z) : list Z :=
  match n with
  | O => []
  | S n' => v mod B :: le_digits n' B (v / B)
  end.

(** The significant base-[B] digits of [v], least significant first. *)
Fixpoint sig_digits (fuel : nat) (B v : Z) : list Z :=
  if 0 <? v then
    match fuel with
    | O => []
    | S fuel' => v mod B :: sig_digits fuel' B (v / B)
    end
  else [].

(** The number denoted by digits given least significant first. *)
Fixpoint le_value (B : Z) (ds : list Z) : Z :=
  match ds with
  | [] => 0
  | d :: rest => d + B * le_value B rest
  end.

(** The symbol of digit [d] in the alphabet string [s]. *)
Definition symbol (s : list codeUnit) (d : Z) : codeUnit :=
  nth (Z.to_nat d) s 0%N.

(** The [n]-character numeral of [v], most significant digit first. *)
Definition numeral (s : list codeUnit) (n : nat) (v : Z) : list codeUnit :=
  map (symbol s) (rev (le_digits n (Z.of_nat (length s)) v)).

End Positional.

(** ** Surrogate pairs, for stating which strings are read unit by unit *)

(** [s] holds a leading surrogate directly followed by a trailing one. *)
Fixpoint has_surrogate_pair (s : list codeUnit) : bool :=
  match s with
  | [] => false
  | c :: rest =>
      match rest with
      | d :: _ =>
          (JsString.isLeadingSurrogate c && JsString.isTrailingSurrogate d)
          || has_surrogate_pair rest
      | [] => false
      end
  end.

(** [s] holds a leading surrogate and a trailing surrogate, in any
    positions: some string over the characters of [s] has a surrogate
    pair. *)
Definition mixes_surrogates (s : list codeUnit) : bool :=
  existsb JsString.isLeadingSurrogate s && existsb JsString.isTrailingSurrogate s.

(** ** A checked chain of primes, for bounding the search of [getNextPrime]

    [prime_chain steps p] walks from [p] to 1999993, the largest prime
    below the trial-division threshold, through numbers that [isPrime]
    accepts and that are less than 20000 apart. *)

Definition last_exact_prime : Z := 1999993.

Fixpoint prime_chain (steps : nat) (p : Z) : bool :=
  match steps with
  | O => false
  | S steps' =>
      if last_exact_prime <=? p then p =? last_exact_prime
      else
        match getNextPrime (Z.to_nat 1500) (Z.min (p + 19000) (last_exact_prime - 1)) with
        | Ok q =>
            match isPrime (Z.to_nat 1500) q with
            | Ok true =>
                (p <? q) && (q - p <? 20000) && (q <=? last_exact_prime)
                && prime_chain steps' q
            | _ => false
            end
        | _ => false
        end
  end.

(** ** The bit layout of a schema, for stating what the packer computes *)

Module Layout.

(** Total width of a list of fields. *)
Fixpoint total_bits (schema : list FieldSchema) : Z :=
  match schema with
  | [] => 0
  | f :: rest => bits f + total_bits rest
  end.

(** The bits of [n] that a field with the given layout occupies. *)
Definition extract (n : Z) (info : FieldInfo.t) : Z :=
  Z.land (Z.shiftr n (FieldInfo.shift info)) (2 ^ FieldInfo.bits info - 1).

End Layout.

(** * Properties *)

(** ** Outcomes *)

Lemma bind_Ok_l {A B : Type} (a : A) (f : A -> Outcome B) : Ok a ≫= f = f a.
Proof. reflexivity. Qed.

(** ** Arithmetic facts used throughout *)

Lemma rem_nonneg a b : 0 <= a -> 0 < b -> Z.rem a b = a mod b.
Proof. intros. apply Z.rem_mod_nonneg; lia. Qed.

Lemma quot_nonneg a b : 0 <= a -> 0 < b -> Z.quot a b = a / b.
Proof. intros. apply Z.quot_div_nonneg; lia. Qed.

Lemma shiftr_1 a : Z.shiftr a 1 = a / 2.
Proof. rewrite Z.shiftr_div_pow2 by lia. reflexivity. Qed.

(** ** The multiplier constant *)

(** The binary64 value chosen for [PRIME_MULTIPLIER] is within half a unit
    in the last place of the decimal literal [1.618033988749894848]. *)
Lemma PRIME_MULTIPLIER_literal :
  PRIME_MULTIPLIER = S754_finite false 7286977268806824 (-52) /\
  2 * Z.abs (7286977268806824 * 10 ^ 18 - 1618033988749894848 * 2 ^ 52) <= 10 ^ 18.
Proof. split; [reflexivity | vm_compute; discriminate]. Qed.

Lemma toFixedPointBigInt_PRIME_MULTIPLIER :
  toFixedPointBigInt PRIME_MULTIPLIER FIXED_POINT_SCALE = Ok 1618033988749894912.
Proof. vm_compute. reflexivity. Qed.

(** ** getBitLength *)

Lemma string_length_append (s t : string) :
  String.length (String.append s t) = (String.length s + String.length t)%nat.
Proof. induction s as [|c s IH]; simpl; [reflexivity | now rewrite IH]. Qed.

Lemma toString2_length (p : positive) :
  Z.of_nat (String.length (BigInt.toString2 p)) = Z.pos (Pos.size p).
Proof.
  induction p as [p IH|p IH|]; simpl; try reflexivity;
    rewrite string_length_append; simpl; lia.
Qed.

Lemma getBitLength_pos (n : Z) : 0 < n -> getBitLength n = Ok (Z.log2 n + 1).
Proof.
  destruct n as [|p|p]; try lia. intros _. unfold getBitLength.
  rewrite toString2_length. f_equal.
  destruct p as [p|p|]; simpl; try reflexivity; lia.
Qed.

(** ** isqrt: Newton's iteration from above *)

Section Newton.

Variable n : Z.
Hypothesis n_ge_2 : 2 <= n.

Variable r : Z.
Hypothesis r_pos : 0 < r.
Hypothesis r_root : r * r <= n < (r + 1) * (r + 1).

Lemma sqrt_bounds : 0 < r /\ r * r <= n < (r + 1) * (r + 1).
Proof. split; [exact r_pos | exact r_root]. Qed.

(** One Newton step never goes below the root. *)
Lemma newton_step_ge (x : Z) : 0 < x -> r <= (x + n / x) / 2.
Proof.
  intros Hx. destruct sqrt_bounds as (Hr & Hlo & Hhi).
  apply Z.div_le_lower_bound; [lia |].
  assert (2 * r - x <= n / x); [| lia].
  apply Z.div_le_lower_bound; [lia |].
  pose proof (Z.square_nonneg (x - r)). nia.
Qed.

(** A step that does not decrease certifies that the root is reached. *)
Lemma newton_step_stop (x : Z) : r <= x -> x <= (x + n / x) / 2 -> x = r.
Proof.
  intros Hrx Hstop. destruct sqrt_bounds as (Hr & Hlo & Hhi).
  assert (Hx : 0 < x) by lia.
  assert (2 * x <= x + n / x).
  { pose proof (Z.mul_div_le (x + n / x) 2 ltac:(lia)). lia. }
  assert (x * x <= n).
  { pose proof (Z.mul_div_le n x Hx). nia. }
  nia.
Qed.

(** Above the root, a step at least halves the distance to it. *)
Lemma newton_step_halves (x : Z) :
  r < x -> 2 * ((x + n / x) / 2 - r) <= x - r.
Proof.
  intros Hrx. destruct sqrt_bounds as (Hr & Hlo & Hhi).
  assert (Hx : 0 < x) by lia.
  pose proof (Z.mul_div_le (x + n / x) 2 ltac:(lia)) as H2.
  assert (n / x < r + 1); [| lia].
  apply Z.div_lt_upper_bound; [lia |].
  assert ((r + 1) * (r + 1) <= x * (r + 1)) by nia. lia.
Qed.

Lemma isqrt_loop_correct (fuel : nat) (x : Z) :
  r <= x -> x - r < 2 ^ Z.of_nat fuel ->
  isqrt_loop fuel n x (Z.shiftr (x + Z.quot n x) 1) = Ok r.
Proof.
  revert x. induction fuel as [|fuel IH]; intros x Hrx Hfuel;
    destruct sqrt_bounds as (Hr & Hlo & Hhi);
    rewrite shiftr_1, quot_nonneg by lia; simpl isqrt_loop.
  - change (2 ^ Z.of_nat 0) with 1 in Hfuel.
    destruct (Z.ltb_spec ((x + n / x) / 2) x) as [Hlt|Hge].
    + exfalso. assert (x = r) by lia. subst x.
      pose proof (newton_step_ge r Hr). lia.
    + f_equal. now apply newton_step_stop.
  - destruct (Z.ltb_spec ((x + n / x) / 2) x) as [Hlt|Hge].
    + pose proof (newton_step_ge x ltac:(lia)) as Hge.
      unfold BigInt.div.
      destruct (Z.eqb_spec ((x + n / x) / 2) 0) as [E|_]; [lia |].
      rewrite bind_Ok_l. apply IH; [exact Hge |].
      assert (r < x) by lia.
      pose proof (newton_step_halves x ltac:(lia)).
      rewrite Nat2Z.inj_succ, Z.pow_succ_r in Hfuel by lia. lia.
    + f_equal. now apply newton_step_stop.
Qed.

End Newton.

Lemma isqrt_initial_guess (n : Z) :
  2 <= n ->
  let k := Z.shiftr (Z.log2 n + 1 + 1) 1 in
  0 < k <= Z.log2 n /\ n < 2 ^ k * 2 ^ k.
Proof.
  intros Hn k. subst k. rewrite shiftr_1.
  assert (Hl : 1 <= Z.log2 n).
  { change 1 with (Z.log2 2). apply Z.log2_le_mono. lia. }
  pose proof (Z.log2_spec n ltac:(lia)) as [_ Hup]. unfold Z.succ in Hup.
  pose proof (Z.mul_div_le (Z.log2 n + 1 + 1) 2 ltac:(lia)).
  pose proof (Z.mod_pos_bound (Z.log2 n + 1 + 1) 2 ltac:(lia)).
  pose proof (Z.div_mod (Z.log2 n + 1 + 1) 2 ltac:(lia)).
  split; [lia |].
  rewrite <- Z.pow_add_r by lia.
  eapply Z.lt_le_trans; [exact Hup |].
  apply Z.pow_le_mono_r; lia.
Qed.

Lemma isqrt_correct (budget : nat) (n : Z) :
  0 <= n -> Z.log2 n <= Z.of_nat budget -> isqrt budget n = Ok (Z.sqrt n).
Proof.
  intros Hn Hb. unfold isqrt.
  destruct (Z.ltb_spec n 0); [lia |].
  destruct (Z.ltb_spec n 2) as [Hlt|Hge].
  - f_equal. assert (n = 0 \/ n = 1) as [-> | ->] by lia; reflexivity.
  - rewrite getBitLength_pos by lia. rewrite bind_Ok_l.
    destruct (isqrt_initial_guess n Hge) as ((Hk & Hkl) & Hbig).
    set (k := Z.shiftr (Z.log2 n + 1 + 1) 1) in *.
    rewrite Z.shiftl_1_l.
    assert (Hpos : 0 < 2 ^ k) by (apply Z.pow_pos_nonneg; lia).
    unfold BigInt.div.
    destruct (Z.eqb_spec (2 ^ k) 0); [lia |]. rewrite bind_Ok_l.
    pose proof (Z.sqrt_spec n Hn) as Hs. unfold Z.succ in Hs.
    assert (Hr : 0 < Z.sqrt n).
    { destruct (Z.eq_dec (Z.sqrt n) 0) as [E|E]; [rewrite E in Hs; lia |].
      pose proof (Z.sqrt_nonneg n). lia. }
    apply isqrt_loop_correct; [exact Hge | exact Hr | exact Hs | nia |].
    assert (2 ^ k <= 2 ^ Z.of_nat budget) by (apply Z.pow_le_mono_r; lia).
    lia.
Qed.

(** C9. For every non-negative BigInt [n], [isqrt(n)] terminates (a budget
    of [log2 n] iterations is enough) and returns the unique non-negative
    integer [r] with [r*r <= n < (r+1)*(r+1)]. *)
Theorem isqrt_floor_sqrt (budget : nat) (n : Z) :
  0 <= n -> Z.log2 n <= Z.of_nat budget ->
  exists r,
    isqrt budget n = Ok r /\
    0 <= r /\ r * r <= n < (r + 1) * (r + 1) /\
    forall r', 0 <= r' -> r' * r' <= n < (r' + 1) * (r' + 1) -> r' = r.
Proof.
  intros Hn Hb. exists (Z.sqrt n). split; [now apply isqrt_correct |].
  pose proof (Z.sqrt_spec n Hn) as Hs. unfold Z.succ in Hs.
  split; [apply Z.sqrt_nonneg |]. split; [exact Hs |].
  intros r' Hr' Hs'. symmetry. apply Z.sqrt_unique. unfold Z.succ. lia.
Qed.

Lemma isqrt_floor_sqrt_witness :
  exists r,
    isqrt 6 99 = Ok r /\
    0 <= r /\ r * r <= 99 < (r + 1) * (r + 1) /\
    forall r', 0 <= r' -> r' * r' <= 99 < (r' + 1) * (r' + 1) -> r' = r.
Proof. apply (isqrt_floor_sqrt 6 99); [lia | vm_compute; discriminate]. Defined.

(** ** Euclid's algorithm: gcd and modInv

    The product [b * (a mod b)] at least halves with each iteration, which
    bounds the number of iterations by twice the bit length of [b]. *)

Lemma normalize_mod (a m : Z) : 0 < m -> Z.rem (Z.rem a m + m) m = a mod m.
Proof.
  intros Hm.
  pose proof (Z.rem_bound_abs a m ltac:(lia)) as Hb.
  pose proof (Z.quot_rem' a m) as Hq.
  rewrite rem_nonneg by lia.
  replace (Z.rem a m + m) with (a + (1 - Z.quot a m) * m) by lia.
  apply Z.mod_add. lia.
Qed.

Lemma euclid_measure_halves (a b : Z) :
  0 <= a -> 0 < b -> 0 < a mod b ->
  2 * ((a mod b) * (b mod (a mod b)) + 1) <= b * (a mod b) + 1.
Proof.
  intros Ha Hb Hm.
  pose proof (Z.mod_pos_bound a b Hb) as Hab.
  set (m := a mod b) in *.
  pose proof (Z.mod_pos_bound b m Hm) as Hbm.
  pose proof (Z.div_mod b m ltac:(lia)) as Hdiv.
  assert (1 <= b / m) by (apply Z.div_le_lower_bound; lia).
  set (t := b mod m) in *. set (q := b / m) in *.
  assert (2 * t + 1 <= b) by nia.
  nia.
Qed.

Lemma euclid_measure_bound (a b : Z) (budget : nat) :
  0 <= a -> 0 < b -> 2 * (Z.log2 b + 1) <= Z.of_nat budget ->
  b * (a mod b) + 1 < 2 ^ Z.of_nat budget.
Proof.
  intros Ha Hb Hbudget.
  pose proof (Z.mod_pos_bound a b Hb) as Hab.
  pose proof (Z.log2_spec b Hb) as [_ Hup]. unfold Z.succ in Hup.
  pose proof (Z.log2_nonneg b).
  assert (2 ^ (Z.log2 b + 1) * 2 ^ (Z.log2 b + 1) <= 2 ^ Z.of_nat budget).
  { rewrite <- Z.pow_add_r by lia. apply Z.pow_le_mono_r; lia. }
  nia.
Qed.

Lemma gcd_loop_correct (fuel : nat) (a b : Z) :
  0 <= a -> 0 <= b ->
  b = 0 \/ b * (a mod b) + 1 < 2 ^ Z.of_nat fuel ->
  gcd_loop fuel a b = Ok (Z.gcd a b).
Proof.
  revert a b. induction fuel as [|fuel IH]; intros a b Ha Hb Hfuel; simpl.
  - destruct (Z.eqb_spec b 0) as [->|Hne]; simpl.
    + rewrite Z.gcd_0_r, Z.abs_eq by lia. reflexivity.
    + destruct Hfuel as [?|Hfuel]; [lia |].
      pose proof (Z.mod_pos_bound a b ltac:(lia)).
      change (2 ^ Z.of_nat 0) with 1 in Hfuel. nia.
  - destruct (Z.eqb_spec b 0) as [->|Hne]; simpl.
    + rewrite Z.gcd_0_r, Z.abs_eq by lia. reflexivity.
    + destruct Hfuel as [?|Hfuel]; [lia |].
      rewrite rem_nonneg by lia.
      pose proof (Z.mod_pos_bound a b ltac:(lia)) as Hab.
      rewrite IH; [| lia | lia |].
      * f_equal. rewrite (Z.gcd_comm b), Z.gcd_mod by lia. apply Z.gcd_comm.
      * destruct (Z.eq_dec (a mod b) 0) as [E|E]; [left; exact E | right].
        pose proof (euclid_measure_halves a b Ha ltac:(lia) ltac:(lia)).
        rewrite Nat2Z.inj_succ, Z.pow_succ_r in Hfuel by lia. lia.
Qed.

Lemma gcd_correct (budget : nat) (a b : Z) :
  2 * (Z.log2 (Z.abs b) + 1) <= Z.of_nat budget ->
  gcd budget a b = Ok (Z.gcd a b).
Proof.
  intros Hbudget. unfold gcd.
  replace (if a <? 0 then - a else a) with (Z.abs a)
    by (destruct (Z.ltb_spec a 0); lia).
  replace (if b <? 0 then - b else b) with (Z.abs b)
    by (destruct (Z.ltb_spec b 0); lia).
  rewrite gcd_loop_correct; try lia.
  - now rewrite Z.gcd_abs_l, Z.gcd_abs_r.
  - destruct (Z.eq_dec (Z.abs b) 0) as [E|E]; [left; exact E | right].
    apply euclid_measure_bound; lia.
Qed.

Lemma modInv_loop_correct (a m : Z) (fuel : nat) (r_prev r_curr t_prev t_curr : Z) :
  0 <= r_prev -> 0 <= r_curr ->
  r_curr = 0 \/ r_curr * (r_prev mod r_curr) + 1 < 2 ^ Z.of_nat fuel ->
  (m | t_prev * a - r_prev) -> (m | t_curr * a - r_curr) ->
  exists t,
    modInv_loop fuel r_prev r_curr t_prev t_curr = Ok (Z.gcd r_prev r_curr, t) /\
    (m | t * a - Z.gcd r_prev r_curr).
Proof.
  revert r_prev r_curr t_prev t_curr.
  induction fuel as [|fuel IH]; intros rp rc tp tc Hrp Hrc Hfuel Hp Hc; simpl.
  - destruct (Z.eqb_spec rc 0) as [->|Hne]; simpl.
    + rewrite Z.gcd_0_r, Z.abs_eq by lia. eauto.
    + destruct Hfuel as [?|Hfuel]; [lia |].
      pose proof (Z.mod_pos_bound rp rc ltac:(lia)).
      change (2 ^ Z.of_nat 0) with 1 in Hfuel. nia.
  - destruct (Z.eqb_spec rc 0) as [->|Hne]; simpl.
    + rewrite Z.gcd_0_r, Z.abs_eq by lia. eauto.
    + destruct Hfuel as [?|Hfuel]; [lia |].
      rewrite quot_nonneg by lia.
      pose proof (Z.mod_pos_bound rp rc ltac:(lia)) as Hb.
      pose proof (Z.div_mod rp rc ltac:(lia)) as Hdiv.
      replace (rp - rp / rc * rc) with (rp mod rc) by lia.
      destruct (IH rc (rp mod rc) tc (tp - rp / rc * tc)) as (t & Hrun & Hdiv');
        try lia; try assumption.
      * destruct (Z.eq_dec (rp mod rc) 0) as [E|E]; [left; exact E | right].
        pose proof (euclid_measure_halves rp rc Hrp ltac:(lia) ltac:(lia)).
        rewrite Nat2Z.inj_succ, Z.pow_succ_r in Hfuel by lia. lia.
      * replace ((tp - rp / rc * tc) * a - rp mod rc)
          with ((tp * a - rp) - (rp / rc) * (tc * a - rc)) by lia.
        apply Z.divide_sub_r; [exact Hp |]. now apply Z.divide_mul_r.
      * exists t. rewrite Hrun.
        replace (Z.gcd rc (rp mod rc)) with (Z.gcd rp rc) in *
          by (rewrite (Z.gcd_comm rc), Z.gcd_mod by lia; apply Z.gcd_comm).
        split; [reflexivity | exact Hdiv'].
Qed.

(** What [modInv] computes, for a positive modulus and a sufficient budget. *)
Lemma modInv_spec (budget : nat) (a m : Z) :
  0 < m -> 2 * (Z.log2 m + 1) <= Z.of_nat budget ->
  (Z.gcd a m <> 1 /\ modInv budget a m = Throw ValueError) \/
  (Z.gcd a m = 1 /\
   exists x, modInv budget a m = Ok x /\ 0 <= x < m /\ (a * x) mod m = 1 mod m).
Proof.
  intros Hm Hbudget. unfold modInv.
  destruct (Z.leb_spec m 0); [lia |].
  rewrite normalize_mod by lia.
  pose proof (Z.mod_pos_bound a m Hm) as Hb.
  destruct (modInv_loop_correct a m budget m (a mod m) 0 1) as (t & Hrun & Hdiv);
    try lia.
  - destruct (Z.eq_dec (a mod m) 0) as [E|E]; [left; exact E | right].
    pose proof (Z.mod_pos_bound m (a mod m) ltac:(lia)).
    pose proof (euclid_measure_bound a m budget) as Hmeasure.
    assert (Hle : (a mod m) * (m mod (a mod m)) <= m * (a mod m)) by nia.
    destruct (Z.le_gt_cases 0 a) as [Ha|Ha].
    + specialize (Hmeasure Ha Hm Hbudget). lia.
    + pose proof (euclid_measure_bound (a mod m) m budget ltac:(lia) Hm Hbudget) as H'.
      rewrite Z.mod_mod in H' by lia. lia.
  - exists (-1). lia.
  - exists (a / m). pose proof (Z.div_mod a m ltac:(lia)). lia.
  - rewrite Hrun, bind_Ok_l.
    assert (Hg : Z.gcd m (a mod m) = Z.gcd a m).
    { rewrite Z.gcd_comm, Z.gcd_mod by lia. apply Z.gcd_comm. }
    rewrite Hg in *.
    destruct (Z.eqb_spec (Z.gcd a m) 1) as [E|E]; simpl.
    + right. split; [exact E |]. rewrite normalize_mod by lia.
      exists (t mod m). split; [reflexivity |].
      split; [apply Z.mod_pos_bound; lia |].
      rewrite Z.mul_mod_idemp_r by lia.
      rewrite E in Hdiv. destruct Hdiv as [k Hk].
      replace (a * t) with (1 + k * m) by lia.
      apply Z.mod_add. lia.
    + left. split; [exact E | reflexivity].
Qed.

(** ** The codec: alphabets, encode, decode *)

Import Positional.

Lemma remove_dups_length {A : Type} `{EqDecision A} (l : list A) :
  (length (remove_dups l) <= length l)%nat.
Proof.
  induction l as [|x l IH]; simpl; [lia |].
  destruct (decide_rel elem_of x l); simpl; lia.
Qed.

Lemma remove_dups_length_NoDup {A : Type} `{EqDecision A} (l : list A) :
  length (remove_dups l) = length l -> NoDup l.
Proof.
  induction l as [|x l IH]; simpl; [constructor |].
  pose proof (remove_dups_length l).
  destruct (decide_rel elem_of x l); simpl; intros Hlen; [lia |].
  constructor; [assumption | apply IH; lia].
Qed.

Lemma NoDup_remove_dups_length {A : Type} `{EqDecision A} (l : list A) :
  NoDup l -> length (remove_dups l) = length l.
Proof.
  induction 1 as [| x l Hx Hl IH]; [reflexivity |].
  simpl. destruct (decide_rel elem_of x l); [contradiction |].
  simpl. now rewrite IH.
Qed.

(** The string iterator splits a string into its code units unless the
    string holds a surrogate pair, which shortens the result. *)
Lemma spread_cons (c d : codeUnit) (rest : list codeUnit) :
  JsString.spread (c :: d :: rest) =
    if JsString.isLeadingSurrogate c && JsString.isTrailingSurrogate d
    then [c; d] :: JsString.spread rest
    else [c] :: JsString.spread (d :: rest).
Proof. reflexivity. Qed.

Lemma has_surrogate_pair_cons (c d : codeUnit) (rest : list codeUnit) :
  has_surrogate_pair (c :: d :: rest) =
    (JsString.isLeadingSurrogate c && JsString.isTrailingSurrogate d)
    || has_surrogate_pair (d :: rest).
Proof. reflexivity. Qed.

Lemma spread_units (s : list codeUnit) :
  has_surrogate_pair s = false -> JsString.spread s = map (fun c => [c]) s.
Proof.
  induction s as [| c rest IH]; [reflexivity |].
  destruct rest as [| d rest']; [reflexivity |].
  rewrite has_surrogate_pair_cons, spread_cons. intros Hpair.
  apply orb_false_iff in Hpair. destruct Hpair as [-> Hrest].
  rewrite (IH Hrest). reflexivity.
Qed.

Lemma spread_length_upto (n : nat) (s : list codeUnit) :
  (length s <= n)%nat ->
  (length (JsString.spread s) <= length s)%nat /\
  (has_surrogate_pair s = true -> (length (JsString.spread s) < length s)%nat).
Proof.
  revert s. induction n as [| n IH]; intros s Hn.
  - destruct s; [| simpl in Hn; lia]. split; [reflexivity | discriminate].
  - destruct s as [| c [| d rest']]; [split; [reflexivity | discriminate] ..|].
    rewrite has_surrogate_pair_cons, spread_cons.
    destruct (IH (d :: rest') ltac:(simpl in *; lia)) as [Hle Hlt].
    destruct (IH rest' ltac:(simpl in *; lia)) as [Hle' _].
    destruct (JsString.isLeadingSurrogate c && JsString.isTrailingSurrogate d);
      cbn [orb length] in *; split; try lia.
    intros Hpair. specialize (Hlt Hpair). lia.
Qed.

Lemma spread_length (s : list codeUnit) :
  (length (JsString.spread s) <= length s)%nat /\
  (has_surrogate_pair s = true -> (length (JsString.spread s) < length s)%nat).
Proof. now apply (spread_length_upto (length s)). Qed.

Lemma NoDup_units (s : list codeUnit) :
  NoDup (map (fun c => [c]) s) <-> NoDup s.
Proof.
  split.
  - apply NoDup_fmap_1.
  - apply NoDup_fmap_2. intros x y H. now inversion H.
Qed.

Lemma Alphabet_new_accepts (s : list codeUnit) :
  (length (remove_dups (JsString.spread s)) = length s)%nat <->
  NoDup s /\ has_surrogate_pair s = false.
Proof.
  pose proof (remove_dups_length (JsString.spread s)) as Hdups.
  destruct (spread_length s) as [Hle Hlt]. split.
  - intros Hlen.
    assert (Hpair : has_surrogate_pair s = false).
    { destruct (has_surrogate_pair s); [| reflexivity].
      specialize (Hlt eq_refl). lia. }
    split; [| exact Hpair]. apply NoDup_units.
    rewrite <- (spread_units s Hpair). apply remove_dups_length_NoDup.
    rewrite Hlen, (spread_units s Hpair). now rewrite length_map.
  - intros [Hnd Hpair]. rewrite (spread_units s Hpair).
    rewrite NoDup_remove_dups_length by now apply NoDup_units.
    apply length_map.
Qed.

Lemma Alphabet_new_inv (s : list codeUnit) (a : ObfuskeyAlphabet) :
  Alphabet.new s = Ok a ->
  a = {| _alphabet := s; _base := Z.of_nat (length s) |} /\ NoDup s.
Proof.
  unfold Alphabet.new.
  destruct (Nat.eqb_spec (length (remove_dups (JsString.spread s))) (length s))
    as [E|E]; simpl; intros H; inversion H; subst.
  split; [reflexivity | now apply Alphabet_new_accepts].
Qed.

Section Codec.

Variable s : list codeUnit.
Hypothesis s_NoDup : NoDup s.

Let a : ObfuskeyAlphabet := {| _alphabet := s; _base := Z.of_nat (length s) |}.
Let B : Z := Z.of_nat (length s).

Lemma charAt_symbol (d : Z) :
  0 <= d < B -> Alphabet.charAt a d = Ok [symbol s d].
Proof.
  intros Hd. unfold Alphabet.charAt, symbol. simpl. fold B.
  destruct (Z.ltb_spec d 0); [lia |]. destruct (Z.leb_spec B d); [lia |].
  simpl. f_equal.
  assert (Hlt : (Z.to_nat d < length s)%nat) by (subst B; lia).
  destruct (lookup_lt_is_Some_2 s _ Hlt) as [c Hc].
  rewrite (drop_S _ _ _ Hc). simpl. rewrite take_0.
  now rewrite (nth_lookup_Some _ _ _ _ Hc).
Qed.

Lemma string_indexOf_nth (l : list codeUnit) (i : nat) (c : codeUnit) :
  NoDup l -> l !! i = Some c -> JsString.indexOf l c = Z.of_nat i.
Proof.
  intros Hnd. revert i. induction Hnd as [|x l Hx Hnd IH]; intros i Hi.
  - discriminate.
  - destruct i as [|i]; simpl in *.
    + inversion Hi; subst. now rewrite bool_decide_eq_true_2.
    + rewrite bool_decide_eq_false_2.
      * rewrite (IH i Hi).
        destruct (Z.eqb_spec (Z.of_nat i) (-1)); lia.
      * intros ->. apply Hx. eapply list_elem_of_lookup_2; eauto.
Qed.

Lemma indexOf_symbol (d : Z) :
  0 <= d < B -> Alphabet.indexOf a [symbol s d] = Ok d.
Proof.
  intros Hd. unfold Alphabet.indexOf, symbol. simpl.
  assert (Hlt : (Z.to_nat d < length s)%nat) by (subst B; lia).
  destruct (lookup_lt_is_Some_2 s _ Hlt) as [c Hc].
  rewrite (nth_lookup_Some _ _ _ _ Hc).
  rewrite (string_indexOf_nth s _ c s_NoDup Hc).
  destruct (Z.eqb_spec (Z.of_nat (Z.to_nat d)) (-1)); [lia |].
  f_equal. lia.
Qed.

(** Digits and values. *)

Lemma le_digits_length (n : nat) (b v : Z) : length (le_digits n b v) = n.
Proof. revert v. induction n as [|n IH]; intros v; simpl; [| rewrite IH]; reflexivity. Qed.

Lemma le_digits_zero (n : nat) (b : Z) : le_digits n b 0 = replicate n 0.
Proof.
  induction n as [|n IH]; simpl; [reflexivity |].
  now rewrite Zmod_0_l, Zdiv_0_l, IH.
Qed.

Lemma le_digits_range (n : nat) (b v : Z) :
  0 < b -> Forall (fun d => 0 <= d < b) (le_digits n b v).
Proof.
  intros Hb. revert v. induction n as [|n IH]; intros v; simpl; constructor.
  - now apply Z.mod_pos_bound.
  - apply IH.
Qed.

Lemma le_value_le_digits (n : nat) (b v : Z) :
  0 < b -> 0 <= v < b ^ Z.of_nat n -> le_value b (le_digits n b v) = v.
Proof.
  intros Hb. revert v. induction n as [|n IH]; intros v Hv; simpl.
  - change (b ^ Z.of_nat 0) with 1 in Hv. lia.
  - rewrite Nat2Z.inj_succ, Z.pow_succ_r in Hv by lia.
    rewrite IH.
    + pose proof (Z.div_mod v b ltac:(lia)). lia.
    + split; [apply Z.div_pos; lia |].
      apply Z.div_lt_upper_bound; lia.
Qed.

Lemma sig_digits_pad (n fuel : nat) (b v : Z) :
  0 < b -> 0 <= v < b ^ Z.of_nat n -> v < b ^ Z.of_nat fuel ->
  let ds := sig_digits fuel b v in
  (length ds <= n)%nat /\ ds ++ replicate (n - length ds) 0 = le_digits n b v.
Proof.
  intros Hb. revert fuel v.
  induction n as [|n IH]; intros fuel v Hv Hfuel; simpl.
  - change (b ^ Z.of_nat 0) with 1 in Hv. assert (v = 0) as -> by lia.
    destruct fuel; simpl; split; (lia || reflexivity).
  - destruct (Z.ltb_spec 0 v) as [Hpos|Hzero].
    + destruct fuel as [|fuel].
      { change (b ^ Z.of_nat 0) with 1 in Hfuel. lia. }
      simpl. destruct (Z.ltb_spec 0 v); [| lia].
      rewrite Nat2Z.inj_succ, Z.pow_succ_r in Hv, Hfuel by lia.
      destruct (IH fuel (v / b)) as [Hlen Hpad].
      * split; [apply Z.div_pos; lia | apply Z.div_lt_upper_bound; lia].
      * apply Z.div_lt_upper_bound; lia.
      * simpl. split; [lia |]. now rewrite Hpad.
    + assert (v = 0) as -> by lia.
      assert (sig_digits fuel b 0 = []) as -> by (destruct fuel; reflexivity).
      simpl. split; [lia |].
      now rewrite Zmod_0_l, Zdiv_0_l, le_digits_zero.
Qed.

(** [encode]'s loop pushes the significant digits, least significant first. *)
Lemma encode_loop_digits (fuel : nat) (v : Z) (key : list (list codeUnit)) :
  0 <= v < B ^ Z.of_nat fuel ->
  encode_loop fuel a v key =
    Ok (key ++ map (fun d => [symbol s d]) (sig_digits fuel B v)).
Proof.
  revert v key. induction fuel as [|fuel IH]; intros v key Hv; simpl.
  - change (B ^ Z.of_nat 0) with 1 in Hv.
    destruct (Z.ltb_spec 0 v); [lia |]. simpl. now rewrite app_nil_r.
  - destruct (Z.ltb_spec 0 v) as [Hpos|Hzero]; [| simpl; now rewrite app_nil_r].
    assert (HB : 0 < B).
    { destruct (Z.le_gt_cases B 0) as [HB0|]; [| assumption].
      assert (B = 0) by (subst B; lia).
      rewrite H, Z.pow_0_l in Hv by lia. lia. }
    unfold divmod, Alphabet.base. simpl _base. fold B.
    destruct (Z.eqb_spec B 0); [lia |].
    rewrite rem_nonneg, quot_nonneg by lia.
    pose proof (Z.mod_pos_bound v B HB) as Hmod.
    destruct (Z.eqb_spec (v mod B) 0); simpl negb; cbn [andb orb];
      [| destruct (Z.ltb_spec (v mod B) 0); [lia |];
         destruct (Z.ltb_spec B 0); [lia |];
         rewrite Bool.andb_false_r; cbn [andb orb] ];
      rewrite bind_Ok_l; rewrite charAt_symbol by lia; rewrite bind_Ok_l;
      rewrite IH; try (rewrite <- app_assoc; reflexivity);
      rewrite Nat2Z.inj_succ, Z.pow_succ_r in Hv by lia;
      (split; [apply Z.div_pos; lia | apply Z.div_lt_upper_bound; lia]).
Qed.

Lemma padStart_one (key : list codeUnit) (n : Z) (c : codeUnit) :
  JsString.padStart key n [c] =
    replicate (Z.to_nat (n - Z.of_nat (length key))) c ++ key.
Proof.
  unfold JsString.padStart. f_equal.
  generalize (Z.to_nat (n - Z.of_nat (length key))) as k. intros k.
  assert (H : forall j, concat (replicate j [c]) = replicate j c).
  { induction j as [|j IHj]; simpl; [| rewrite IHj]; reflexivity. }
  rewrite H. apply take_ge. now rewrite length_replicate.
Qed.

Lemma numeral_length (n : nat) (v : Z) : length (numeral s n v) = n.
Proof. unfold numeral. now rewrite length_map, length_rev, le_digits_length. Qed.

Lemma map_rev_replicate {X Y : Type} (f : X -> Y) (n : nat) (x : X) :
  map f (rev (replicate n x)) = replicate n (f x).
Proof.
  induction n as [|n IH]; [reflexivity |].
  rewrite replicate_S_end at 1. rewrite rev_app_distr. simpl. now rewrite IH.
Qed.

Lemma numeral_zero (n : nat) : numeral s n 0 = replicate n (symbol s 0).
Proof. unfold numeral. rewrite le_digits_zero. apply map_rev_replicate. Qed.

(** [encode] followed by [padStart]: the fixed-width numeral. *)
Lemma encode_padStart (budget n : nat) (v : Z) :
  (1 <= n <= budget)%nat -> 0 <= v < B ^ Z.of_nat n ->
  exists e,
    encode budget v a = Ok e /\
    JsString.padStart e (Z.of_nat n) [symbol s 0] = numeral s n v.
Proof.
  intros Hn Hv. unfold encode, Alphabet.base. simpl _base. fold B.
  destruct (Z.ltb_spec v 0); [lia |].
  assert (HB : 0 < B).
  { destruct (Z.le_gt_cases B 0) as [HB0|]; [| assumption].
    assert (B = 0) by (subst B; lia).
    rewrite H0, Z.pow_0_l in Hv by lia. lia. }
  assert (Hfuel : v < B ^ Z.of_nat budget).
  { eapply Z.lt_le_trans; [apply Hv |]. apply Z.pow_le_mono_r; lia. }
  destruct (sig_digits_pad n budget B v HB Hv Hfuel) as [Hlen Hpad].
  destruct (Z.ltb_spec v B) as [Hsmall|Hbig].
  - rewrite charAt_symbol by lia. eexists. split; [reflexivity |].
    rewrite padStart_one. unfold numeral. fold B.
    destruct n as [|n]; [lia |]. simpl le_digits.
    rewrite Z.mod_small, Z.div_small, le_digits_zero by lia.
    simpl rev. rewrite map_app. simpl map at 2.
    match goal with
    | |- context [Z.to_nat ?e] => replace (Z.to_nat e) with n by (simpl; lia)
    end.
    f_equal.
    pose proof (numeral_zero n) as Hz. unfold numeral in Hz. fold B in Hz.
    now rewrite le_digits_zero in Hz.
  - rewrite encode_loop_digits by lia. simpl. eexists. split; [reflexivity |].
    rewrite padStart_one. unfold numeral. fold B. rewrite <- Hpad.
    rewrite rev_app_distr, map_app.
    set (ds := sig_digits budget B v) in *.
    assert (Hconcat : forall l : list Z,
               concat (rev (map (fun d => [symbol s d]) l)) = map (symbol s) (rev l)).
    { induction l as [|d l IHl]; simpl; [reflexivity |].
      rewrite concat_app, map_app, IHl. reflexivity. }
    rewrite Hconcat. f_equal.
    rewrite length_map, length_rev.
    replace (Z.to_nat (Z.of_nat n - Z.of_nat (length ds))) with (n - length ds)%nat by lia.
    symmetry. apply map_rev_replicate.
Qed.

(** [decode]'s reduction sums digit values times powers of the base. *)
Lemma decode_reduce_digits (ds : list Z) (i acc : Z) :
  0 <= i -> Forall (fun d => 0 <= d < B) ds ->
  decode_reduce a (enumerate_from i (map (fun d => [symbol s d]) ds)) acc =
    Ok (acc + B ^ i * le_value B ds).
Proof.
  intros Hi Hds. revert i acc Hi.
  induction Hds as [|d ds Hd Hds IH]; intros i acc Hi;
    cbn [map enumerate_from decode_reduce le_value].
  - f_equal. lia.
  - rewrite indexOf_symbol by exact Hd. rewrite bind_Ok_l.
    unfold BigInt.pow, Alphabet.base. simpl _base. fold B.
    destruct (Z.ltb_spec i 0); [lia |]. rewrite bind_Ok_l.
    rewrite IH by lia. f_equal. rewrite Z.pow_add_r, Z.pow_1_r by lia. lia.
Qed.

(** Surrogate pairs in numerals. *)

Lemma symbol_elem_of (d : Z) : 0 <= d < B -> symbol s d ∈ s.
Proof.
  intros Hd. unfold symbol.
  assert (Hlt : (Z.to_nat d < length s)%nat) by (subst B; lia).
  destruct (lookup_lt_is_Some_2 s _ Hlt) as [c Hc].
  rewrite (nth_lookup_Some _ _ _ _ Hc). eapply list_elem_of_lookup_2; eauto.
Qed.

Lemma no_pair_without (key : list codeUnit) :
  existsb JsString.isLeadingSurrogate key = false \/
  existsb JsString.isTrailingSurrogate key = false ->
  has_surrogate_pair key = false.
Proof.
  induction key as [| c rest IH]; [reflexivity |].
  destruct rest as [| d rest']; [reflexivity |].
  rewrite has_surrogate_pair_cons. intros Hnone.
  apply orb_false_iff. split.
  - destruct Hnone as [Hnone | Hnone]; cbn [existsb] in Hnone;
      repeat (apply orb_false_iff in Hnone; destruct Hnone as [? Hnone]);
      apply andb_false_iff; auto.
  - apply IH. destruct Hnone as [Hnone | Hnone]; [left | right];
      change (existsb ?P (c :: d :: rest')) with (P c || existsb P (d :: rest'))
        in Hnone;
      now apply orb_false_iff in Hnone.
Qed.

Lemma existsb_over (P : codeUnit -> bool) (key : list codeUnit) :
  existsb P s = false -> Forall (fun c => c ∈ s) key -> existsb P key = false.
Proof.
  intros Hs Hkey. destruct (existsb P key) eqn:E; [| reflexivity].
  apply existsb_exists in E. destruct E as (c & Hc & HP).
  apply list_elem_of_In in Hc.
  rewrite Forall_forall in Hkey. specialize (Hkey c Hc).
  rewrite <- Hs. symmetry. apply existsb_exists. exists c.
  split; [now apply list_elem_of_In | exact HP].
Qed.

Lemma no_pair_over (key : list codeUnit) :
  mixes_surrogates s = false -> Forall (fun c => c ∈ s) key ->
  has_surrogate_pair key = false.
Proof.
  unfold mixes_surrogates. intros Hmix Hkey. apply no_pair_without.
  apply andb_false_iff in Hmix.
  destruct Hmix as [Hs | Hs]; [left | right]; now apply existsb_over.
Qed.

Lemma numeral_over (n : nat) (v : Z) :
  s <> [] -> Forall (fun c => c ∈ s) (numeral s n v).
Proof.
  intros Hs. unfold numeral. apply Forall_forall. intros c Hc.
  apply list_elem_of_fmap in Hc. destruct Hc as (d & -> & Hd).
  apply symbol_elem_of. apply list_elem_of_In, in_rev, list_elem_of_In in Hd.
  assert (HB : 0 < B) by (subst B; destruct s; [congruence | simpl; lia]).
  pose proof (le_digits_range n B v HB) as Hall.
  rewrite Forall_forall in Hall. now apply Hall.
Qed.

Lemma numeral_no_pair (n : nat) (v : Z) :
  s <> [] -> n = 1%nat \/ mixes_surrogates s = false ->
  has_surrogate_pair (numeral s n v) = false.
Proof.
  intros Hs [-> | Hmix].
  - pose proof (numeral_length 1 v) as Hlen.
    destruct (numeral s 1 v) as [| c [| d rest]]; try discriminate; reflexivity.
  - apply no_pair_over; [exact Hmix | now apply numeral_over].
Qed.

Lemma decode_numeral (n : nat) (v : Z) :
  0 <= v < B ^ Z.of_nat n ->
  has_surrogate_pair (numeral s n v) = false ->
  decode (numeral s n v) a = Ok v.
Proof.
  intros Hv Hpair. unfold decode.
  assert (HB : n = O \/ 0 < B).
  { destruct n as [|n]; [now left | right].
    destruct (Z.le_gt_cases B 0) as [HB0|]; [| assumption].
    assert (B = 0) by (subst B; lia).
    rewrite H, Z.pow_0_l in Hv by lia. lia. }
  rewrite numeral_length.
  destruct (Nat.eqb_spec n 1) as [->|Hn].
  - destruct HB as [|HB]; [discriminate |].
    unfold numeral. fold B. simpl. change (Z.of_nat 1) with 1 in Hv.
    rewrite Z.pow_1_r in Hv. rewrite Z.mod_small by lia.
    now apply indexOf_symbol.
  - rewrite (spread_units _ Hpair). unfold numeral, enumerate. fold B.
    rewrite map_map, <- map_rev, rev_involutive.
    destruct HB as [->|HB].
    + simpl. f_equal. change (B ^ Z.of_nat 0) with 1 in Hv. lia.
    + rewrite decode_reduce_digits; [| lia | now apply le_digits_range].
      f_equal. rewrite le_value_le_digits by assumption. lia.
Qed.

(** Distinct values have distinct numerals. *)

Lemma symbols_inj (l1 l2 : list Z) :
  Forall (fun d => 0 <= d < B) l1 -> Forall (fun d => 0 <= d < B) l2 ->
  map (symbol s) l1 = map (symbol s) l2 -> l1 = l2.
Proof.
  intros H1. revert l2. induction H1 as [| d l1 Hd H1 IH]; intros l2 H2 Heq.
  - destruct l2; [reflexivity | discriminate].
  - destruct H2 as [| e l2 He H2]; [discriminate |].
    cbn [map] in Heq. injection Heq as Hsym Hrest.
    f_equal; [| now apply IH].
    pose proof (indexOf_symbol d Hd) as Hid.
    pose proof (indexOf_symbol e He) as Hie.
    rewrite Hsym in Hid. congruence.
Qed.

Lemma numeral_inj (n : nat) (v w : Z) :
  0 <= v < B ^ Z.of_nat n -> 0 <= w < B ^ Z.of_nat n ->
  numeral s n v = numeral s n w -> v = w.
Proof.
  intros Hv Hw Heq.
  destruct n as [| n].
  { change (B ^ Z.of_nat 0) with 1 in *. lia. }
  assert (HB : 0 < B).
  { destruct (Z.le_gt_cases B 0) as [HB0|]; [| assumption].
    assert (B = 0) by (subst B; lia).
    rewrite H, Z.pow_0_l in Hv by lia. lia. }
  unfold numeral in Heq. fold B in Heq.
  apply symbols_inj in Heq;
    [| apply Forall_rev; now apply le_digits_range ..].
  apply (f_equal (@rev Z)) in Heq. rewrite !rev_involutive in Heq.
  rewrite <- (le_value_le_digits (S n) B v HB Hv).
  rewrite <- (le_value_le_digits (S n) B w HB Hw).
  now rewrite Heq.
Qed.

Lemma numeral_inj_zero (n : nat) (v : Z) :
  0 <= v < B ^ Z.of_nat n -> numeral s n v = numeral s n 0 -> v = 0.
Proof.
  intros Hv Heq. apply (numeral_inj n v 0); [exact Hv | lia | exact Heq].
Qed.

End Codec.

(** ** The obfuscator *)

Lemma Obfuskey_new_inv (al : ObfuskeyAlphabet) (k : Z) (mult : option Z) (o : Obfuskey) :
  Obfuskey_new al k mult = Ok o ->
  0 <= k /\
  o = {| __alphabet := al; __keyLength := k;
         __maximumValue := _base al ^ k - 1; __multiplier := mult |}.
Proof.
  unfold Obfuskey_new, Alphabet.getMaxValue, BigInt.pow.
  destruct (match mult with Some m => Z.land m 1 =? 0 | None => false end);
    [discriminate |].
  destruct (Z.ltb_spec k 0); simpl; intros Hnew; inversion Hnew; subst.
  split; [lia | reflexivity].
Qed.

Lemma multiplier_inv (budget : nat) (o o' : Obfuskey) (m : Z) :
  multiplier budget o = Ok (m, o') ->
  o' = {| __alphabet := __alphabet o; __keyLength := __keyLength o;
          __maximumValue := __maximumValue o; __multiplier := Some m |}.
Proof.
  unfold multiplier. destruct o as [al k mx [m0|]]; simpl.
  - intros H; inversion H; subst; reflexivity.
  - destruct (generatePrimeMultiplier budget _ PRIME_MULTIPLIER); simpl;
      intros H; inversion H; subst; reflexivity.
Qed.

Section Obfuscator.

Variable budget : nat.
Variable s : list codeUnit.
Hypothesis s_NoDup : NoDup s.
Variable k : Z.
Hypothesis k_nonneg : 0 <= k.

Let al : ObfuskeyAlphabet := {| _alphabet := s; _base := Z.of_nat (length s) |}.
Let object (mult : option Z) : Obfuskey :=
  {| __alphabet := al; __keyLength := k;
     __maximumValue := Z.of_nat (length s) ^ k - 1; __multiplier := mult |}.

Lemma emptyKey_numeral (mult : option Z) :
  s <> [] -> emptyKey (object mult) = Ok (numeral s (Z.to_nat k) 0).
Proof.
  intros Hs. unfold emptyKey, object. cbn [__alphabet __keyLength]. unfold al.
  rewrite charAt_symbol by (destruct s; [congruence | simpl; lia]).
  rewrite bind_Ok_l, padStart_one, numeral_zero, app_nil_r.
  simpl length. do 2 f_equal. lia.
Qed.

Lemma range_forces_base (v : Z) :
  0 < v <= Z.of_nat (length s) ^ k - 1 -> 1 <= k /\ 2 <= Z.of_nat (length s).
Proof.
  intros Hv. split.
  - destruct (Z.eq_dec k 0) as [->|]; [| lia]. simpl in Hv. lia.
  - destruct (Z.le_gt_cases 2 (Z.of_nat (length s))) as [|Hlt]; [assumption |].
    assert (Z.of_nat (length s) = 0 \/ Z.of_nat (length s) = 1) as [E|E] by lia;
      rewrite E in Hv.
    + destruct (Z.eq_dec k 0) as [->|]; [simpl in Hv; lia |].
      rewrite Z.pow_0_l in Hv by lia. lia.
    + rewrite Z.pow_1_l in Hv by lia. lia.
Qed.

Lemma getKey_zero (mult : option Z) :
  s <> [] ->
  getKey budget (object mult) 0 = Ok (numeral s (Z.to_nat k) 0, object mult).
Proof.
  intros Hs. unfold getKey. cbn [__maximumValue object]. simpl (0 <? 0). cbn iota.
  destruct (Z.ltb_spec (Z.of_nat (length s) ^ k - 1) 0) as [Hlt|_].
  - exfalso. destruct s as [| c l]; [congruence |].
    pose proof (Z.pow_pos_nonneg (Z.of_nat (length (c :: l))) k
                  ltac:(simpl; lia) k_nonneg). lia.
  - rewrite emptyKey_numeral by exact Hs. reflexivity.
Qed.

Lemma getKey_positive (mult : option Z) (m : Z) (o' : Obfuskey) (v : Z) :
  multiplier budget (object mult) = Ok (m, o') -> 0 < m ->
  k <= Z.of_nat budget ->
  0 < v <= Z.of_nat (length s) ^ k - 1 ->
  o' = object (Some m) /\
  getKey budget (object mult) v =
    Ok (numeral s (Z.to_nat k) ((v * m) mod Z.of_nat (length s) ^ k), o').
Proof.
  intros Hmult Hm Hbudget Hv.
  pose proof (multiplier_inv _ _ _ _ Hmult) as Ho'. simpl in Ho'.
  split; [exact Ho' |]. subst o'.
  destruct (range_forces_base v Hv) as [Hk HB].
  unfold getKey. rewrite Hmult. cbn [object __maximumValue].
  destruct (Z.ltb_spec v 0); [lia |].
  destruct (Z.ltb_spec (Z.of_nat (length s) ^ k - 1) v); [lia |].
  destruct (Z.eqb_spec v 0); [lia |].
  rewrite bind_Ok_l. cbn [__maximumValue __alphabet __keyLength].
  unfold BigInt.rem.
  set (M := Z.of_nat (length s) ^ k) in *.
  replace (M - 1 + 1) with M by lia.
  destruct (Z.eqb_spec M 0); [lia |].
  rewrite bind_Ok_l, rem_nonneg by nia.
  pose proof (Z.mod_pos_bound (v * m) M ltac:(lia)) as Hraw.
  destruct (encode_padStart s budget (Z.to_nat k) ((v * m) mod M))
    as (e & He & Hpad); [lia | rewrite Z2Nat.id by lia; exact Hraw |].
  unfold al. rewrite He, bind_Ok_l.
  rewrite charAt_symbol by lia. rewrite bind_Ok_l.
  rewrite Z2Nat.id in Hpad by lia. rewrite Hpad. reflexivity.
Qed.

Lemma getValue_numeral (m raw x : Z) :
  s <> [] -> k = 1 \/ mixes_surrogates s = false ->
  0 < raw < Z.of_nat (length s) ^ k ->
  modInv budget m (Z.of_nat (length s) ^ k) = Ok x -> 0 <= x ->
  getValue budget (object (Some m)) (numeral s (Z.to_nat k) raw) =
    Ok ((raw * x) mod Z.of_nat (length s) ^ k, object (Some m)).
Proof.
  intros Hs Hpair Hraw Hinv Hx. unfold getValue. simpl __keyLength.
  rewrite numeral_length, Z2Nat.id by lia.
  rewrite Z.eqb_refl. simpl negb. cbn iota.
  rewrite emptyKey_numeral by exact Hs. rewrite bind_Ok_l.
  set (M := Z.of_nat (length s) ^ k) in *.
  assert (HrawN : 0 <= raw < Z.of_nat (length s) ^ Z.of_nat (Z.to_nat k))
    by (rewrite Z2Nat.id by lia; fold M; lia).
  rewrite bool_decide_eq_false_2.
  2:{ intros Heq. apply (numeral_inj_zero s s_NoDup) in Heq; [lia | exact HrawN]. }
  simpl __alphabet. fold al.
  rewrite (decode_numeral s s_NoDup); [| exact HrawN |].
  2:{ apply (numeral_no_pair s s_NoDup); [exact Hs |].
      destruct Hpair as [-> | Hpair]; [now left | now right]. }
  rewrite bind_Ok_l.
  simpl. fold M. replace (M - 1 + 1) with M by lia.
  rewrite Hinv, bind_Ok_l. unfold BigInt.rem.
  destruct (Z.eqb_spec M 0); [lia |].
  rewrite bind_Ok_l, rem_nonneg by nia. reflexivity.
Qed.

End Obfuscator.

Lemma getValue_zero (budget : nat) (s : list codeUnit) (k : Z) (mult : option Z) :
  NoDup s -> s <> [] -> 0 <= k ->
  let o := {| __alphabet := {| _alphabet := s; _base := Z.of_nat (length s) |};
              __keyLength := k;
              __maximumValue := Z.of_nat (length s) ^ k - 1;
              __multiplier := mult |} in
  getValue budget o (numeral s (Z.to_nat k) 0) = Ok (0, o).
Proof.
  intros Hnd Hs Hk o. subst o. unfold getValue. cbn [__keyLength].
  rewrite numeral_length, Z2Nat.id by lia.
  rewrite Z.eqb_refl. simpl negb. cbn iota.
  rewrite (emptyKey_numeral s Hnd k mult Hs). rewrite bind_Ok_l.
  now rewrite bool_decide_eq_true_2.
Qed.

Lemma coprime_scramble_nonzero (m M v : Z) :
  Z.gcd m M = 1 -> 0 < v < M -> (v * m) mod M <> 0.
Proof.
  intros Hg Hv Hz.
  apply Z.mod_divide in Hz; [| lia].
  rewrite Z.mul_comm in Hz.
  apply Z.gauss in Hz; [| now rewrite Z.gcd_comm].
  destruct Hz as [q Hq].
  assert (q <= 0 \/ 1 <= q) as [Hq0|Hq1] by lia; nia.
Qed.

(** C1 (amended). For every Obfuskey instance over an accepted alphabet
    with a positive keyLength whose multiplier, caller-supplied or
    generated, is positive and coprime to [maximumValue + 1], and whose
    keys have one character or whose alphabet does not hold both a leading
    and a trailing surrogate, and every [v] with [0 <= v <= maximumValue],
    [getValue(getKey(v))] returns [v]. *)
Theorem getValue_getKey_roundtrip (budget : nat) (s : list codeUnit) (k : Z)
    (mult : option Z) (al : ObfuskeyAlphabet) (o o' : Obfuskey) (m v : Z) :
  Alphabet.new s = Ok al -> 0 < k -> Obfuskey_new al k mult = Ok o ->
  multiplier budget o = Ok (m, o') -> 0 < m ->
  Z.gcd m (maximumValue o + 1) = 1 ->
  k = 1 \/ mixes_surrogates s = false ->
  k <= Z.of_nat budget ->
  2 * (Z.log2 (maximumValue o + 1) + 1) <= Z.of_nat budget ->
  0 <= v <= maximumValue o ->
  exists key o1 o2,
    getKey budget o v = Ok (key, o1) /\ getValue budget o1 key = Ok (v, o2).
Proof.
  intros Hal Hk Hnew Hmult Hm Hgcd Hpair Hbk Hbm Hv.
  apply Alphabet_new_inv in Hal. destruct Hal as [-> Hnd].
  apply Obfuskey_new_inv in Hnew. destruct Hnew as [_ ->].
  unfold maximumValue in *. cbn [__maximumValue _base] in *.
  set (M := Z.of_nat (length s) ^ k) in *.
  replace (M - 1 + 1) with M in * by lia.
  assert (Hs : s <> []).
  { intros ->. subst M. simpl in Hv. rewrite Z.pow_0_l in Hv by lia. lia. }
  destruct (Z.eq_dec v 0) as [->|Hv0].
  - exists (numeral s (Z.to_nat k) 0). eexists. eexists.
    split; [apply getKey_zero; [exact Hnd | lia | exact Hs] |].
    apply getValue_zero; [exact Hnd | exact Hs | lia].
  - destruct (getKey_positive budget s k ltac:(lia) mult m o' v Hmult Hm Hbk)
      as [Ho' Hkey]; [fold M; lia |].
    fold M in Hkey.
    pose proof (Z.mod_pos_bound (v * m) M ltac:(lia)) as Hraw.
    pose proof (coprime_scramble_nonzero m M v Hgcd ltac:(lia)) as Hnz.
    destruct (modInv_spec budget m M ltac:(lia) Hbm)
      as [[Hne _]|(_ & x & Hinv & Hx & Hmx)]; [congruence |].
    exists (numeral s (Z.to_nat k) ((v * m) mod M)), o', o'.
    split; [exact Hkey |]. rewrite Ho'.
    rewrite (getValue_numeral budget s Hnd k ltac:(lia) m _ x Hs Hpair); fold M;
      [| lia | exact Hinv | lia].
    do 2 f_equal.
    rewrite Z.mul_mod_idemp_l by lia.
    replace (v * m * x) with (v * (m * x)) by lia.
    rewrite <- Z.mul_mod_idemp_r, Hmx by lia.
    rewrite (Z.mod_small 1 M) by lia. rewrite Z.mul_1_r.
    apply Z.mod_small. lia.
Qed.

Lemma getValue_getKey_roundtrip_witness :
  let s := JsString.lit "0123456789abcdef" in
  let al := {| _alphabet := s; _base := 16 |} in
  let o := {| __alphabet := al; __keyLength := 2;
              __maximumValue := 255; __multiplier := None |} in
  exists key o1 o2,
    getKey 100 o 200 = Ok (key, o1) /\ getValue 100 o1 key = Ok (200, o2).
Proof.
  intros s al o.
  apply (getValue_getKey_roundtrip 100 s 2 None al o
           {| __alphabet := al; __keyLength := 2;
              __maximumValue := 255; __multiplier := Some 419 |} 419 200).
  - reflexivity.
  - lia.
  - reflexivity.
  - vm_compute. reflexivity.
  - lia.
  - reflexivity.
  - right. reflexivity.
  - simpl. lia.
  - vm_compute. discriminate.
  - simpl. lia.
Defined.

(** C1, as stated, fails: an odd caller-supplied multiplier need not be
    coprime to [maximumValue + 1].  Alphabet "abc", keyLength 1,
    multiplier 3: [getKey(1)] is "a" and [getValue("a")] is 0.  A generated
    multiplier can fail too: for alphabet "01" and keyLength 1 it is 2, so
    [getKey(1)] is "0" and [getValue("0")] is 0.  And a coprime multiplier
    does not help when a key is a surrogate pair: over the accepted
    alphabet of U+DE00 and U+D83D, with keyLength 2 and multiplier 1,
    [getKey(2)] is the pair U+D83D U+DE00, which [getValue] reads as one
    character and rejects with an UnknownKeyError. *)
Lemma getValue_getKey_roundtrip_counterexample :
  (exists al o key o1 o2,
     Alphabet.new (JsString.lit "abc") = Ok al /\
     Obfuskey_new al 1 (Some 3) = Ok o /\
     0 <= 1 <= maximumValue o /\
     getKey 100 o 1 = Ok (key, o1) /\
     getValue 100 o1 key = Ok (0, o2) /\
     getValue 100 o1 key <> Ok (1, o2)) /\
  (exists al o key o1 o2,
     Alphabet.new (JsString.lit "01") = Ok al /\
     Obfuskey_new al 1 None = Ok o /\
     0 <= 1 <= maximumValue o /\
     getKey 100 o 1 = Ok (key, o1) /\
     __multiplier o1 = Some 2 /\
     getValue 100 o1 key = Ok (0, o2) /\
     getValue 100 o1 key <> Ok (1, o2)) /\
  (exists al o o1,
     Alphabet.new [56832%N; 55357%N] = Ok al /\
     Obfuskey_new al 2 (Some 1) = Ok o /\
     Z.gcd 1 (maximumValue o + 1) = 1 /\
     0 <= 2 <= maximumValue o /\
     getKey 100 o 2 = Ok ([55357%N; 56832%N], o1) /\
     getValue 100 o1 [55357%N; 56832%N] = Throw UnknownKeyError).
Proof.
  split; [| split].
  - do 5 eexists. split; [reflexivity |]. split; [reflexivity |].
    split; [vm_compute; split; discriminate |].
    split; [vm_compute; reflexivity |].
    split; [vm_compute; reflexivity | vm_compute; discriminate].
  - do 5 eexists. split; [reflexivity |]. split; [reflexivity |].
    split; [vm_compute; split; discriminate |].
    split; [vm_compute; reflexivity |].
    split; [reflexivity |].
    split; [vm_compute; reflexivity | vm_compute; discriminate].
  - do 3 eexists. split; [reflexivity |]. split; [reflexivity |].
    split; [reflexivity |].
    split; [vm_compute; split; discriminate |].
    split; vm_compute; reflexivity.
Qed.

(** C3 (amended). For every Obfuskey instance over a non-empty
    duplicate-free alphabet whose multiplier, caller-supplied or generated,
    is available and positive, and every [v] with [0 <= v <= maximumValue],
    [getKey(v)] returns a string of exactly keyLength characters. *)
Theorem getKey_length (budget : nat) (s : list codeUnit) (k : Z)
    (mult : option Z) (al : ObfuskeyAlphabet) (o o' : Obfuskey) (m v : Z) :
  s <> [] -> Alphabet.new s = Ok al -> Obfuskey_new al k mult = Ok o ->
  multiplier budget o = Ok (m, o') -> 0 < m ->
  k <= Z.of_nat budget ->
  0 <= v <= maximumValue o ->
  exists key o1,
    getKey budget o v = Ok (key, o1) /\ Z.of_nat (length key) = __keyLength o.
Proof.
  intros Hs Hal Hnew Hmult Hm Hbk Hv.
  apply Alphabet_new_inv in Hal. destruct Hal as [-> Hnd].
  apply Obfuskey_new_inv in Hnew. destruct Hnew as [Hk ->].
  unfold maximumValue in *. cbn [__maximumValue __keyLength _base] in *.
  destruct (Z.eq_dec v 0) as [->|Hv0].
  - exists (numeral s (Z.to_nat k) 0). eexists.
    split; [apply getKey_zero; [exact Hnd | lia | exact Hs] |].
    rewrite numeral_length. lia.
  - destruct (getKey_positive budget s k Hk mult m o' v Hmult Hm Hbk)
      as [Ho' Hkey]; [lia |].
    eexists. eexists. split; [exact Hkey |].
    rewrite numeral_length. lia.
Qed.

Lemma getKey_length_witness :
  let s := JsString.lit "ab" in
  let al := {| _alphabet := s; _base := 2 |} in
  let o := {| __alphabet := al; __keyLength := 3;
              __maximumValue := 7; __multiplier := Some 5 |} in
  exists key o1,
    getKey 10 o 6 = Ok (key, o1) /\ Z.of_nat (length key) = __keyLength o.
Proof.
  intros s al o.
  apply (getKey_length 10 s 3 (Some 5) al o o 5 6).
  - discriminate.
  - reflexivity.
  - reflexivity.
  - reflexivity.
  - lia.
  - simpl. lia.
  - simpl. lia.
Defined.

(** C3, as stated, fails: with no multiplier supplied, alphabet "01" and
    keyLength 512, the multiplier target has more than 512 bits, so
    [getNextPrime] refuses it and [getKey(1)] throws MaximumValueError. *)
Lemma getKey_length_counterexample :
  exists al o,
    Alphabet.new (JsString.lit "01") = Ok al /\
    Obfuskey_new al 512 None = Ok o /\
    0 <= 1 <= maximumValue o /\
    getKey 100 o 1 = Throw MaximumValueError.
Proof.
  do 2 eexists. split; [reflexivity |]. split; [reflexivity |].
  split; [vm_compute; split; discriminate | vm_compute; reflexivity].
Qed.

(** C4 (amended). For every BigInt [a] and every positive BigInt [m],
    [modInv(a, m)] fails with the not-invertible error exactly when
    [gcd(a % m, m) != 1], and whenever [gcd(a, m) == 1] it returns an [x]
    with [0 <= x < m] and [(a * x) mod m == 1 mod m]: that is 1 for
    [m > 1], and 0 for [m == 1]. *)
Theorem modInv_inverse (budget : nat) (a m : Z) :
  0 < m -> 2 * (Z.log2 m + 1) <= Z.of_nat budget ->
  (modInv budget a m = Throw ValueError <-> Z.gcd (Z.rem a m) m <> 1) /\
  (Z.gcd a m = 1 ->
   exists x, modInv budget a m = Ok x /\ 0 <= x < m /\ (a * x) mod m = 1 mod m).
Proof.
  intros Hm Hbudget.
  assert (Hrem : Z.gcd (Z.rem a m) m = Z.gcd a m).
  { pose proof (Z.quot_rem' a m) as Hq.
    replace (Z.rem a m) with (a + (- Z.quot a m) * m) by lia.
    rewrite (Z.gcd_comm _ m), Z.gcd_add_mult_diag_r. apply Z.gcd_comm. }
  rewrite Hrem.
  destruct (modInv_spec budget a m Hm Hbudget)
    as [[Hne Hthrow]|(Hone & x & Hrun & Hx & Hinv)].
  - split; [split; [intros _; exact Hne | intros _; exact Hthrow] |].
    intros Hone. congruence.
  - split; [split; [rewrite Hrun; discriminate | congruence] |].
    intros _. exists x. auto.
Qed.

Lemma modInv_inverse_witness :
  (modInv 10 7 10 = Throw ValueError <-> Z.gcd (Z.rem 7 10) 10 <> 1) /\
  (Z.gcd 7 10 = 1 ->
   exists x, modInv 10 7 10 = Ok x /\ 0 <= x < 10 /\ (7 * x) mod 10 = 1 mod 10).
Proof. apply (modInv_inverse 10 7 10); [lia | vm_compute; discriminate]. Defined.

(** C4, as stated, fails at modulus 1: [gcd(5, 1) == 1], [modInv(5, 1)]
    returns 0, and [(5 * 0) mod 1] is 0, not 1. *)
Lemma modInv_inverse_counterexample :
  0 < 1 /\ Z.gcd 5 1 = 1 /\ modInv 10 5 1 = Ok 0 /\
  ~ (exists x, modInv 10 5 1 = Ok x /\ (5 * x) mod 1 = 1).
Proof.
  split; [lia |]. split; [reflexivity |]. split; [reflexivity |].
  intros (x & Hx & Hinv). rewrite Z.mod_1_r in Hinv. discriminate.
Qed.

(** C7 (amended). For every alphabet, [encode(0, alphabet)] returns the
    first character of the alphabet as a one-character string (the
    alphabet's zero symbol); it is the empty string only for the empty
    alphabet. *)
Theorem encode_zero (budget : nat) (s : list codeUnit) (al : ObfuskeyAlphabet) :
  Alphabet.new s = Ok al -> encode budget 0 al = Ok (take 1 s).
Proof.
  intros Hal. apply Alphabet_new_inv in Hal. destruct Hal as [-> _].
  unfold encode, Alphabet.base, Alphabet.charAt. cbn [_base _alphabet].
  destruct s as [|c s]; [destruct budget; reflexivity |].
  destruct (Z.ltb_spec 0 (Z.of_nat (length (c :: s)))) as [_|H];
    [| simpl in H; lia].
  simpl (0 <? 0). cbn iota.
  destruct (Z.leb_spec (Z.of_nat (length (c :: s))) 0) as [H|_];
    [simpl in H; lia |].
  reflexivity.
Qed.

Lemma encode_zero_witness :
  encode 5 0 {| _alphabet := JsString.lit "abcde"; _base := 5 |} =
    Ok (take 1 (JsString.lit "abcde")).
Proof. apply (encode_zero 5 (JsString.lit "abcde")). reflexivity. Defined.

(** C7, as stated, fails: over the hexadecimal alphabet [encode(0)] is "0",
    not the empty string. *)
Lemma encode_zero_counterexample :
  exists al,
    Alphabet.new (JsString.lit "0123456789abcdef") = Ok al /\
    encode 5 0 al = Ok (JsString.lit "0") /\
    encode 5 0 al <> Ok [].
Proof.
  eexists. split; [reflexivity |]. split; [reflexivity | discriminate].
Qed.

(** ** The primality oracle *)

Lemma gcd_510510 (budget : nat) (n : Z) :
  (38 <= budget)%nat -> gcd budget n 510510 = Ok (Z.gcd n 510510).
Proof.
  intros Hb. apply gcd_correct.
  change (Z.log2 (Z.abs 510510)) with 18. lia.
Qed.

(** C5 (amended). For every BigInt [n > 5] not divisible by 2, 3 or 5, if
    [gcd(n, 510510) > 1] then [isPrime(n)] answers at the gcd test, and
    returns true exactly when [n] is one of 7, 11, 13, 17.  [isPrime(561)]
    returns false, but at the earlier divisibility test (561 is a multiple
    of 3), before the gcd test is reached. *)
Theorem isPrime_shared_factor (budget : nat) (n : Z) :
  (38 <= budget)%nat ->
  5 < n -> Z.rem n 2 <> 0 -> Z.rem n 3 <> 0 -> Z.rem n 5 <> 0 ->
  1 < Z.gcd n 510510 ->
  isPrime_at budget n = Ok (SharesFactor, bool_decide (n ∈ [7; 11; 13; 17])) /\
  (isPrime budget n = Ok true <-> n ∈ [7; 11; 13; 17]) /\
  isPrime_at budget 561 = Ok (MultipleOf235, false).
Proof.
  intros Hb Hn H2 H3 H5 Hg.
  assert (Hat : isPrime_at budget n =
                Ok (SharesFactor, bool_decide (n ∈ [7; 11; 13; 17]))).
  { unfold isPrime_at.
    destruct (Z.ltb_spec n 2); [lia |].
    destruct (Z.eqb_spec n 2); [lia |].
    destruct (Z.eqb_spec n 3); [lia |].
    destruct (Z.eqb_spec n 5); [lia |].
    destruct (Z.eqb_spec (Z.rem n 2) 0); [lia |].
    destruct (Z.eqb_spec (Z.rem n 3) 0); [lia |].
    destruct (Z.eqb_spec (Z.rem n 5) 0); [lia |].
    cbn [orb]. rewrite gcd_510510 by exact Hb. rewrite bind_Ok_l.
    destruct (Z.ltb_spec 1 (Z.gcd n 510510)); [reflexivity | lia]. }
  split; [exact Hat |]. split; [| reflexivity].
  unfold isPrime. rewrite Hat. simpl. split.
  - intros H. inversion H as [Hd]. now apply bool_decide_eq_true_1 in Hd.
  - intros H. f_equal. now apply bool_decide_eq_true_2.
Qed.

Lemma isPrime_shared_factor_witness :
  isPrime_at 40 1001 = Ok (SharesFactor, bool_decide (1001 ∈ [7; 11; 13; 17])) /\
  (isPrime 40 1001 = Ok true <-> 1001 ∈ [7; 11; 13; 17]) /\
  isPrime_at 40 561 = Ok (MultipleOf235, false).
Proof.
  apply (isPrime_shared_factor 40 1001); try lia; try (vm_compute; discriminate).
  vm_compute. reflexivity.
Defined.

(** C5, as stated, fails in its instance: 561 is divisible by 3, so it is
    outside the stated hypothesis and [isPrime(561)] returns at the
    divisibility test, not at the gcd short-circuit. *)
Lemma isPrime_shared_factor_counterexample :
  Z.rem 561 3 = 0 /\
  isPrime_at 40 561 = Ok (MultipleOf235, false) /\
  ~ (exists b, isPrime_at 40 561 = Ok (SharesFactor, b)).
Proof.
  split; [reflexivity |]. split; [reflexivity |].
  intros (b & Hb). vm_compute in Hb. discriminate.
Qed.

Lemma rem_zero_divide (n d : Z) : 0 <= n -> 0 < d -> Z.rem n d = 0 <-> (d | n).
Proof.
  intros Hn Hd. rewrite rem_nonneg by lia. apply Z.mod_divide. lia.
Qed.

Lemma trialDivision_loop_correct (fuel : nat) (n limit i : Z) :
  0 <= n -> 3 <= i -> Z.odd i = true -> limit - i < Z.of_nat fuel ->
  exists b,
    trialDivision_loop fuel n limit i = Ok b /\
    (b = true <->
     forall d, i <= d <= limit -> Z.odd d = true -> ~ (d | n)).
Proof.
  intros Hn. revert i. induction fuel as [|fuel IH]; intros i Hi Hodd Hfuel; simpl.
  - destruct (Z.leb_spec i limit); [lia |].
    exists true. split; [reflexivity |]. split; [intros _ d Hd; lia | reflexivity].
  - destruct (Z.leb_spec i limit) as [Hle|Hgt].
    + destruct (Z.eqb_spec (Z.rem n i) 0) as [Hz|Hnz].
      * exists false. split; [reflexivity |]. split; [discriminate |].
        intros Hall. exfalso. apply (Hall i); [lia | exact Hodd |].
        apply rem_zero_divide; [lia | lia | exact Hz].
      * destruct (IH (i + 2)) as (b & Hrun & Hb); [lia | | lia |].
        { rewrite Z.odd_add, Hodd. reflexivity. }
        exists b. split; [exact Hrun |]. rewrite Hb. split.
        -- intros Hall d Hd Hdodd.
           destruct (Z.eq_dec d i) as [->|Hne].
           ++ intros Hdiv. apply Hnz. apply rem_zero_divide; [lia | lia | exact Hdiv].
           ++ destruct (Z.eq_dec d (i + 1)) as [->|Hne'].
              ** rewrite Z.odd_add, Hodd in Hdodd. discriminate.
              ** apply Hall; [lia | exact Hdodd].
        -- intros Hall d Hd. apply Hall. lia.
    + exists true. split; [reflexivity |]. split; [intros _ d Hd; lia | reflexivity].
Qed.

Lemma odd_divisor_free_prime (n : Z) :
  3 < n -> Z.odd n = true ->
  (forall d, 3 <= d <= Z.sqrt n -> Z.odd d = true -> ~ (d | n)) ->
  Z.prime n.
Proof.
  intros Hn Hodd Hfree. split; [lia |]. intros d Hd [e He].
  assert (He1 : 1 < e) by nia.
  assert (Hsmall : exists m, 1 < m /\ m * m <= n /\ (m | n)).
  { destruct (Z.le_gt_cases d e).
    - exists d. split; [lia |]. split; [nia | exists e; lia].
    - exists e. split; [lia |]. split; [nia | exists d; lia]. }
  destruct Hsmall as (m & Hm1 & Hmm & Hmn).
  assert (Hmr : m <= Z.sqrt n).
  { apply Z.sqrt_le_square; lia. }
  destruct (Z.odd m) eqn:Hmodd.
  - apply (Hfree m); [| exact Hmodd | exact Hmn].
    split; [| exact Hmr].
    destruct (Z.eq_dec m 2) as [->|]; [discriminate | lia].
  - rewrite <- Z.negb_even in Hmodd. apply Bool.negb_false_iff in Hmodd.
    apply Z.even_spec in Hmodd. destruct Hmodd as [h ->].
    destruct Hmn as [c Hc].
    rewrite <- Z.negb_even in Hodd. apply Bool.negb_true_iff in Hodd.
    assert (Z.even n = true); [| congruence].
    apply Z.even_spec. exists (c * h). lia.
Qed.

Lemma trialDivision_correct (budget : nat) (n : Z) :
  Z.log2 n <= Z.of_nat budget -> Z.sqrt n < Z.of_nat budget ->
  exists b, trialDivision budget n = Ok b /\ (b = true <-> Z.prime n).
Proof.
  intros Hlog Hsqrt. unfold trialDivision.
  destruct (Z.leb_spec n 1) as [Hle|Hgt].
  { exists false. split; [reflexivity |]. split; [discriminate |].
    intros [H _]. lia. }
  destruct (Z.eqb_spec n 2) as [->|Hn2].
  { exists true. split; [reflexivity |]. split; [intros _; apply Z.prime_2 | reflexivity]. }
  destruct (Z.eqb_spec n 3) as [->|Hn3].
  { exists true. split; [reflexivity |]. split; [intros _; apply Z.prime_3 | reflexivity]. }
  cbn [orb].
  destruct (Z.eqb_spec (Z.rem n 2) 0) as [Heven|Hodd].
  { exists false. split; [reflexivity |]. split; [discriminate |].
    intros [_ Hp]. exfalso. apply (Hp 2); [lia |].
    apply rem_zero_divide; [lia | lia | exact Heven]. }
  rewrite isqrt_correct by lia. rewrite bind_Ok_l.
  assert (Hoddn : Z.odd n = true).
  { rewrite rem_nonneg in Hodd by lia. rewrite Zodd_mod.
    pose proof (Z.mod_pos_bound n 2 ltac:(lia)).
    destruct (Z.eqb_spec (n mod 2) 1); [reflexivity | lia]. }
  destruct (trialDivision_loop_correct budget n (Z.sqrt n) 3)
    as (b & Hrun & Hb); [lia | lia | reflexivity | lia |].
  exists b. split; [exact Hrun |]. rewrite Hb. split.
  - intros Hfree. apply odd_divisor_free_prime; [lia | exact Hoddn | exact Hfree].
  - intros [_ Hp] d Hd _. apply Hp.
    pose proof (Z.sqrt_lt_lin n ltac:(lia)). lia.
Qed.

Lemma shares_factor_prime (n : Z) :
  5 < n -> 1 < Z.gcd n 510510 -> Z.prime n <-> n ∈ [7; 11; 13; 17].
Proof.
  intros Hn Hg. split.
  - intros Hp.
    assert (Hdiv : (n | 510510)).
    { pose proof (Z.gcd_divide_l n 510510) as Hgn.
      pose proof (Z.gcd_divide_r n 510510) as Hgm.
      destruct Hp as [_ Hp].
      destruct (Z.eq_dec (Z.gcd n 510510) n) as [E|E]; [now rewrite E in Hgm |].
      exfalso. apply (Hp (Z.gcd n 510510)); [| exact Hgn].
      pose proof (Z.divide_pos_le (Z.gcd n 510510) n ltac:(lia) Hgn). lia. }
    change 510510 with (2 * (3 * (5 * (7 * (11 * (13 * 17)))))) in Hdiv.
    repeat (apply (Z.divide_prime_mul _ _ n Hp) in Hdiv; destruct Hdiv as [Hdiv|Hdiv]);
      destruct Hdiv as [q Hq];
      (assert (Hqs : q = 1 \/ q = 2) by nia; destruct Hqs as [-> | ->]);
      try lia;
      match goal with
      | H : ?c = 1 * n |- _ => replace n with c by lia
      end; repeat first [apply list_elem_of_here | apply list_elem_of_further].
  - intros Hin.
    assert (Hcases : n = 7 \/ n = 11 \/ n = 13 \/ n = 17).
    { apply list_elem_of_In in Hin. simpl in Hin. lia. }
    assert (Hprime : forall p, 3 < p < 100 -> trialDivision 10 p = Ok true -> Z.prime p).
    { intros p Hp3 Hrun.
      destruct (trialDivision_correct 10 p) as (b & Hrun' & Hb).
      - assert (Z.log2 p < 10) by (apply Z.log2_lt_pow2; lia). lia.
      - assert (Z.sqrt p < 10); [| lia].
        apply Z.sqrt_lt_square; lia.
      - rewrite Hrun in Hrun'. inversion Hrun'; subst. now apply Hb. }
    destruct Hcases as [-> | [-> | [-> | ->]]]; apply Hprime; (lia || reflexivity).
Qed.

Lemma small_prime_by_trial (budget : nat) (p : Z) :
  Z.log2 p <= Z.of_nat budget -> Z.sqrt p < Z.of_nat budget ->
  trialDivision budget p = Ok true -> Z.prime p.
Proof.
  intros Hlog Hsqrt Hrun.
  destruct (trialDivision_correct budget p Hlog Hsqrt) as (b & Hrun' & Hb).
  rewrite Hrun in Hrun'. inversion Hrun'; subst. now apply Hb.
Qed.

Lemma prime_5 : Z.prime 5.
Proof.
  apply (small_prime_by_trial 10); [vm_compute; discriminate | reflexivity | reflexivity].
Qed.

Lemma multiple_not_prime (n d : Z) :
  1 < d -> n <> d -> 0 <= n -> Z.rem n d = 0 -> ~ Z.prime n.
Proof.
  intros Hd Hne Hn Hrem [Hn1 Hp].
  apply rem_zero_divide in Hrem; [| lia | lia].
  apply (Hp d); [| exact Hrem].
  pose proof (Z.divide_pos_le d n ltac:(lia) Hrem). lia.
Qed.

Lemma sqrt_below_threshold (n : Z) : 0 <= n < 2000000 -> Z.sqrt n < 1415.
Proof. intros Hn. apply Z.sqrt_lt_square; lia. Qed.

Lemma log2_below_threshold (n : Z) : n < 2000000 -> Z.log2 n < 21.
Proof.
  intros Hn. destruct (Z.le_gt_cases n 0) as [Hle|Hpos].
  - rewrite Z.log2_nonpos by lia. lia.
  - apply Z.log2_lt_pow2; lia.
Qed.

(** Below the trial-division threshold [isPrime] is exact. *)
Lemma isPrime_correct (budget : nat) (n : Z) :
  1415 <= Z.of_nat budget -> n < 2000000 ->
  exists b, isPrime budget n = Ok b /\ (b = true <-> Z.prime n).
Proof.
  intros Hb Hn. unfold isPrime, isPrime_at.
  destruct (Z.ltb_spec n 2) as [Hlt|Hge].
  { exists false. split; [reflexivity |]. split; [discriminate | intros [H _]; lia]. }
  destruct (Z.eqb_spec n 2) as [->|Hn2].
  { exists true. split; [reflexivity |]. split; [intros _; apply Z.prime_2 | reflexivity]. }
  destruct (Z.eqb_spec n 3) as [->|Hn3].
  { exists true. split; [reflexivity |]. split; [intros _; apply Z.prime_3 | reflexivity]. }
  destruct (Z.eqb_spec n 5) as [->|Hn5].
  { exists true. split; [reflexivity |]. split; [intros _; apply prime_5 | reflexivity]. }
  cbn [orb].
  destruct (Z.eqb_spec (Z.rem n 2) 0) as [H2|H2].
  { exists false. split; [reflexivity |]. split; [discriminate |].
    intros Hp. exfalso. revert Hp. apply (multiple_not_prime n 2); lia. }
  destruct (Z.eqb_spec (Z.rem n 3) 0) as [H3|H3].
  { exists false. split; [reflexivity |]. split; [discriminate |].
    intros Hp. exfalso. revert Hp. apply (multiple_not_prime n 3); lia. }
  destruct (Z.eqb_spec (Z.rem n 5) 0) as [H5|H5].
  { exists false. split; [reflexivity |]. split; [discriminate |].
    intros Hp. exfalso. revert Hp. apply (multiple_not_prime n 5); lia. }
  cbn [orb]. rewrite gcd_510510 by lia. rewrite bind_Ok_l.
  destruct (Z.ltb_spec 1 (Z.gcd n 510510)) as [Hg|Hg].
  { exists (bool_decide (n ∈ [7; 11; 13; 17])). split; [reflexivity |].
    assert (n <> 4) by (intros ->; apply H2; reflexivity).
    rewrite bool_decide_eq_true. symmetry. apply shares_factor_prime; lia. }
  destruct (Z.ltb_spec n 2000000); [| lia].
  pose proof (sqrt_below_threshold n ltac:(lia)).
  pose proof (log2_below_threshold n Hn).
  destruct (trialDivision_correct budget n) as (b & Hrun & Hbp); [lia | lia |].
  rewrite Hrun. exists b. split; [reflexivity | exact Hbp].
Qed.

(** The gap table: from any [n] it leads to the next number coprime to 30. *)
Lemma add_gap_next (n : Z) :
  0 <= n ->
  exists g,
    add_gap n = Ok (n + g) /\ 0 < g /\
    ((n + g) mod 2 <> 0 /\ (n + g) mod 3 <> 0 /\ (n + g) mod 5 <> 0) /\
    forall x, n < x < n + g -> x mod 2 = 0 \/ x mod 3 = 0 \/ x mod 5 = 0.
Proof.
  intros Hn. unfold add_gap. rewrite rem_nonneg by lia.
  pose proof (Z.mod_pos_bound n 30 ltac:(lia)) as Hr.
  remember (n mod 30) as r eqn:Er.
  assert (Hnat : exists k : nat, r = Z.of_nat k /\ (k < 30)%nat).
  { exists (Z.to_nat r). lia. }
  destruct Hnat as (k & -> & Hk). rewrite Nat2Z.id. clear Hr.
  do 30 (destruct k as [|k];
         [simpl (gap !! _); simpl Z.of_nat in Er; eexists;
          split; [reflexivity |]; split; [lia |];
          split; [Z.div_mod_to_equations; lia |];
          intros x Hx;
          assert (Hx' : x = n + 1 \/ x = n + 2 \/ x = n + 3 \/ x = n + 4 \/ x = n + 5)
            by lia;
          destruct Hx' as [-> | [-> | [-> | [-> | ->]]]];
          Z.div_mod_to_equations; lia |]).
  lia.
Qed.

Lemma wheel_skips_no_prime (x : Z) :
  5 < x -> x mod 2 = 0 \/ x mod 3 = 0 \/ x mod 5 = 0 -> ~ Z.prime x.
Proof.
  intros Hx [H|[H|H]].
  - apply (multiple_not_prime x 2); try lia. rewrite rem_nonneg; lia.
  - apply (multiple_not_prime x 3); try lia. rewrite rem_nonneg; lia.
  - apply (multiple_not_prime x 5); try lia. rewrite rem_nonneg; lia.
Qed.

Lemma getNextPrime_loop_finds (budget fuel : nat) (c q : Z) :
  1415 <= Z.of_nat budget ->
  7 <= c -> c mod 2 <> 0 /\ c mod 3 <> 0 /\ c mod 5 <> 0 ->
  Z.prime q -> c <= q < 2000000 -> q - c < Z.of_nat fuel ->
  exists p,
    getNextPrime_loop budget fuel c = Ok p /\ Z.prime p /\ c <= p /\
    forall q', Z.prime q' -> c <= q' -> p <= q'.
Proof.
  intros Hb. revert c.
  induction fuel as [|fuel IH]; intros c Hc Hco Hq Hcq Hfuel; [lia |].
  cbn [getNextPrime_loop].
  destruct (isPrime_correct budget c Hb ltac:(lia)) as (b & Hrun & Hbp).
  rewrite Hrun, bind_Ok_l. destruct b; cbn [negb].
  - exists c. split; [reflexivity |]. split; [now apply Hbp |]. split; [lia |].
    intros q' _ Hq'. exact Hq'.
  - assert (Hnp : ~ Z.prime c) by (intros Hp; apply Hbp in Hp; discriminate).
    destruct (add_gap_next c ltac:(lia)) as (g & Hgap & Hg & Hco' & Hskip).
    rewrite Hgap, bind_Ok_l.
    assert (Hjump : forall q', Z.prime q' -> c <= q' -> c + g <= q').
    { intros q' Hq' Hle.
      destruct (Z.eq_dec q' c) as [->|Hne]; [contradiction |].
      destruct (Z.lt_ge_cases q' (c + g)) as [Hlt|]; [| assumption].
      exfalso. apply (wheel_skips_no_prime q'); [lia | | exact Hq'].
      apply Hskip. lia. }
    pose proof (Hjump q Hq ltac:(lia)) as Hq'.
    destruct (IH (c + g)) as (p & Hp & Hpp & Hcp & Hmin); try lia; try assumption.
    exists p. split; [exact Hp |]. split; [exact Hpp |]. split; [lia |].
    intros q' Hq'p Hq'c. apply Hmin; [exact Hq'p |]. now apply Hjump.
Qed.

Lemma prime_chain_sound (steps : nat) (p : Z) :
  prime_chain steps p = true -> Z.prime p -> p <= last_exact_prime ->
  forall c, p <= c <= last_exact_prime ->
  exists q, Z.prime q /\ c <= q <= last_exact_prime /\ q - c < 20000.
Proof.
  revert p. induction steps as [|steps IH]; intros p Hchain Hp Hple c Hc;
    [discriminate |].
  cbn [prime_chain] in Hchain.
  destruct (Z.leb_spec last_exact_prime p) as [Hlast|Hbelow].
  - exists p. split; [exact Hp |]. lia.
  - destruct (getNextPrime _ _) as [q| |]; try discriminate.
    destruct (isPrime (Z.to_nat 1500) q) as [[|]| |] eqn:Hq; try discriminate.
    apply andb_prop in Hchain. destruct Hchain as [Hchain Hrest].
    apply andb_prop in Hchain. destruct Hchain as [Hchain Hqle].
    apply andb_prop in Hchain. destruct Hchain as [Hpq Hgap].
    apply Z.ltb_lt in Hpq, Hgap. apply Z.leb_le in Hqle.
    assert (Hqp : Z.prime q).
    { destruct (isPrime_correct (Z.to_nat 1500) q) as (b & Hrun & Hb);
        [lia | unfold last_exact_prime in Hqle; lia |].
      rewrite Hq in Hrun. inversion Hrun; subst. now apply Hb. }
    destruct (Z.le_gt_cases c q) as [Hcq|Hcq].
    + exists q. split; [exact Hqp |]. lia.
    + apply (IH q Hrest Hqp Hqle). lia.
Qed.

Lemma prime_7 : Z.prime 7.
Proof.
  apply (small_prime_by_trial 10); [vm_compute; discriminate | reflexivity | reflexivity].
Qed.

Lemma primes_within_20000 (c : Z) :
  7 <= c <= last_exact_prime ->
  exists q, Z.prime q /\ c <= q <= last_exact_prime /\ q - c < 20000.
Proof.
  apply (prime_chain_sound 200 7).
  - vm_compute. reflexivity.
  - exact prime_7.
  - unfold last_exact_prime. lia.
Qed.

Lemma land_1 (n : Z) : 0 <= n -> Z.land n 1 = n mod 2.
Proof. intros Hn. change 1 with (Z.ones 1) at 1. now rewrite Z.land_ones. Qed.

Lemma getNextPrime_wheel_start (budget : nat) (n : Z) :
  5 <= n ->
  exists c,
    (let n1 := n + (1 + Z.land n 1) in
     (if (Z.rem n1 3 =? 0) || (Z.rem n1 5 =? 0) then add_gap n1 else Ok n1) = Ok c) /\
    7 <= c /\ n < c /\
    (c mod 2 <> 0 /\ c mod 3 <> 0 /\ c mod 5 <> 0) /\
    forall x, n < x < c -> ~ Z.prime x.
Proof.
  intros Hn. cbn zeta. rewrite land_1 by lia.
  pose proof (Z.mod_pos_bound n 2 ltac:(lia)) as Hpar.
  set (n1 := n + (1 + n mod 2)).
  assert (Hodd : n1 mod 2 = 1) by (subst n1; Z.div_mod_to_equations; lia).
  assert (Hbetween : forall x, n < x < n1 -> ~ Z.prime x).
  { intros x Hx. apply wheel_skips_no_prime; [lia |]. left.
    subst n1. Z.div_mod_to_equations. lia. }
  rewrite !rem_nonneg by lia.
  destruct (Z.eqb_spec (n1 mod 3) 0) as [H3|H3];
    [| destruct (Z.eqb_spec (n1 mod 5) 0) as [H5|H5]]; cbn [orb].
  1,2: destruct (add_gap_next n1 ltac:(lia)) as (g & Hgap & Hg & Hco & Hskip);
       exists (n1 + g); split; [exact Hgap |];
       split; [destruct Hco as (Hc2 & _); Z.div_mod_to_equations; lia |];
       split; [lia |]; split; [exact Hco |];
       intros x Hx;
       destruct (Z.lt_trichotomy x n1) as [Hlt|[->|Hgt]];
       [apply Hbetween; lia
       |apply wheel_skips_no_prime; [lia | tauto]
       |apply wheel_skips_no_prime; [lia | apply Hskip; lia]].
  exists n1. split; [reflexivity |].
  split; [Z.div_mod_to_equations; lia |]. split; [lia |].
  split; [lia |]. intros x Hx. apply Hbetween. lia.
Qed.

(** C6 (amended). For every BigInt [n] with [0 <= n < 1999993] (so that
    every candidate examined lies below the 2,000,000 threshold under which
    [isPrime] is exact), [getNextPrime(n)] returns the smallest prime
    strictly greater than [n]; in particular [nextPrime(9) == 11] and
    [nextPrime(0) == 2]. *)
Theorem getNextPrime_smallest_greater (budget : nat) (n : Z) :
  20000 <= Z.of_nat budget -> 0 <= n < last_exact_prime ->
  (exists p,
     getNextPrime budget n = Ok p /\ Z.prime p /\ n < p /\
     forall q, Z.prime q -> n < q -> p <= q) /\
  getNextPrime budget 9 = Ok 11 /\ getNextPrime budget 0 = Ok 2.
Proof.
  intros Hb.
  assert (General : forall n, 0 <= n < last_exact_prime ->
            exists p, getNextPrime budget n = Ok p /\ Z.prime p /\ n < p /\
                      forall q, Z.prime q -> n < q -> p <= q).
  { clear n. intros n Hn. unfold last_exact_prime in Hn. unfold getNextPrime.
    assert (Hbl : exists bl, getBitLength n = Ok bl /\ bl <= 21).
    { destruct (Z.eq_dec n 0) as [->|Hnz].
      - exists 0. split; [reflexivity | lia].
      - rewrite getBitLength_pos by lia. eexists. split; [reflexivity |].
        pose proof (log2_below_threshold n ltac:(lia)). lia. }
    destruct Hbl as (bl & -> & Hbl). rewrite bind_Ok_l.
    destruct (Z.ltb_spec 512 bl); [lia |].
    destruct (Z.ltb_spec n 2) as [Hlt2|Hge2].
    { exists 2. split; [reflexivity |]. split; [apply Z.prime_2 |]. split; [lia |].
      intros q [Hq _] _. lia. }
    destruct (Z.ltb_spec n 5) as [Hlt5|Hge5].
    { assert (Hcases : n = 2 \/ n = 3 \/ n = 4) by lia.
      destruct Hcases as [-> | [-> | ->]]; simpl; eexists;
        (split; [reflexivity |]); (split; [first [apply Z.prime_3 | apply prime_5] |]);
        (split; [lia |]); intros q Hq Hlt.
      - lia.
      - destruct (Z.eq_dec q 4) as [->|]; [| lia].
        exfalso. revert Hq. apply (multiple_not_prime 4 2); (lia || reflexivity).
      - lia. }
    destruct (getNextPrime_wheel_start budget n Hge5)
      as (c & Hstart & Hc7 & Hnc & Hco & Hnone).
    cbn zeta in Hstart. rewrite Hstart, bind_Ok_l.
    assert (Hjump : forall q, Z.prime q -> n < q -> c <= q).
    { intros q Hq Hnq. destruct (Z.lt_ge_cases q c) as [Hlt|]; [| assumption].
      exfalso. apply (Hnone q); [lia | exact Hq]. }
    assert (Hlast : Z.prime last_exact_prime).
    { destruct (primes_within_20000 last_exact_prime) as (q & Hq & Hrange & _);
        [unfold last_exact_prime; lia |].
      now replace last_exact_prime with q by lia. }
    pose proof (Hjump _ Hlast ltac:(unfold last_exact_prime; lia)) as Hcl.
    destruct (primes_within_20000 c ltac:(lia)) as (q & Hq & Hrange & Hclose).
    unfold last_exact_prime in Hrange.
    destruct (getNextPrime_loop_finds budget budget c q) as (p & Hp & Hpp & Hcp & Hmin);
      try lia; try assumption.
    exists p. split; [exact Hp |]. split; [exact Hpp |]. split; [lia |].
    intros q' Hq' Hnq'. apply Hmin; [exact Hq' |]. now apply Hjump. }
  intros Hn. split; [now apply General |].
  assert (H4 : ~ Z.prime 4) by (apply (multiple_not_prime 4 2); (lia || reflexivity)).
  assert (H10 : ~ Z.prime 10) by (apply (multiple_not_prime 10 2); (lia || reflexivity)).
  assert (H11 : Z.prime 11).
  { apply (small_prime_by_trial 10);
      [vm_compute; discriminate | reflexivity | reflexivity]. }
  split.
  - destruct (General 9 ltac:(unfold last_exact_prime; lia))
      as (p & Hp & Hpp & Hlt & Hmin).
    rewrite Hp. f_equal. pose proof (Hmin 11 H11 ltac:(lia)).
    destruct (Z.eq_dec p 10) as [->|]; [contradiction | lia].
  - destruct (General 0 ltac:(unfold last_exact_prime; lia))
      as (p & Hp & Hpp & Hlt & Hmin).
    rewrite Hp. f_equal. pose proof (Hmin 2 Z.prime_2 ltac:(lia)).
    destruct Hpp as [Hp1 _]. lia.
Qed.

Lemma getNextPrime_smallest_greater_witness :
  (exists p,
     getNextPrime (Z.to_nat 20000) 7 = Ok p /\ Z.prime p /\ 7 < p /\
     forall q, Z.prime q -> 7 < q -> p <= q) /\
  getNextPrime (Z.to_nat 20000) 9 = Ok 11 /\
  getNextPrime (Z.to_nat 20000) 0 = Ok 2.
Proof.
  apply (getNextPrime_smallest_greater (Z.to_nat 20000) 7);
    [lia | unfold last_exact_prime; lia].
Defined.

(** C6, as stated, fails twice.  [getNextPrime(7)] is 11 although 7 is
    itself a prime [>= 7]: the search starts strictly above [n].  And above
    the trial-division threshold the result need not be prime:
    [getNextPrime(1122004669632)] is [1122004669633 = 611557 * 1834669], a
    strong pseudoprime to all four bases of the oracle. *)
Lemma getNextPrime_smallest_greater_counterexample :
  (Z.log2 7 + 1 <= 512 /\ Z.prime 7 /\ 7 <= 7 /\ getNextPrime 100 7 = Ok 11) /\
  (Z.log2 1122004669632 + 1 <= 512 /\
   getNextPrime 100 1122004669632 = Ok 1122004669633 /\
   1122004669633 = 611557 * 1834669 /\ ~ Z.prime 1122004669633).
Proof.
  split.
  - split; [vm_compute; discriminate |]. split; [exact prime_7 |].
    split; [lia | reflexivity].
  - split; [vm_compute; discriminate |]. split; [vm_compute; reflexivity |].
    split; [reflexivity |].
    intros [_ Hp]. apply (Hp 611557); [lia |]. exists 1834669. reflexivity.
Qed.

(** ** The bit-packing schema *)

Lemma validateSchema_loop_spec (schema : list FieldSchema) (i : Z)
    (seenFields : gset string) :
  let valid :=
    Forall (fun f => 0 < bits f) schema /\ NoDup (name <$> schema) /\
    (forall x, x ∈ (name <$> schema) -> x ∉ seenFields) in
  (valid -> ObfusbitSchema.validateSchema_loop (enumerate_from i schema) seenFields
            = Ok ()) /\
  (~ valid -> ObfusbitSchema.validateSchema_loop (enumerate_from i schema) seenFields
              = Throw SchemaValidationError).
Proof.
  revert i seenFields. induction schema as [|f schema IH]; intros i seen valid.
  - split; [reflexivity |]. intros Hnot. exfalso. apply Hnot. subst valid.
    split; [constructor |]. split; [constructor |]. intros x Hx. inversion Hx.
  - cbn [enumerate_from ObfusbitSchema.validateSchema_loop].
    unfold ObfusbitSchema.validateSchemaItem.
    destruct (IH (i + 1) ({[name f]} ∪ seen)) as [IHok IHbad]. cbn zeta in *.
    subst valid.
    destruct (Z.leb_spec (bits f) 0) as [Hbits|Hbits].
    { split; [| reflexivity]. intros (Hpos & _). inversion Hpos; subst. lia. }
    destruct (bool_decide (name f ∈ seen)) eqn:Hseen.
    { apply bool_decide_eq_true_1 in Hseen.
      split; [| reflexivity]. intros (_ & _ & Hfresh).
      exfalso. apply (Hfresh (name f)); [left | exact Hseen]. }
    apply bool_decide_eq_false_1 in Hseen. rewrite bind_Ok_l. split.
    + intros (Hpos & Hnd & Hfresh). apply IHok.
      inversion Hpos; subst. rewrite fmap_cons in Hnd. inversion Hnd; subst.
      split; [assumption |]. split; [assumption |].
      intros x Hx Hin. apply elem_of_union in Hin. destruct Hin as [Hin|Hin].
      * apply elem_of_singleton in Hin. subst. contradiction.
      * apply (Hfresh x); [right; exact Hx | exact Hin].
    + intros Hnot. apply IHbad. intros (Hpos & Hnd & Hfresh). apply Hnot.
      split; [constructor; assumption |]. split.
      * rewrite fmap_cons. constructor; [| assumption].
        intros Hin. apply (Hfresh (name f) Hin). apply elem_of_union. left.
        now apply elem_of_singleton.
      * intros x Hx. rewrite fmap_cons in Hx. inversion Hx; subst; [exact Hseen |].
        intros Hin. apply (Hfresh x); [assumption |]. apply elem_of_union. now right.
Qed.

Lemma validateSchema_spec (schema : list FieldSchema) :
  let valid := Forall (fun f => 0 < bits f) schema /\ NoDup (name <$> schema) in
  (valid -> ObfusbitSchema.validateSchema schema = Ok ()) /\
  (~ valid -> ObfusbitSchema.validateSchema schema = Throw SchemaValidationError).
Proof.
  intros valid. unfold ObfusbitSchema.validateSchema, enumerate.
  destruct (validateSchema_loop_spec schema 0 ∅) as [Hok Hbad]. cbn zeta in *.
  subst valid. split.
  - intros (Hpos & Hnd). apply Hok. split; [assumption |]. split; [assumption |].
    intros x _. apply not_elem_of_empty.
  - intros Hnot. apply Hbad. intros (Hpos & Hnd & _). apply Hnot. now split.
Qed.

(** C8 (amended). Constructing a schema fails, with a schema-validation
    error, exactly when some field item has a non-positive [bits] or repeats
    the name of an earlier item; the text of a name is never inspected, so a
    field whose name is the empty string is accepted. *)
Theorem schema_construction (schema : list FieldSchema) :
  ((exists s, ObfusbitSchema.new schema = Ok s) <->
   Forall (fun f => 0 < bits f) schema /\ NoDup (name <$> schema)) /\
  (ObfusbitSchema.new schema = Throw SchemaValidationError <->
   ~ (Forall (fun f => 0 < bits f) schema /\ NoDup (name <$> schema))) /\
  (exists s, ObfusbitSchema.new [{| name := ""; bits := 1 |}] = Ok s).
Proof.
  destruct (validateSchema_spec schema) as [Hok Hbad]. cbn zeta in *.
  unfold ObfusbitSchema.new.
  split; [| split].
  - split.
    + intros (s & Hs).
      destruct (decide (Forall (fun f => 0 < bits f) schema /\ NoDup (name <$> schema)))
        as [Hvalid|Hnot]; [exact Hvalid |].
      rewrite (Hbad Hnot) in Hs. discriminate.
    + intros Hvalid. rewrite (Hok Hvalid). eexists. reflexivity.
  - split.
    + intros Hthrow Hvalid. rewrite (Hok Hvalid) in Hthrow. discriminate.
    + intros Hnot. now rewrite (Hbad Hnot).
  - eexists. reflexivity.
Qed.

(** C8, as stated, fails: a schema whose only field is named by the empty
    string is constructed without error. *)
Lemma schema_construction_counterexample :
  exists s,
    ObfusbitSchema.new [{| name := ""; bits := 1 |}] = Ok s /\
    ObfusbitSchema.__definition s = [{| name := ""; bits := 1 |}] /\
    ObfusbitSchema.new [{| name := ""; bits := 1 |}] <> Throw SchemaValidationError.
Proof.
  eexists. split; [reflexivity |]. split; [reflexivity | discriminate].
Qed.

(** *** Layout: where [calculateFieldInfo] puts each field *)

Import Layout.

Lemma total_bits_foldl (schema : list FieldSchema) (acc : Z) :
  foldl (fun sum field => sum + bits field) acc schema = acc + total_bits schema.
Proof.
  revert acc. induction schema as [|f schema IH]; intros acc; simpl; [lia |].
  rewrite IH. lia.
Qed.

Lemma total_bits_app (l1 l2 : list FieldSchema) :
  total_bits (l1 ++ l2) = total_bits l1 + total_bits l2.
Proof. induction l1 as [|f l1 IH]; simpl; [reflexivity | rewrite IH; lia]. Qed.

Lemma total_bits_rev (l : list FieldSchema) : total_bits (rev l) = total_bits l.
Proof.
  induction l as [|f l IH]; simpl; [reflexivity |].
  rewrite total_bits_app, IH. simpl. lia.
Qed.

Lemma total_bits_nonneg (schema : list FieldSchema) :
  Forall (fun f => 0 < bits f) schema -> 0 <= total_bits schema.
Proof. induction 1; simpl; lia. Qed.

Lemma get_empty {V : Type} (x : string) :
  JsObject.get (@JsObject.empty V) x = None.
Proof.
  unfold JsObject.get, JsObject.empty. cbn.
  destruct (bool_decide (x = "__proto__"%string)); [reflexivity |].
  apply lookup_empty.
Qed.

Lemma get_set_eq {V : Type} (obj : JsObject.t V) (x : string) (v : V) :
  JsObject.get (JsObject.set obj x v) x = Some v.
Proof.
  unfold JsObject.get, JsObject.set.
  destruct (bool_decide (x = "__proto__"%string)); cbn;
    [reflexivity | apply lookup_insert_eq].
Qed.

Lemma get_set_ne {V : Type} (obj : JsObject.t V) (x y : string) (v : V) :
  x <> y -> JsObject.get (JsObject.set obj x v) y = JsObject.get obj y.
Proof.
  intros Hne. unfold JsObject.get, JsObject.set.
  destruct (bool_decide (x = "__proto__"%string)) eqn:Ex;
    destruct (bool_decide (y = "__proto__"%string)) eqn:Ey; cbn;
    try reflexivity.
  - apply bool_decide_eq_true_1 in Ex, Ey. congruence.
  - now apply lookup_insert_ne.
Qed.

(** No assignment gives an object an own property named [__proto__]. *)
Lemma own_set_proto {V : Type} (obj : JsObject.t V) (x : string) (v : V) :
  JsObject.own obj !! "__proto__"%string = None ->
  JsObject.own (JsObject.set obj x v) !! "__proto__"%string = None.
Proof.
  intros Hnone. unfold JsObject.set.
  destruct (bool_decide (x = "__proto__"%string)) eqn:Ex; cbn; [exact Hnone |].
  apply bool_decide_eq_false_1 in Ex. now rewrite lookup_insert_ne.
Qed.

Lemma calculateFieldInfo_shift (l : list FieldSchema)
    (acc : JsObject.t FieldInfo.t * Z) :
  snd (foldl
         (fun '(fieldInfo, currentShift) field =>
            (JsObject.set fieldInfo (name field)
               {| FieldInfo.bits := bits field;
                  FieldInfo.shift := currentShift |},
             currentShift + bits field)) acc l)
  = snd acc + total_bits l.
Proof.
  revert acc. induction l as [|f l IH]; intros [m sh]; simpl; [lia |].
  rewrite IH. simpl. lia.
Qed.

Lemma calculateFieldInfo_cons (f : FieldSchema) (rest : list FieldSchema) :
  ObfusbitSchema.calculateFieldInfo (f :: rest) =
    JsObject.set (ObfusbitSchema.calculateFieldInfo rest) (name f)
      {| FieldInfo.bits := bits f; FieldInfo.shift := total_bits rest |}.
Proof.
  unfold ObfusbitSchema.calculateFieldInfo. simpl rev. rewrite foldl_app.
  cbn [foldl].
  pose proof (calculateFieldInfo_shift (rev rest) (JsObject.empty, 0)) as Hshift.
  destruct (foldl _ (JsObject.empty, 0) (rev rest)) as [m sh]. cbn [fst snd] in *.
  rewrite Hshift, total_bits_rev. reflexivity.
Qed.

Lemma calculateFieldInfo_nil (x : string) :
  JsObject.get (ObfusbitSchema.calculateFieldInfo []) x = None.
Proof. apply (@get_empty FieldInfo.t). Qed.

(** The own properties of the table are its entries other than the one
    under [__proto__], which is the prototype. *)
Lemma calculateFieldInfo_own (schema : list FieldSchema) (x : string) :
  JsObject.own (ObfusbitSchema.calculateFieldInfo schema) !! x =
    if bool_decide (x = "__proto__"%string) then None
    else JsObject.get (ObfusbitSchema.calculateFieldInfo schema) x.
Proof.
  destruct (bool_decide (x = "__proto__"%string)) eqn:Ex.
  - apply bool_decide_eq_true_1 in Ex. subst x.
    induction schema as [| f schema IH]; [apply lookup_empty |].
    rewrite calculateFieldInfo_cons. now apply own_set_proto.
  - unfold JsObject.get. now rewrite Ex.
Qed.

Lemma calculateFieldInfo_keys (schema : list FieldSchema) (x : string) :
  x ∈ JsObject.keys (ObfusbitSchema.calculateFieldInfo schema) <->
  x <> "__proto__"%string /\
  is_Some (JsObject.get (ObfusbitSchema.calculateFieldInfo schema) x).
Proof.
  unfold JsObject.keys. rewrite list_elem_of_fmap. split.
  - intros ([y info] & -> & Hy). apply elem_of_map_to_list in Hy. cbn [fst].
    rewrite calculateFieldInfo_own in Hy.
    destruct (bool_decide (y = "__proto__"%string)) eqn:Ey; [discriminate |].
    apply bool_decide_eq_false_1 in Ey. eauto.
  - intros (Hx & info & Hinfo). exists (x, info). split; [reflexivity |].
    apply elem_of_map_to_list. rewrite calculateFieldInfo_own.
    now rewrite bool_decide_eq_false_2.
Qed.

Lemma calculateFieldInfo_lookup (schema : list FieldSchema) (x : string)
    (info : FieldInfo.t) :
  Forall (fun f => 0 < bits f) schema ->
  JsObject.get (ObfusbitSchema.calculateFieldInfo schema) x = Some info ->
  x ∈ (name <$> schema) /\
  0 < FieldInfo.bits info /\ 0 <= FieldInfo.shift info /\
  FieldInfo.shift info + FieldInfo.bits info <= total_bits schema.
Proof.
  intros Hpos. revert info.
  induction Hpos as [|f schema Hf Hpos IH]; intros info Hlook.
  - rewrite calculateFieldInfo_nil in Hlook. discriminate.
  - rewrite calculateFieldInfo_cons in Hlook. rewrite fmap_cons.
    pose proof (total_bits_nonneg schema Hpos) as Hnn.
    destruct (decide (name f = x)) as [<-|Hne].
    + rewrite get_set_eq in Hlook. inversion Hlook; subst. simpl.
      split; [left |]. lia.
    + rewrite get_set_ne in Hlook by exact Hne.
      destruct (IH info Hlook) as (Hin & Hb & Hs & Hfit).
      split; [right; exact Hin |]. simpl. lia.
Qed.

Lemma calculateFieldInfo_field (schema : list FieldSchema) (f : FieldSchema) :
  NoDup (name <$> schema) -> f ∈ schema ->
  exists info,
    JsObject.get (ObfusbitSchema.calculateFieldInfo schema) (name f) = Some info /\
    FieldInfo.bits info = bits f.
Proof.
  induction schema as [|g schema IH]; intros Hnd Hin; [inversion Hin |].
  rewrite fmap_cons in Hnd. inversion Hnd as [|? ? Hfresh Hnd']; subst.
  rewrite calculateFieldInfo_cons.
  inversion Hin; subst.
  - rewrite get_set_eq. eexists. split; reflexivity.
  - rewrite get_set_ne.
    + now apply IH.
    + intros Heq. apply Hfresh. rewrite Heq. now apply list_elem_of_fmap_2.
Qed.

Lemma calculateFieldInfo_disjoint (schema : list FieldSchema) (x y : string)
    (ix iy : FieldInfo.t) :
  Forall (fun f => 0 < bits f) schema -> x <> y ->
  JsObject.get (ObfusbitSchema.calculateFieldInfo schema) x = Some ix ->
  JsObject.get (ObfusbitSchema.calculateFieldInfo schema) y = Some iy ->
  FieldInfo.shift ix + FieldInfo.bits ix <= FieldInfo.shift iy \/
  FieldInfo.shift iy + FieldInfo.bits iy <= FieldInfo.shift ix.
Proof.
  intros Hpos Hxy. revert ix iy.
  induction Hpos as [|f schema Hf Hpos IH]; intros ix iy Hx Hy;
    [rewrite calculateFieldInfo_nil in Hx; discriminate |].
  rewrite calculateFieldInfo_cons in Hx, Hy.
  destruct (decide (name f = x)) as [Ex|Ex]; destruct (decide (name f = y)) as [Ey|Ey].
  - congruence.
  - rewrite Ex, get_set_eq in Hx. rewrite get_set_ne in Hy by exact Ey.
    inversion Hx; subst ix. simpl.
    destruct (calculateFieldInfo_lookup schema y iy Hpos Hy) as (_ & _ & _ & Hfit).
    right. lia.
  - rewrite Ey, get_set_eq in Hy. rewrite get_set_ne in Hx by exact Ex.
    inversion Hy; subst iy. simpl.
    destruct (calculateFieldInfo_lookup schema x ix Hpos Hx) as (_ & _ & _ & Hfit).
    left. lia.
  - rewrite get_set_ne in Hx by exact Ex.
    rewrite get_set_ne in Hy by exact Ey. now apply IH.
Qed.

(** *** The packer *)

Lemma Obfusbit_new_inv (schema : list FieldSchema) (ok : option Obfuskey)
    (b : Obfusbit.t) :
  Obfusbit.new (inl schema) ok = Ok b ->
  Forall (fun f => 0 < bits f) schema /\ NoDup (name <$> schema) /\
  Obfusbit.__obfuskey b = ok /\
  Obfusbit.__schema b =
    {| ObfusbitSchema.__definition := schema;
       ObfusbitSchema.__totalBits := total_bits schema;
       ObfusbitSchema.__maximumValue := Z.shiftl 1 (total_bits schema) - 1;
       ObfusbitSchema.__fieldInfo := ObfusbitSchema.calculateFieldInfo schema;
       ObfusbitSchema.__fieldNames := list_to_set (map name schema) |}.
Proof.
  unfold Obfusbit.new, ObfusbitSchema.new. intros Hnew.
  destruct (validateSchema_spec schema) as [Hok Hbad]. cbn zeta in *.
  destruct (decide (Forall (fun f => 0 < bits f) schema /\ NoDup (name <$> schema)))
    as [Hvalid|Hnot]; [| rewrite (Hbad Hnot) in Hnew; discriminate].
  rewrite (Hok Hvalid) in Hnew. rewrite !bind_Ok_l in Hnew.
  destruct Hvalid as [Hpos Hnd]. split; [exact Hpos |]. split; [exact Hnd |].
  rewrite total_bits_foldl in Hnew. simpl (0 + _) in Hnew.
  destruct (match ok with Some o => _ | None => false end); [discriminate |].
  inversion Hnew; subst. simpl. split; reflexivity.
Qed.

Section Packer.

Variable schema : list FieldSchema.
Hypothesis schema_pos : Forall (fun f => 0 < bits f) schema.
Hypothesis schema_NoDup : NoDup (name <$> schema).

Let s : ObfusbitSchema.t :=
  {| ObfusbitSchema.__definition := schema;
     ObfusbitSchema.__totalBits := total_bits schema;
     ObfusbitSchema.__maximumValue := Z.shiftl 1 (total_bits schema) - 1;
     ObfusbitSchema.__fieldInfo := ObfusbitSchema.calculateFieldInfo schema;
     ObfusbitSchema.__fieldNames := list_to_set (map name schema) |}.

Lemma getFieldInfo_known (x : string) (info : FieldInfo.t) :
  JsObject.get (ObfusbitSchema.calculateFieldInfo schema) x = Some info ->
  ObfusbitSchema.getFieldInfo s x = Ok info.
Proof.
  intros Hlook. unfold ObfusbitSchema.getFieldInfo.
  destruct (calculateFieldInfo_lookup schema x info schema_pos Hlook) as (Hin & _).
  cbn [ObfusbitSchema.__fieldNames ObfusbitSchema.__fieldInfo s].
  rewrite bool_decide_eq_true_2 by (apply elem_of_list_to_set; exact Hin).
  cbn [negb]. now rewrite Hlook.
Qed.

(** [unpack]'s loop stores the bits of every listed field but the one
    named [__proto__], whose assignment does nothing. *)
Lemma unpack_loop_spec (n : Z) (fields : list FieldSchema) (acc : gmap string Z) :
  (forall f, f ∈ fields -> f ∈ schema) ->
  exists m,
    Obfusbit.unpack_loop s n fields acc = Ok m /\
    forall x,
      m !! x =
        if decide (x ∈ (name <$> fields) /\ x <> "__proto__"%string)
        then extract n <$> JsObject.get (ObfusbitSchema.calculateFieldInfo schema) x
        else acc !! x.
Proof.
  revert acc. induction fields as [|f fields IH]; intros acc Hsub.
  - exists acc. split; [reflexivity |]. intros x.
    rewrite decide_False; [reflexivity |]. intros [Hin _]. inversion Hin.
  - cbn [Obfusbit.unpack_loop].
    destruct (calculateFieldInfo_field schema f schema_NoDup (Hsub f ltac:(left)))
      as (info & Hlook & Hbits).
    rewrite (getFieldInfo_known _ _ Hlook), bind_Ok_l.
    destruct (IH (JsObject.set_primitive acc (name f)
                    (Z.land (Z.shiftr n (FieldInfo.shift info))
                            (Z.shiftl 1 (FieldInfo.bits info) - 1))))
      as (m & Hrun & Hm).
    { intros g Hg. apply Hsub. now right. }
    exists m. split; [exact Hrun |]. intros x. rewrite Hm, fmap_cons.
    destruct (decide (x ∈ (name <$> fields) /\ x <> "__proto__"%string))
      as [[Hin Hx] | Hnin].
    + rewrite decide_True by (split; [now right | exact Hx]). reflexivity.
    + unfold JsObject.set_primitive.
      destruct (decide (x = name f)) as [-> | Hne].
      * destruct (bool_decide (name f = "__proto__"%string)) eqn:Ef.
        -- apply bool_decide_eq_true_1 in Ef.
           rewrite decide_False; [reflexivity |]. intros [_ Hx]. contradiction.
        -- apply bool_decide_eq_false_1 in Ef.
           rewrite decide_True by (split; [left | exact Ef]).
           rewrite lookup_insert_eq, Hlook. simpl.
           unfold extract. now rewrite Z.shiftl_1_l.
      * rewrite (decide_False (P := x ∈ name f :: (name <$> fields) /\ _)).
        2:{ intros [Hin Hx]. apply Hnin. split; [| exact Hx].
            inversion Hin; subst; [contradiction | assumption]. }
        destruct (bool_decide (name f = "__proto__"%string)); [reflexivity |].
        now rewrite lookup_insert_ne by congruence.
Qed.


Lemma filter_none {A : Type} (P : A -> Prop) `{forall x, Decision (P x)}
    (l : list A) :
  (forall x, x ∈ l -> ~ P x) -> filter P l = [].
Proof.
  induction l as [|x l IH]; intros Hall; [reflexivity |].
  rewrite filter_cons, decide_False by (apply Hall; left).
  apply IH. intros y Hy. apply Hall. now right.
Qed.

Lemma validateFields_loop_ok (entries : list (string * Z)) :
  (forall x v, (x, v) ∈ entries ->
     exists info,
       JsObject.get (ObfusbitSchema.calculateFieldInfo schema) x = Some info /\
       0 <= v < 2 ^ FieldInfo.bits info) ->
  ObfusbitSchema.validateFields_loop s entries = Ok ().
Proof.
  induction entries as [|[x v] entries IH]; intros Hall; [reflexivity |].
  cbn [ObfusbitSchema.validateFields_loop ObfusbitSchema.__fieldInfo s].
  destruct (Hall x v ltac:(left)) as (info & Hlook & Hv).
  rewrite Hlook, Z.shiftl_1_l.
  destruct (Z.ltb_spec v 0); [lia |].
  destruct (Z.leb_spec (2 ^ FieldInfo.bits info) v); [lia |].
  cbn [orb]. apply IH. intros y w Hy. apply Hall. now right.
Qed.

Variable values : gmap string Z.
Hypothesis values_dom : dom values = list_to_set (name <$> schema).
Hypothesis values_range :
  forall f v, f ∈ schema -> values !! name f = Some v -> 0 <= v < 2 ^ bits f.

Lemma values_known (x : string) (info : FieldInfo.t) :
  JsObject.get (ObfusbitSchema.calculateFieldInfo schema) x = Some info ->
  exists v, values !! x = Some v /\ 0 <= v < 2 ^ FieldInfo.bits info.
Proof.
  intros Hlook.
  destruct (calculateFieldInfo_lookup schema x info schema_pos Hlook) as (Hin & _).
  assert (Hdom : x ∈ dom values) by (rewrite values_dom; now apply elem_of_list_to_set).
  apply elem_of_dom in Hdom. destruct Hdom as [v Hv]. exists v. split; [exact Hv |].
  apply list_elem_of_fmap in Hin. destruct Hin as (f & -> & Hf).
  destruct (calculateFieldInfo_field schema f schema_NoDup Hf) as (info' & Hlook' & Hbits).
  rewrite Hlook in Hlook'. inversion Hlook'; subst info'. rewrite Hbits.
  now apply values_range.
Qed.

Lemma validateFields_ok : ObfusbitSchema.validateFields s values = Ok ().
Proof.
  unfold ObfusbitSchema.validateFields. cbn [ObfusbitSchema.__fieldNames s].
  change (map name schema) with (name <$> schema).
  rewrite filter_none.
  2:{ intros x Hx Hnot. apply Hnot. rewrite values_dom. now apply elem_of_elements. }
  rewrite filter_none.
  2:{ intros x Hx Hnot. apply Hnot. rewrite <- values_dom. now apply elem_of_elements. }
  simpl. apply validateFields_loop_ok. intros x v Hxv.
  apply elem_of_map_to_list in Hxv.
  assert (Hin : x ∈ (name <$> schema)).
  { apply (elem_of_list_to_set (C := gset string)). rewrite <- values_dom.
    apply elem_of_dom. eauto. }
  apply list_elem_of_fmap in Hin. destruct Hin as (f & -> & Hf).
  destruct (calculateFieldInfo_field schema f schema_NoDup Hf) as (info & Hlook & Hbits).
  exists info. split; [exact Hlook |]. rewrite Hbits. now apply values_range.
Qed.

(** [pack]'s loop ORs together the shifted values of the listed fields. *)
Lemma pack_loop_spec (fieldNames : list string) (acc : Z) :
  (forall x, x ∈ fieldNames ->
     is_Some (JsObject.get (ObfusbitSchema.calculateFieldInfo schema) x)) ->
  exists p,
    Obfusbit.pack_loop s values fieldNames acc = Ok p /\
    forall i, 0 <= i ->
      Z.testbit p i = true <->
      Z.testbit acc i = true \/
      exists x info v,
        x ∈ fieldNames /\
        JsObject.get (ObfusbitSchema.calculateFieldInfo schema) x = Some info /\
        values !! x = Some v /\
        Z.testbit (Z.shiftl v (FieldInfo.shift info)) i = true.
Proof.
  revert acc. induction fieldNames as [|x fieldNames IH]; intros acc Hknown.
  - exists acc. split; [reflexivity |]. intros i Hi. split; [now left |].
    intros [H|(x & info & v & Hx & _)]; [exact H | inversion Hx].
  - cbn [Obfusbit.pack_loop].
    destruct (Hknown x ltac:(left)) as [info Hlook].
    rewrite (getFieldInfo_known _ _ Hlook), bind_Ok_l.
    destruct (values_known x info Hlook) as (v & Hv & Hrange). rewrite Hv.
    destruct (IH (Z.lor acc (Z.shiftl v (FieldInfo.shift info))))
      as (p & Hrun & Hp).
    { intros y Hy. apply Hknown. now right. }
    exists p. split; [exact Hrun |]. intros i Hi. rewrite (Hp i Hi).
    rewrite Z.lor_spec, Bool.orb_true_iff. split.
    + intros [[Hacc|Hnew]|(y & iy & vy & Hy & Hly & Hvy & Hbit)].
      * now left.
      * right. exists x, info, v. split; [left |]. auto.
      * right. exists y, iy, vy. split; [now right |]. auto.
    + intros [Hacc|(y & iy & vy & Hy & Hly & Hvy & Hbit)].
      * left. now left.
      * inversion Hy; subst.
        -- left. right. rewrite Hlook in Hly. rewrite Hv in Hvy.
           inversion Hly; inversion Hvy; subst. exact Hbit.
        -- right. exists y, iy, vy. auto.
Qed.

Lemma testbit_above (v width i : Z) :
  0 <= v < 2 ^ width -> width <= i -> Z.testbit v i = false.
Proof.
  intros Hv Hi. destruct (Z.le_gt_cases 0 width) as [Hw|Hw].
  - rewrite <- (Z.mod_small v (2 ^ width)) by lia.
    apply Z.mod_pow2_bits_high. lia.
  - rewrite Z.pow_neg_r in Hv by lia. lia.
Qed.

(** Reading a field back from the packed integer gives its value. *)
Lemma extract_packed (p : Z) (x : string) (info : FieldInfo.t) (v : Z) :
  (forall i, 0 <= i ->
     Z.testbit p i = true <->
     exists y iy vy,
       y <> "__proto__"%string /\
       JsObject.get (ObfusbitSchema.calculateFieldInfo schema) y = Some iy /\
       values !! y = Some vy /\
       Z.testbit (Z.shiftl vy (FieldInfo.shift iy)) i = true) ->
  x <> "__proto__"%string ->
  JsObject.get (ObfusbitSchema.calculateFieldInfo schema) x = Some info ->
  values !! x = Some v ->
  extract p info = v.
Proof.
  intros Hp Hx Hlook Hv. unfold extract.
  destruct (calculateFieldInfo_lookup schema x info schema_pos Hlook)
    as (_ & Hbits & Hshift & _).
  destruct (values_known x info Hlook) as (v' & Hv' & Hrange).
  rewrite Hv in Hv'. inversion Hv'; subst v'.
  replace (2 ^ FieldInfo.bits info - 1) with (Z.ones (FieldInfo.bits info))
    by (rewrite Z.ones_equiv; lia).
  apply Z.bits_inj'. intros i Hi.
  rewrite Z.land_spec, Z.shiftr_spec by lia.
  destruct (Z.lt_ge_cases i (FieldInfo.bits info)) as [Hlow|Hhigh].
  - rewrite Z.ones_spec_low, Bool.andb_true_r by lia.
    apply Bool.eq_true_iff_eq. rewrite (Hp (i + FieldInfo.shift info)) by lia.
    split.
    + intros (y & iy & vy & _ & Hly & Hvy & Hbit).
      rewrite Z.shiftl_spec in Hbit by lia.
      destruct (decide (y = x)) as [->|Hne].
      * assert (iy = info) by congruence. assert (vy = v) by congruence. subst iy vy.
        now replace (i + FieldInfo.shift info - FieldInfo.shift info) with i in Hbit
          by lia.
      * exfalso.
        destruct (values_known y iy Hly) as (vy' & Hvy' & Hry).
        rewrite Hvy in Hvy'. inversion Hvy'; subst vy'.
        destruct (calculateFieldInfo_disjoint schema x y info iy schema_pos
                    ltac:(congruence) Hlook Hly) as [Hd|Hd].
        -- rewrite Z.testbit_neg_r in Hbit by lia. discriminate.
        -- rewrite (testbit_above vy (FieldInfo.bits iy)) in Hbit by lia.
           discriminate.
    + intros Hbit. exists x, info, v. split; [exact Hx |].
      split; [exact Hlook |]. split; [exact Hv |].
      rewrite Z.shiftl_spec by lia.
      now replace (i + FieldInfo.shift info - FieldInfo.shift info) with i by lia.
  - rewrite Z.ones_spec_high, Bool.andb_false_r by lia.
    symmetry. now apply (testbit_above v (FieldInfo.bits info)).
Qed.

(** The bits of a field that [pack] skips are zero. *)
Lemma extract_skipped (p : Z) (x : string) (info : FieldInfo.t) :
  (forall i, 0 <= i ->
     Z.testbit p i = true <->
     exists y iy vy,
       y <> "__proto__"%string /\
       JsObject.get (ObfusbitSchema.calculateFieldInfo schema) y = Some iy /\
       values !! y = Some vy /\
       Z.testbit (Z.shiftl vy (FieldInfo.shift iy)) i = true) ->
  x = "__proto__"%string ->
  JsObject.get (ObfusbitSchema.calculateFieldInfo schema) x = Some info ->
  extract p info = 0.
Proof.
  intros Hp Hx Hlook. unfold extract.
  destruct (calculateFieldInfo_lookup schema x info schema_pos Hlook)
    as (_ & Hbits & Hshift & _).
  replace (2 ^ FieldInfo.bits info - 1) with (Z.ones (FieldInfo.bits info))
    by (rewrite Z.ones_equiv; lia).
  apply Z.bits_inj'. intros i Hi.
  rewrite Z.land_spec, Z.shiftr_spec, Z.bits_0 by lia.
  destruct (Z.lt_ge_cases i (FieldInfo.bits info)) as [Hlow|Hhigh].
  - rewrite Z.ones_spec_low, Bool.andb_true_r by lia.
    destruct (Z.testbit p (i + FieldInfo.shift info)) eqn:E; [| reflexivity].
    exfalso. apply Hp in E; [| lia].
    destruct E as (y & iy & vy & Hy & Hly & Hvy & Hbit).
    rewrite Z.shiftl_spec in Hbit by lia.
    destruct (values_known y iy Hly) as (vy' & Hvy' & Hry).
    rewrite Hvy in Hvy'. inversion Hvy'; subst vy'.
    destruct (calculateFieldInfo_disjoint schema x y info iy schema_pos
                ltac:(congruence) Hlook Hly) as [Hd|Hd].
    + rewrite Z.testbit_neg_r in Hbit by lia. discriminate.
    + rewrite (testbit_above vy (FieldInfo.bits iy)) in Hbit by lia.
      discriminate.
  - now rewrite Z.ones_spec_high, Bool.andb_false_r by lia.
Qed.

End Packer.

Lemma calculateFieldInfo_split (pre post : list FieldSchema) (f : FieldSchema) :
  NoDup (name <$> (pre ++ f :: post)) ->
  JsObject.get (ObfusbitSchema.calculateFieldInfo (pre ++ f :: post)) (name f) =
    Some {| FieldInfo.bits := bits f; FieldInfo.shift := total_bits post |}.
Proof.
  induction pre as [| g pre IH]; intros Hnd.
  - simpl app. rewrite calculateFieldInfo_cons. apply get_set_eq.
  - simpl app in *. rewrite calculateFieldInfo_cons.
    rewrite fmap_cons in Hnd. apply NoDup_cons in Hnd. destruct Hnd as [Hg Hnd].
    rewrite get_set_ne; [now apply IH |].
    intros E. apply Hg. rewrite E, fmap_app, fmap_cons.
    apply elem_of_app. right. apply list_elem_of_here.
Qed.

(** What [pack] computes for a valid record, and what [unpack] makes of
    it: the field named [__proto__], if the schema has one, is in neither. *)
Lemma pack_loop_packed (schema : list FieldSchema) (values : gmap string Z) :
  Forall (fun f => 0 < bits f) schema -> NoDup (name <$> schema) ->
  dom values = list_to_set (name <$> schema) ->
  (forall f v, f ∈ schema -> values !! name f = Some v -> 0 <= v < 2 ^ bits f) ->
  let s := {| ObfusbitSchema.__definition := schema;
              ObfusbitSchema.__totalBits := total_bits schema;
              ObfusbitSchema.__maximumValue := Z.shiftl 1 (total_bits schema) - 1;
              ObfusbitSchema.__fieldInfo := ObfusbitSchema.calculateFieldInfo schema;
              ObfusbitSchema.__fieldNames := list_to_set (map name schema) |} in
  exists p,
    Obfusbit.pack_loop s values
      (JsObject.keys (ObfusbitSchema.calculateFieldInfo schema)) 0 = Ok p /\
    Obfusbit.unpack_loop s p schema ∅ = Ok (delete "__proto__"%string values) /\
    0 <= p < 2 ^ total_bits schema /\
    (forall x info v,
       JsObject.get (ObfusbitSchema.calculateFieldInfo schema) x = Some info ->
       values !! x = Some v ->
       extract p info = if bool_decide (x = "__proto__"%string) then 0 else v).
Proof.
  intros Hpos Hnd Hdom Hrange s. subst s.
  destruct (pack_loop_spec schema Hpos Hnd values Hdom Hrange
              (JsObject.keys (ObfusbitSchema.calculateFieldInfo schema)) 0)
    as (p & Hrun & Hp).
  { intros x Hx. apply calculateFieldInfo_keys in Hx. tauto. }
  assert (Hbits : forall i, 0 <= i ->
            Z.testbit p i = true <->
            exists y iy vy,
              y <> "__proto__"%string /\
              JsObject.get (ObfusbitSchema.calculateFieldInfo schema) y = Some iy /\
              values !! y = Some vy /\
              Z.testbit (Z.shiftl vy (FieldInfo.shift iy)) i = true).
  { intros i Hi. rewrite (Hp i Hi), Z.testbit_0_l. split.
    - intros [Hfalse | (y & iy & vy & Hy & Hrest)]; [discriminate |].
      apply calculateFieldInfo_keys in Hy. destruct Hy as [Hy _].
      exists y, iy, vy. split; [exact Hy | exact Hrest].
    - intros (y & iy & vy & Hy & Hly & Hvy & Hbit). right. exists y, iy, vy.
      split; [| auto].
      apply calculateFieldInfo_keys. split; [exact Hy | eauto]. }
  exists p. split; [exact Hrun |]. split.
  - destruct (unpack_loop_spec schema Hpos Hnd p schema ∅ ltac:(auto))
      as (m & Hunpack & Hm).
    rewrite Hunpack. f_equal.
    apply map_eq. intros x. rewrite Hm.
    destruct (decide (x ∈ (name <$> schema) /\ x <> "__proto__"%string))
      as [[Hin Hx] | Hnin].
    + rewrite lookup_delete_ne by congruence.
      apply list_elem_of_fmap in Hin. destruct Hin as (f & -> & Hf).
      destruct (calculateFieldInfo_field schema f Hnd Hf) as (info & Hlook & _).
      destruct (values_known schema Hpos Hnd values Hdom Hrange _ _ Hlook)
        as (v & Hv & _).
      rewrite Hlook, Hv. simpl. f_equal.
      now apply (extract_packed schema Hpos Hnd values Hdom Hrange p (name f)).
    + rewrite lookup_empty. symmetry.
      destruct (decide (x = "__proto__"%string)) as [-> | Hx];
        [apply lookup_delete_eq |].
      rewrite lookup_delete_ne by congruence. apply not_elem_of_dom.
      rewrite Hdom, elem_of_list_to_set. intros Hin. apply Hnin. now split.
  - pose proof (total_bits_nonneg schema Hpos) as Htotal.
    assert (Hhigh : forall i, total_bits schema <= i -> Z.testbit p i = false).
    { intros i Hi. destruct (Z.testbit p i) eqn:E; [| reflexivity].
      apply Hbits in E; [| lia]. destruct E as (y & iy & vy & _ & Hly & Hvy & Hbit).
      destruct (calculateFieldInfo_lookup schema y iy Hpos Hly)
        as (_ & Hb & Hsh & Hfit).
      destruct (values_known schema Hpos Hnd values Hdom Hrange _ _ Hly)
        as (v & Hv & Hvr).
      assert (v = vy) by congruence. subst v.
      rewrite Z.shiftl_spec in Hbit by lia.
      rewrite (testbit_above vy (FieldInfo.bits iy)) in Hbit by lia. discriminate. }
    assert (Hnonneg : 0 <= p).
    { apply Z.bits_iff_nonneg_ex. exists (total_bits schema).
      intros i Hi. apply Hhigh. lia. }
    split; [split; [exact Hnonneg |] |].
    + apply (Z.bounded_iff_bits_nonneg (total_bits schema) p Htotal Hnonneg).
      exact Hhigh.
    + intros x info v Hlook Hv.
      destruct (bool_decide (x = "__proto__"%string)) eqn:Ex.
      * apply bool_decide_eq_true_1 in Ex.
        now apply (extract_skipped schema Hpos Hnd values Hdom Hrange p x).
      * apply bool_decide_eq_false_1 in Ex.
        now apply (extract_packed schema Hpos Hnd values Hdom Hrange p x).
Qed.







(** * Further properties of the arithmetic helpers *)

(** X1. [gcd(a, b)] terminates (twice the bit length of [b] iterations are
    enough) and returns the greatest common divisor of [a] and [b]: a
    non-negative common divisor that every common divisor divides, for
    arguments of either sign; it is [0] only for [gcd(0, 0)]. *)
Theorem gcd_greatest_common_divisor (budget : nat) (a b : Z) :
  2 * (Z.log2 (Z.abs b) + 1) <= Z.of_nat budget ->
  exists g,
    gcd budget a b = Ok g /\ 0 <= g /\ (g | a) /\ (g | b) /\
    (forall d, (d | a) -> (d | b) -> (d | g)) /\
    (g = 0 <-> a = 0 /\ b = 0).
Proof.
  intros Hb. exists (Z.gcd a b). split; [now apply gcd_correct |].
  split; [apply Z.gcd_nonneg |].
  split; [apply Z.gcd_divide_l |]. split; [apply Z.gcd_divide_r |].
  split; [intros d; apply Z.gcd_greatest | apply Z.gcd_eq_0].
Qed.

Lemma gcd_greatest_common_divisor_witness :
  exists g,
    gcd 20 (-1071) 462 = Ok g /\ 0 <= g /\ (g | -1071) /\ (g | 462) /\
    (forall d, (d | -1071) -> (d | 462) -> (d | g)) /\
    (g = 0 <-> -1071 = 0 /\ 462 = 0).
Proof. apply (gcd_greatest_common_divisor 20 (-1071) 462). vm_compute; discriminate. Defined.

(** X2. [divmod(a, b)] is floored division, as Python's [divmod]: for a
    non-zero divisor it returns the pair [(q, r)] with [a = q*b + r] whose
    remainder is zero or has the sign of the divisor, [0 <= r < b] or
    [b < r <= 0]; a zero divisor is a RangeError. *)
Theorem divmod_floor (a b : Z) :
  b <> 0 ->
  (exists q r,
     divmod a b = Ok (q, r) /\ a = q * b + r /\
     (0 <= r < b \/ b < r <= 0) /\ q = a / b /\ r = a mod b) /\
  divmod a 0 = Throw JsRangeError.
Proof.
  intros Hb. split; [| reflexivity].
  assert (Hex : exists q r,
             divmod a b = Ok (q, r) /\ a = q * b + r /\
             (0 <= r < b \/ b < r <= 0)).
  { unfold divmod. destruct (b =? 0) eqn:E; [lia |].
    pose proof (Z.quot_rem' a b) as Hqr.
    pose proof (Z.rem_bound_abs a b Hb) as Habs.
    destruct (negb (Z.rem a b =? 0) &&
              ((Z.rem a b <? 0) && (0 <? b) || (0 <? Z.rem a b) && (b <? 0)))
      eqn:Hadj.
    - exists (Z.quot a b - 1), (Z.rem a b + b). split; [reflexivity |]. lia.
    - exists (Z.quot a b), (Z.rem a b). split; [reflexivity |].
      split; [lia |].
      destruct (Z.rem a b =? 0) eqn:E0; [lia |]. simpl in Hadj.
      destruct (Z.rem a b <? 0) eqn:E1, (0 <? b) eqn:E2,
               (0 <? Z.rem a b) eqn:E3, (b <? 0) eqn:E4;
        simpl in Hadj; try discriminate; lia. }
  destruct Hex as (q & r & Hd & Heq & Hr). exists q, r.
  repeat split; try assumption.
  - apply (Z.div_unique a b q r); [lia | lia].
  - apply (Z.mod_unique a b q r); [lia | lia].
Qed.

Lemma divmod_floor_witness :
  (exists q r,
     divmod (-7) 2 = Ok (q, r) /\ -7 = q * 2 + r /\
     (0 <= r < 2 \/ 2 < r <= 0) /\ q = -7 / 2 /\ r = -7 mod 2) /\
  divmod (-7) 0 = Throw JsRangeError.
Proof. apply (divmod_floor (-7) 2). lia. Defined.

(** X3. [getBitLength(n)] of a BigInt: a negative [n] is a ValueError,
    [0] has length [0], and a positive [n] has the length [l] with
    [2^(l-1) <= n < 2^l]. *)
Theorem getBitLength_bounds (n : Z) :
  (n < 0 /\ getBitLength n = Throw ValueError) \/
  (n = 0 /\ getBitLength n = Ok 0) \/
  (0 < n /\ exists l, getBitLength n = Ok l /\ 0 < l /\ 2 ^ (l - 1) <= n < 2 ^ l).
Proof.
  destruct n as [| p | p].
  - right; left. split; reflexivity.
  - right; right. split; [lia |]. exists (Z.log2 (Z.pos p) + 1).
    split; [apply getBitLength_pos; lia |].
    pose proof (Z.log2_nonneg (Z.pos p)).
    pose proof (Z.log2_spec (Z.pos p) ltac:(lia)) as Hs. unfold Z.succ in Hs.
    replace (Z.log2 (Z.pos p) + 1 - 1) with (Z.log2 (Z.pos p)) by lia. lia.
  - left. split; [lia | reflexivity].
Qed.

(** ** Square-and-multiply *)

Lemma rem_mod_cong (a m : Z) : m <> 0 -> Z.rem a m mod m = a mod m.
Proof.
  intros Hm. rewrite (Z.rem_eq a m Hm).
  replace (a - m * Z.quot a m) with (a + (- Z.quot a m) * m) by ring.
  now apply Z.mod_add.
Qed.

Lemma pow_split (c e : Z) : 0 <= e -> c ^ e = (c * c) ^ (e / 2) * c ^ (e mod 2).
Proof.
  intros He. pose proof (Z.div_mod e 2 ltac:(lia)) as Hd.
  pose proof (Z.mod_pos_bound e 2 ltac:(lia)).
  assert (0 <= e / 2) by (apply Z.div_pos; lia).
  rewrite Hd at 1. rewrite Z.pow_add_r, Z.pow_mul_r by lia.
  now rewrite Z.pow_2_r.
Qed.

Lemma pow_loop_exact (fuel : nat) (r c e : Z) :
  0 <= e < 2 ^ Z.of_nat fuel -> pow_loop fuel None r c e = Ok (r * c ^ e).
Proof.
  revert r c e. induction fuel as [| fuel IH]; intros r c e He.
  - assert (e = 0) by (simpl in He; lia). subst e. simpl. f_equal. ring.
  - cbn [pow_loop]. destruct (0 <? e) eqn:E.
    + rewrite Nat2Z.inj_succ, Z.pow_succ_r in He by lia.
      rewrite quot_nonneg, rem_nonneg by lia.
      pose proof (Z.mod_pos_bound e 2 ltac:(lia)).
      rewrite IH by (split; [apply Z.div_pos; lia | apply Z.div_lt_upper_bound; lia]).
      f_equal. rewrite (pow_split c e) by lia.
      destruct (e mod 2 =? 1) eqn:E1.
      * replace (e mod 2) with 1 by lia. ring.
      * replace (e mod 2) with 0 by lia. ring.
    + assert (e = 0) by lia. subst e. f_equal. ring.
Qed.

Lemma pow_loop_modular (fuel : nat) (m r c e : Z) :
  m <> 0 -> 0 <= e < 2 ^ Z.of_nat fuel ->
  exists r',
    pow_loop fuel (Some m) r c e = Ok r' /\
    r' mod m = (r * c ^ e) mod m /\
    (Z.abs r < Z.abs m \/ 0 < e -> Z.abs r' < Z.abs m).
Proof.
  intros Hm. revert r c e. induction fuel as [| fuel IH]; intros r c e He.
  - assert (e = 0) by (simpl in He; lia). subst e. exists r. simpl.
    split; [reflexivity |]. split; [f_equal; ring | lia].
  - cbn [pow_loop]. destruct (0 <? e) eqn:E.
    + rewrite Nat2Z.inj_succ, Z.pow_succ_r in He by lia.
      rewrite quot_nonneg, rem_nonneg by lia.
      pose proof (Z.mod_pos_bound e 2 ltac:(lia)) as Hbit.
      set (r1 := if e mod 2 =? 1 then Z.rem (r * c) m else r).
      destruct (IH r1 (Z.rem (c * c) m) (e / 2)) as (r' & Hl & Hc & Hs).
      { split; [apply Z.div_pos; lia | apply Z.div_lt_upper_bound; lia]. }
      exists r'. split; [exact Hl |]. split.
      * rewrite Hc, (pow_split c e) by lia.
        rewrite <- Z.mul_mod_idemp_r by assumption.
        rewrite <- (Z.mod_pow_l (Z.rem (c * c) m)), rem_mod_cong by assumption.
        rewrite Z.mod_pow_l, Z.mul_mod_idemp_r by assumption.
        subst r1. destruct (e mod 2 =? 1) eqn:E1.
        -- replace (e mod 2) with 1 by lia.
           rewrite <- Z.mul_mod_idemp_l, rem_mod_cong, Z.mul_mod_idemp_l by assumption.
           f_equal. ring.
        -- replace (e mod 2) with 0 by lia. f_equal. ring.
      * intros _. apply Hs.
        destruct (Z.eq_dec (e / 2) 0) as [E0 | E0]; [left | right].
        -- subst r1. replace (e mod 2 =? 1) with true
             by (pose proof (Z.div_mod e 2 ltac:(lia)); lia).
           now apply Z.rem_bound_abs.
        -- assert (0 <= e / 2) by (apply Z.div_pos; lia). lia.
    + assert (e = 0) by lia. subst e. exists r.
      split; [reflexivity |]. split; [f_equal; ring | lia].
Qed.

Lemma log2_budget (e : Z) (budget : nat) :
  0 <= e -> Z.log2 e < Z.of_nat budget -> e < 2 ^ Z.of_nat budget.
Proof.
  intros He Hb. destruct (Z.eq_dec e 0) as [-> | Hne].
  - apply Z.pow_pos_nonneg; lia.
  - pose proof (Z.log2_spec e ltac:(lia)) as Hs. unfold Z.succ in Hs.
    assert (2 ^ (Z.log2 e + 1) <= 2 ^ Z.of_nat budget)
      by (apply Z.pow_le_mono_r; lia).
    lia.
Qed.

Lemma pow_modular_correct (budget : nat) (b e m : Z) :
  0 < e -> m <> 0 -> Z.log2 e < Z.of_nat budget ->
  pow budget b e (Some m) = Ok (b ^ e mod m).
Proof.
  intros He Hm Hb. unfold pow.
  destruct (e <? 0) eqn:E1; [lia |].
  destruct (m =? 0) eqn:E2; [lia |].
  destruct (e =? 0) eqn:E3; [lia |].
  destruct (b =? 0) eqn:E4.
  { assert (b = 0) by lia. subst b. now rewrite Z.pow_0_l, Zmod_0_l by lia. }
  destruct (m =? 1) eqn:E5.
  { assert (m = 1) by lia. subst m. now rewrite Z.mod_1_r. }
  destruct (pow_loop_modular budget m 1 (Z.rem (Z.rem b m + m) m) e Hm)
    as (r & Hl & Hc & Hs).
  { split; [lia | apply log2_budget; lia]. }
  rewrite Hl. cbn. f_equal.
  specialize (Hs (or_intror He)).
  rewrite Z.mul_1_l in Hc.
  assert (Hbase : Z.rem (Z.rem b m + m) m mod m = b mod m).
  { rewrite rem_mod_cong by assumption.
    replace (Z.rem b m + m) with (Z.rem b m + 1 * m) by ring.
    rewrite Z.mod_add by assumption. now apply rem_mod_cong. }
  rewrite <- Z.mod_pow_l, Hbase, Z.mod_pow_l in Hc. rewrite <- Hc.
  pose proof (Z.rem_bound_abs (r + m) m Hm) as Ha.
  pose proof (Z.quot_rem' (r + m) m) as Hq.
  apply (Z.mod_unique r m (Z.quot (r + m) m - 1) (Z.rem (r + m) m)).
  - pose proof (Z.rem_sign_mul (r + m) m Hm) as Hsgn. nia.
  - lia.
Qed.

(** X4. Modular [pow(base, exponent, modulus)] with a positive exponent and
    a non-zero modulus terminates (one iteration per bit of the exponent)
    and returns the floored residue [base^exponent mod modulus], which lies
    in [[0, modulus)] for a positive modulus, whatever the sign of the base.
    Exponent [0] gives [1] ([0] for modulus [1]).  A negative exponent is a
    NegativeValueError, with any modulus or none, and modulus [0] with any
    non-negative exponent, [0] included, is a ValueError. *)
Theorem pow_modular (budget : nat) (b e m : Z) :
  0 < e -> m <> 0 -> Z.log2 e < Z.of_nat budget ->
  pow budget b e (Some m) = Ok (b ^ e mod m) /\
  pow budget b 0 (Some m) = Ok (if m =? 1 then 0 else 1) /\
  (forall b' e' modulus, e' < 0 ->
     pow budget b' e' modulus = Throw NegativeValueError) /\
  (forall b' e', 0 <= e' -> pow budget b' e' (Some 0) = Throw ValueError).
Proof.
  intros He Hm Hb. split; [now apply pow_modular_correct |].
  unfold pow. replace (m =? 0) with false by lia.
  split; [reflexivity |]. split.
  - intros b' e' modulus He'. now replace (e' <? 0) with true by lia.
  - intros b' e' He'. now replace (e' <? 0) with false by lia.
Qed.

Lemma pow_modular_witness :
  pow 2 (-7) 3 (Some 5) = Ok ((-7) ^ 3 mod 5) /\
  pow 2 (-7) 0 (Some 5) = Ok (if 5 =? 1 then 0 else 1) /\
  (forall b' e' modulus, e' < 0 ->
     pow 2 b' e' modulus = Throw NegativeValueError) /\
  (forall b' e', 0 <= e' -> pow 2 b' e' (Some 0) = Throw ValueError).
Proof. apply (pow_modular 2 (-7) 3 5); [lia | lia | vm_compute; reflexivity]. Defined.

(** X5. [pow(base, exponent)] without a modulus terminates (one iteration
    per bit of the exponent) and returns [base^exponent] exactly, for every
    base and every non-negative exponent; [pow(0, 0)] is [1]. *)
Theorem pow_exact (budget : nat) (b e : Z) :
  0 <= e -> Z.log2 e < Z.of_nat budget ->
  pow budget b e None = Ok (b ^ e).
Proof.
  intros He Hb. unfold pow. replace (e <? 0) with false by lia. cbn match.
  destruct (e =? 0) eqn:E0.
  { assert (e = 0) by lia. now subst e. }
  destruct (b =? 0) eqn:E1.
  { assert (b = 0) by lia. subst b. now rewrite Z.pow_0_l by lia. }
  rewrite pow_loop_exact by (split; [lia | now apply log2_budget]).
  cbn. f_equal. ring.
Qed.

Lemma pow_exact_witness : pow 4 (-3) 11 None = Ok ((-3) ^ 11).
Proof. apply (pow_exact 4 (-3) 11); [lia | vm_compute; reflexivity]. Defined.

(** ** The Miller-Rabin decomposition *)

Lemma factor_loop_correct (fuel : nat) (s d : Z) :
  0 <= s -> 0 < d < 2 ^ Z.of_nat fuel ->
  exists s' d',
    factor_loop fuel s d = Ok (s', d') /\
    0 <= s' /\ 0 < d' /\ Z.odd d' = true /\ 2 ^ s * d = 2 ^ s' * d'.
Proof.
  revert s d. induction fuel as [| fuel IH]; intros s d Hs Hd.
  - simpl in Hd. lia.
  - cbn [factor_loop]. rewrite rem_nonneg by lia.
    pose proof (Z.div_mod d 2 ltac:(lia)) as Hdm.
    pose proof (Z.mod_pos_bound d 2 ltac:(lia)) as Hbit.
    destruct (d mod 2 =? 0) eqn:E.
    + rewrite Nat2Z.inj_succ, Z.pow_succ_r in Hd by lia.
      rewrite quot_nonneg by lia.
      destruct (IH (s + 1) (d / 2)) as (s' & d' & Hl & Hs' & Hd' & Hodd & Heq);
        [lia | lia |].
      exists s', d'. repeat split; try assumption.
      rewrite <- Heq, Z.pow_add_r by lia. lia.
    + exists s, d. repeat split; try lia.
      apply Z.odd_spec. exists (d / 2). lia.
Qed.

Lemma factor_correct (budget : nat) (n : Z) :
  1 < n -> Z.log2 (n - 1) < Z.of_nat budget ->
  exists s d,
    factor budget n = Ok (s, d) /\
    0 <= s /\ 0 < d /\ Z.odd d = true /\ n - 1 = 2 ^ s * d.
Proof.
  intros Hn Hb. unfold factor. replace (n <=? 1) with false by lia.
  destruct (factor_loop_correct budget 0 (n - 1)) as (s & d & Hl & H)
    ; [lia | split; [lia | apply log2_budget; lia] |].
  exists s, d. split; [exact Hl |]. rewrite Z.pow_0_r, Z.mul_1_l in H. exact H.
Qed.

Lemma two_adic_unique (s d s' d' : Z) :
  0 <= s -> 0 <= s' -> Z.odd d = true -> Z.odd d' = true ->
  2 ^ s * d = 2 ^ s' * d' -> s' = s /\ d' = d.
Proof.
  intros Hs Hs' Hodd Hodd' Heq.
  assert (Hval : forall t u i, 0 <= i < t -> Z.testbit (2 ^ t * u) i = false).
  { intros t u i Hi. rewrite Z.mul_comm, Z.mul_pow2_bits_low; [reflexivity | lia]. }
  assert (Hbit : forall t u, 0 <= t -> Z.odd u = true ->
            Z.testbit (2 ^ t * u) t = true).
  { intros t u Ht Hu. rewrite Z.mul_comm, Z.mul_pow2_bits by lia.
    rewrite Z.sub_diag. now rewrite Z.bit0_odd. }
  assert (s' = s) as ->.
  { destruct (Z.lt_trichotomy s' s) as [Hlt | [E | Hgt]]; [| exact E |].
    - pose proof (Hbit s' d' Hs' Hodd') as H1.
      rewrite <- Heq, (Hval s d s') in H1 by lia. discriminate.
    - pose proof (Hbit s d Hs Hodd) as H1.
      rewrite Heq, (Hval s' d' s) in H1 by lia. discriminate. }
  split; [reflexivity |].
  assert (0 < 2 ^ s) by (apply Z.pow_pos_nonneg; lia).
  apply (Z.mul_cancel_l d' d (2 ^ s)); lia.
Qed.

(** X6. [factor(n)] for [n > 1] terminates (one iteration per bit of
    [n - 1]) and returns the pair [(s, d)] with [n - 1 = 2^s * d] and [d]
    odd, which is the only such pair; every [n <= 1], so 1, 0 and the
    negative numbers, is a ValueError. *)
Theorem factor_decomposition (budget : nat) (n : Z) :
  1 < n -> Z.log2 (n - 1) < Z.of_nat budget ->
  (exists s d,
     factor budget n = Ok (s, d) /\
     0 <= s /\ 0 < d /\ Z.odd d = true /\ n - 1 = 2 ^ s * d /\
     forall s' d', 0 <= s' -> Z.odd d' = true -> n - 1 = 2 ^ s' * d' ->
       s' = s /\ d' = d) /\
  (forall n', n' <= 1 -> factor budget n' = Throw ValueError).
Proof.
  intros Hn Hb. split.
  2: { intros n' Hn'. unfold factor. now replace (n' <=? 1) with true by lia. }
  destruct (factor_correct budget n Hn Hb) as (s & d & Hf & Hs & Hd & Hodd & Heq).
  exists s, d. do 4 (split; [assumption |]). split; [assumption |].
  intros s' d' Hs' Hodd' Heq'.
  apply (two_adic_unique s d s' d'); try assumption. now rewrite <- Heq, <- Heq'.
Qed.

Lemma factor_decomposition_witness :
  (exists s d,
     factor 7 97 = Ok (s, d) /\
     0 <= s /\ 0 < d /\ Z.odd d = true /\ 97 - 1 = 2 ^ s * d /\
     forall s' d', 0 <= s' -> Z.odd d' = true -> 97 - 1 = 2 ^ s' * d' ->
       s' = s /\ d' = d) /\
  (forall n', n' <= 1 -> factor 7 n' = Throw ValueError).
Proof. apply (factor_decomposition 7 97); [lia | vm_compute; reflexivity]. Defined.

(** ** The strong pseudoprime test *)

Lemma square_chain (x n j : Z) :
  0 <= j -> (x ^ 2 mod n) ^ (2 ^ j) mod n = x ^ (2 ^ (j + 1)) mod n.
Proof.
  intros Hj. rewrite Z.mod_pow_l.
  assert (0 <= 2 ^ j) by (apply Z.pow_nonneg; lia).
  rewrite <- Z.pow_mul_r by lia.
  now rewrite Z.pow_add_r, Z.pow_1_r, (Z.mul_comm (2 ^ j)) by lia.
Qed.

Lemma isStrongPseudoprime_loop_correct (budget fuel : nat) (n s i x : Z) :
  (2 <= budget)%nat -> 3 <= n -> 0 <= i <= s -> s - i <= Z.of_nat fuel ->
  exists b,
    isStrongPseudoprime_loop budget fuel n s i x = Ok b /\
    (b = true <-> exists j, 1 <= j <= s - i /\ x ^ (2 ^ j) mod n = n - 1).
Proof.
  intros Hb Hn. revert i x.
  induction fuel as [| fuel IH]; intros i x Hi Hf.
  - assert (i = s) by lia. subst i. exists false. simpl.
    replace (s <? s) with false by lia.
    split; [reflexivity |]. split; [discriminate | intros (j & Hj & _); lia].
  - cbn [isStrongPseudoprime_loop]. destruct (i <? s) eqn:E.
    2: { exists false. split; [reflexivity |].
         split; [discriminate | intros (j & Hj & _); lia]. }
    rewrite (pow_modular_correct budget x 2 n) by (try lia; simpl; lia).
    rewrite bind_Ok_l.
    destruct (x ^ 2 mod n =? n - 1) eqn:E1.
    { exists true. split; [reflexivity |]. split; [| reflexivity].
      intros _. exists 1. split; [lia |]. rewrite Z.pow_1_r. lia. }
    destruct (x ^ 2 mod n =? 1) eqn:E2.
    { exists false. split; [reflexivity |]. split; [discriminate |].
      intros (j & Hj & Hx). exfalso.
      replace j with (j - 1 + 1) in Hx by lia.
      rewrite <- square_chain in Hx by lia.
      replace (x ^ 2 mod n) with 1 in Hx by lia.
      rewrite Z.pow_1_l, Z.mod_1_l in Hx by (try apply Z.pow_nonneg; lia). lia. }
    destruct (IH (i + 1) (x ^ 2 mod n)) as (b & Hl & Hiff); [lia | lia |].
    exists b. split; [exact Hl |]. rewrite Hiff. split.
    + intros (j & Hj & Hx). exists (j + 1). split; [lia |].
      rewrite <- Hx. symmetry. apply square_chain. lia.
    + intros (j & Hj & Hx). exists (j - 1).
      assert (j <> 1).
      { intros ->. rewrite Z.pow_1_r in Hx. lia. }
      split; [lia |]. rewrite square_chain by lia.
      now replace (j - 1 + 1) with j by lia.
Qed.

Lemma isStrongPseudoprime_correct (budget : nat) (n base : Z) :
  3 <= n -> Z.odd n = true -> Z.log2 n < Z.of_nat budget ->
  exists s d b,
    0 <= s /\ Z.odd d = true /\ n - 1 = 2 ^ s * d /\
    isStrongPseudoprime budget n base = Ok b /\
    (b = true <->
     base ^ d mod n = 1 \/
     exists r, 0 <= r <= s /\ base ^ (2 ^ r * d) mod n = n - 1).
Proof.
  intros Hn Hodd Hb.
  assert (Hmod : n mod 2 = 1).
  { apply Z.odd_spec in Hodd. destruct Hodd as [k ->].
    rewrite Z.mul_comm, Z.add_comm, Z.mod_add by lia. reflexivity. }
  assert (Hlog : Z.log2 (n - 1) <= Z.log2 n) by (apply Z.log2_le_mono; lia).
  destruct (factor_correct budget n) as (s & d & Hf & Hs & Hd & Hdodd & Heq);
    [lia | lia |].
  assert (Hpow : 0 < 2 ^ s) by (apply Z.pow_pos_nonneg; lia).
  assert (Hdn : d <= n - 1) by nia.
  assert (Hsb : s <= Z.log2 n).
  { apply Z.log2_le_pow2; [lia | nia]. }
  assert (Hx0 : pow budget base d (Some n) = Ok (base ^ d mod n)).
  { apply pow_modular_correct; [lia | lia |].
    pose proof (Z.log2_le_mono d n ltac:(lia)). lia. }
  assert (H1 : 1 <= Z.log2 n) by (apply (Z.log2_le_pow2 n 1); lia).
  unfold isStrongPseudoprime. rewrite land_1, Hmod by lia. cbn [Z.eqb Pos.eqb].
  replace (n =? 1) with false by lia.
  rewrite Hf, bind_Ok_l. cbn match. rewrite Hx0, bind_Ok_l.
  destruct ((base ^ d mod n =? 1) || (base ^ d mod n =? n - 1)) eqn:E.
  - exists s, d, true. do 3 (split; [assumption |]). split; [reflexivity |].
    split; [| reflexivity]. intros _.
    apply orb_true_iff in E. destruct E as [E | E]; [left; lia | right].
    exists 0. split; [lia |]. rewrite Z.pow_0_r, Z.mul_1_l. lia.
  - apply orb_false_iff in E. destruct E as [E1 E2].
    destruct (isStrongPseudoprime_loop_correct budget budget n s 0 (base ^ d mod n))
      as (b & Hl & Hiff); [lia | lia | lia | lia |].
    assert (Hchain : forall j, 0 <= j ->
              (base ^ d mod n) ^ (2 ^ j) mod n = base ^ (2 ^ j * d) mod n).
    { intros j Hj. rewrite Z.mod_pow_l.
      assert (0 <= 2 ^ j) by (apply Z.pow_nonneg; lia).
      now rewrite <- Z.pow_mul_r, (Z.mul_comm d) by lia. }
    exists s, d, b. do 3 (split; [assumption |]). split; [exact Hl |].
    rewrite Hiff. split.
    + intros (j & Hj & Hx). right. exists j. split; [lia |].
      now rewrite <- Hchain by lia.
    + intros [H | (r & Hr & Hx)]; [lia |].
      assert (r <> 0).
      { intros ->. rewrite Z.pow_0_r, Z.mul_1_l in Hx. lia. }
      exists r. split; [lia |]. now rewrite Hchain by lia.
Qed.

Lemma land_1_mod (n : Z) : Z.land n 1 = n mod 2.
Proof. change 1 with (Z.ones 1) at 1. now rewrite Z.land_ones by lia. Qed.

(** X7. For an odd [n >= 3], [isStrongPseudoprime(n, base)] terminates and,
    with [n - 1 = 2^s * d], [d] odd, returns [true] exactly when
    [base^d mod n = 1] or [base^(2^r * d) mod n = n - 1] for some [r] with
    [0 <= r <= s]: the Miller-Rabin condition, with the squaring loop run
    for [s] rounds (so that [r = s] is tested as well).  Every even [n],
    zero and the negative ones included, and [n = 1] are rejected without
    computation; a negative odd [n] is the ValueError of [factor]. *)
Theorem isStrongPseudoprime_condition (budget : nat) (n base : Z) :
  3 <= n -> Z.odd n = true -> Z.log2 n < Z.of_nat budget ->
  (exists s d b,
     0 <= s /\ Z.odd d = true /\ n - 1 = 2 ^ s * d /\
     isStrongPseudoprime budget n base = Ok b /\
     (b = true <->
      base ^ d mod n = 1 \/
      exists r, 0 <= r <= s /\ base ^ (2 ^ r * d) mod n = n - 1)) /\
  (forall n' base', Z.even n' = true \/ n' = 1 ->
     isStrongPseudoprime budget n' base' = Ok false) /\
  (forall n' base', Z.odd n' = true -> n' < 0 ->
     isStrongPseudoprime budget n' base' = Throw ValueError).
Proof.
  intros Hn Hodd Hb. split; [now apply isStrongPseudoprime_correct |]. split.
  - intros n' base' [Heven | ->]; [| reflexivity].
    unfold isStrongPseudoprime. rewrite land_1_mod.
    rewrite Zmod_even, Heven. reflexivity.
  - intros n' base' Hodd' Hneg.
    unfold isStrongPseudoprime, factor. rewrite land_1_mod.
    rewrite Zmod_odd, Hodd'. cbn [Z.eqb Pos.eqb].
    replace (n' =? 1) with false by lia.
    now replace (n' <=? 1) with true by lia.
Qed.

Lemma isStrongPseudoprime_condition_witness :
  (exists s d b,
     0 <= s /\ Z.odd d = true /\ 2047 - 1 = 2 ^ s * d /\
     isStrongPseudoprime 11 2047 2 = Ok b /\
     (b = true <->
      2 ^ d mod 2047 = 1 \/
      exists r, 0 <= r <= s /\ 2 ^ (2 ^ r * d) mod 2047 = 2047 - 1)) /\
  (forall n' base', Z.even n' = true \/ n' = 1 ->
     isStrongPseudoprime 11 n' base' = Ok false) /\
  (forall n' base', Z.odd n' = true -> n' < 0 ->
     isStrongPseudoprime 11 n' base' = Throw ValueError).
Proof.
  apply (isStrongPseudoprime_condition 11 2047 2);
    [lia | reflexivity | vm_compute; reflexivity].
Defined.

(** ** Primality testing *)

(** X8. [trialDivision(n)] terminates for every BigInt [n] (the loop runs
    over the odd numbers up to [isqrt(n)]) and returns [true] exactly when
    [n] is prime; in particular it is [false] for every [n <= 1]. *)
Theorem trialDivision_exact (budget : nat) (n : Z) :
  Z.log2 n <= Z.of_nat budget -> Z.sqrt n < Z.of_nat budget ->
  exists b,
    trialDivision budget n = Ok b /\ (b = true <-> Z.prime n) /\
    (n <= 1 -> b = false).
Proof.
  intros Hl Hs. destruct (trialDivision_correct budget n Hl Hs) as (b & Hrun & Hiff).
  exists b. split; [exact Hrun |]. split; [exact Hiff |].
  intros Hn. destruct b; [| reflexivity].
  destruct (proj1 Hiff eq_refl) as [H _]. lia.
Qed.

Lemma trialDivision_exact_witness :
  exists b,
    trialDivision 12 97 = Ok b /\ (b = true <-> Z.prime 97) /\
    (97 <= 1 -> b = false).
Proof. apply (trialDivision_exact 12 97); vm_compute; [discriminate | reflexivity]. Defined.

(** X9. Below the 2,000,000 threshold [isPrime] is exact: for every BigInt
    [n < 2000000], negative ones included, it terminates and returns [true]
    exactly when [n] is prime. *)
Theorem isPrime_exact_below_threshold (budget : nat) (n : Z) :
  1415 <= Z.of_nat budget -> n < 2000000 ->
  exists b, isPrime budget n = Ok b /\ (b = true <-> Z.prime n).
Proof. apply isPrime_correct. Qed.

Lemma isPrime_exact_below_threshold_witness :
  exists b, isPrime 1415 1999993 = Ok b /\ (b = true <-> Z.prime 1999993).
Proof. apply (isPrime_exact_below_threshold 1415 1999993); [vm_compute; discriminate | lia]. Defined.

(** X10. Whatever its size, a number that [isPrime] accepts has no factor
    among 2, 3, 5, 7, 11, 13, 17 other than itself. *)
Theorem isPrime_rejects_small_factors (budget : nat) (n p : Z) :
  (38 <= budget)%nat -> isPrime budget n = Ok true ->
  p ∈ [2; 3; 5; 7; 11; 13; 17] -> (p | n) -> n = p.
Proof.
  intros Hb Hrun Hp Hdiv. unfold isPrime, isPrime_at in Hrun.
  assert (Hp1 : 1 < p /\ (p | 510510)).
  { apply list_elem_of_In in Hp. simpl in Hp.
    split; [lia |]. apply Z.mod_divide; [lia |].
    repeat (destruct Hp as [<- | Hp]; [reflexivity |]). destruct Hp. }
  destruct Hp1 as [Hp1 Hp510].
  destruct (Z.ltb_spec n 2) as [Hlt | Hge]; [discriminate |].
  assert (Hle : p <= n) by (apply Z.divide_pos_le; [lia | exact Hdiv]).
  destruct (Z.eqb_spec n 2) as [-> | Hn2]; [lia |].
  destruct (Z.eqb_spec n 3) as [-> | Hn3].
  { apply Z.mod_divide in Hdiv; [| lia].
    assert (p = 2 \/ p = 3) as [-> | ->] by lia; [discriminate | reflexivity]. }
  destruct (Z.eqb_spec n 5) as [-> | Hn5].
  { apply Z.mod_divide in Hdiv; [| lia].
    assert (p = 2 \/ p = 3 \/ p = 4 \/ p = 5) as [-> | [-> | [-> | ->]]] by lia;
      try discriminate; reflexivity. }
  cbn [orb] in Hrun.
  destruct (Z.eqb_spec (Z.rem n 2) 0) as [H2 | H2]; [discriminate |].
  destruct (Z.eqb_spec (Z.rem n 3) 0) as [H3 | H3]; [discriminate |].
  destruct (Z.eqb_spec (Z.rem n 5) 0) as [H5 | H5]; [discriminate |].
  cbn [orb] in Hrun. rewrite gcd_510510, bind_Ok_l in Hrun by lia.
  destruct (Z.ltb_spec 1 (Z.gcd n 510510)) as [Hg | Hg].
  - cbn in Hrun. injection Hrun as Hrun. apply bool_decide_eq_true in Hrun.
    apply list_elem_of_In in Hrun, Hp. simpl in Hrun, Hp.
    apply Z.mod_divide in Hdiv; [| lia].
    assert (Hcase : n = 7 \/ n = 11 \/ n = 13 \/ n = 17) by lia.
    assert (Hpc : p = 2 \/ p = 3 \/ p = 5 \/ p = 7 \/ p = 11 \/ p = 13 \/ p = 17)
      by lia.
    clear - Hcase Hpc Hdiv.
    destruct Hcase as [-> | [-> | [-> | ->]]];
      destruct Hpc as [-> | [-> | [-> | [-> | [-> | [-> | ->]]]]]];
      first [reflexivity | discriminate].
  - exfalso. pose proof (Z.gcd_greatest n 510510 p Hdiv Hp510) as Hpg.
    pose proof (Z.gcd_nonneg n 510510).
    assert (Z.gcd n 510510 <> 0) by (rewrite Z.gcd_eq_0; lia).
    apply Z.divide_pos_le in Hpg; lia.
Qed.

Lemma isPrime_rejects_small_factors_witness :
  isPrime 40 13 = Ok true /\ (13 | 13) /\ 13 = 13.
Proof.
  split; [reflexivity |]. split; [exists 1; reflexivity |].
  apply (isPrime_rejects_small_factors 40 13 13);
    [lia | reflexivity | | exists 1; reflexivity].
  do 5 apply list_elem_of_further. apply list_elem_of_here.
Defined.

(** ** Primes pass the strong pseudoprime test *)

Lemma divide_sub_mod (p x c : Z) :
  1 < p -> 0 <= c < p -> (p | x - c) -> x mod p = c.
Proof.
  intros Hp Hc [k Hk]. replace x with (c + k * p) by lia.
  rewrite Z.mod_add by lia. apply Z.mod_small. lia.
Qed.

Lemma prime_square_chain (p a s d : Z) :
  Z.prime p -> 3 <= p -> 0 <= s -> 0 <= d ->
  a ^ (2 ^ s * d) mod p = 1 ->
  a ^ d mod p = 1 \/ exists r, 0 <= r < s /\ a ^ (2 ^ r * d) mod p = p - 1.
Proof.
  intros Hp Hp3 Hs Hd. pattern s. apply natlike_ind; [| | exact Hs].
  - rewrite Z.pow_0_r, Z.mul_1_l. now left.
  - intros k Hk IH Hone. unfold Z.succ in *.
    set (x := a ^ (2 ^ k * d)) in *.
    assert (Hsq : a ^ (2 ^ (k + 1) * d) = x * x).
    { subst x. rewrite Z.pow_add_r, Z.pow_1_r by lia.
      replace (2 ^ k * 2 * d) with (2 ^ k * d + 2 ^ k * d) by ring.
      apply Z.pow_add_r; apply Z.mul_nonneg_nonneg; try apply Z.pow_nonneg; lia. }
    rewrite Hsq in Hone.
    assert (Hdiv : (p | (x - 1) * (x + 1))).
    { replace ((x - 1) * (x + 1)) with (x * x - 1) by ring.
      apply Z.mod_divide; [lia |].
      rewrite Zminus_mod, Hone, Z.mod_1_l by lia. reflexivity. }
    apply Z.divide_prime_mul in Hdiv; [| exact Hp].
    destruct Hdiv as [H1 | H1].
    + apply (divide_sub_mod p x 1) in H1; [| lia | lia].
      destruct (IH H1) as [H | (r & Hr & H)]; [now left | right].
      exists r. split; [lia | exact H].
    + right. exists k. split; [lia |].
      apply divide_sub_mod; [lia | lia |].
      destruct H1 as [q Hq]. exists (q - 1). lia.
Qed.

Lemma prime_odd (p : Z) : Z.prime p -> 3 <= p -> Z.odd p = true.
Proof.
  intros Hp Hp3. destruct (Z.odd p) eqn:E; [reflexivity |].
  exfalso. rewrite <- Z.negb_even in E. apply negb_false_iff in E.
  apply Z.even_spec in E. destruct E as [k Hk].
  assert (H2 : (2 | p)) by (exists k; lia).
  apply (Z.divide_prime_r _ _ Hp) in H2. lia.
Qed.

Lemma isStrongPseudoprime_prime (budget : nat) (p a : Z) :
  Z.prime p -> 3 <= p -> a mod p <> 0 -> Z.log2 p < Z.of_nat budget ->
  isStrongPseudoprime budget p a = Ok true.
Proof.
  intros Hp Hp3 Ha Hb.
  destruct (isStrongPseudoprime_correct budget p a Hp3 (prime_odd p Hp Hp3) Hb)
    as (s & d & b & Hs & Hodd & Heq & Hrun & Hiff).
  rewrite Hrun. f_equal. apply Hiff.
  assert (Hd : 0 <= d).
  { assert (0 < 2 ^ s) by (apply Z.pow_pos_nonneg; lia). nia. }
  destruct (prime_square_chain p a s d Hp Hp3 Hs Hd) as [H | (r & Hr & H)].
  - rewrite <- Heq. now apply ZmodInv.Z.fermat_nz.
  - now left.
  - right. exists r. split; [lia | exact H].
Qed.

Lemma every_all_true (f : Z -> Outcome bool) (bases : list Z) :
  (forall base, base ∈ bases -> f base = Ok true) -> every f bases = Ok true.
Proof.
  induction bases as [| base rest IH]; intros H; [reflexivity |].
  cbn [every]. rewrite (H base) by apply list_elem_of_here.
  rewrite bind_Ok_l. apply IH. intros x Hx. apply H. now apply list_elem_of_further.
Qed.

Lemma every_returns (f : Z -> Outcome bool) (bases : list Z) :
  (forall base, base ∈ bases -> exists b, f base = Ok b) ->
  exists b, every f bases = Ok b.
Proof.
  induction bases as [| base rest IH]; intros H; [now exists true |].
  cbn [every]. destruct (H base) as [b Hb]; [apply list_elem_of_here |].
  rewrite Hb, bind_Ok_l. destruct b; [| now exists false].
  apply IH. intros x Hx. apply H. now apply list_elem_of_further.
Qed.

Lemma isPrime_total (budget : nat) (n : Z) :
  1415 <= Z.of_nat budget -> Z.log2 n < Z.of_nat budget ->
  exists b, isPrime budget n = Ok b /\ (Z.prime n -> b = true).
Proof.
  intros Hb Hl. destruct (Z.lt_ge_cases n 2000000) as [Hsmall | Hbig].
  { destruct (isPrime_correct budget n Hb Hsmall) as (b & Hrun & Hiff).
    exists b. split; [exact Hrun | apply Hiff]. }
  unfold isPrime, isPrime_at.
  replace (n <? 2) with false by lia. replace (n =? 2) with false by lia.
  replace (n =? 3) with false by lia. replace (n =? 5) with false by lia.
  cbn [orb].
  destruct (Z.eqb_spec (Z.rem n 2) 0) as [H2 | H2].
  { exists false. split; [reflexivity |].
    intros Hp. exfalso. revert Hp. apply (multiple_not_prime n 2); lia. }
  destruct (Z.eqb_spec (Z.rem n 3) 0) as [H3 | H3].
  { exists false. split; [reflexivity |].
    intros Hp. exfalso. revert Hp. apply (multiple_not_prime n 3); lia. }
  destruct (Z.eqb_spec (Z.rem n 5) 0) as [H5 | H5].
  { exists false. split; [reflexivity |].
    intros Hp. exfalso. revert Hp. apply (multiple_not_prime n 5); lia. }
  cbn [orb]. rewrite gcd_510510, bind_Ok_l by lia.
  destruct (Z.ltb_spec 1 (Z.gcd n 510510)) as [Hg | Hg].
  { exists (bool_decide (n ∈ [7; 11; 13; 17])). split; [reflexivity |].
    intros Hp. exfalso.
    pose proof (Z.gcd_divide_l n 510510) as Hgn.
    pose proof (Z.gcd_divide_r n 510510) as Hg5.
    apply Z.divide_pos_le in Hg5; [| lia].
    apply (Z.divide_prime_r _ _ Hp) in Hgn. lia. }
  replace (n <? 2000000) with false by lia.
  assert (Hodd : Z.odd n = true).
  { rewrite rem_nonneg in H2 by lia. apply Z.odd_spec. exists (n / 2).
    pose proof (Z.div_mod n 2 ltac:(lia)).
    pose proof (Z.mod_pos_bound n 2 ltac:(lia)). lia. }
  unfold isSmallStrongPseudoprime.
  destruct (every_returns (fun base => isStrongPseudoprime budget n base)
              [2; 13; 23; 1662803]) as [b Hrun].
  { intros base _.
    destruct (isStrongPseudoprime_correct budget n base) as (s & d & b & H);
      [lia | exact Hodd | exact Hl |].
    exists b. apply H. }
  exists b. rewrite Hrun. split; [reflexivity |].
  intros Hp. rewrite every_all_true in Hrun; [congruence |].
  intros base Hbase. apply isStrongPseudoprime_prime; [exact Hp | lia | | exact Hl].
  apply list_elem_of_In in Hbase. simpl in Hbase.
  rewrite Z.mod_small; lia.
Qed.

(** X11. [isPrime] has no false negatives: for every BigInt [n] it
    terminates without an error and answers [true] whenever [n] is prime,
    also above 2,000,000 where the answer comes from the four
    Miller-Rabin bases 2, 13, 23 and 1662803. *)
Theorem isPrime_accepts_every_prime (budget : nat) (n : Z) :
  1415 <= Z.of_nat budget -> Z.log2 n < Z.of_nat budget ->
  exists b, isPrime budget n = Ok b /\ (Z.prime n -> b = true).
Proof. apply isPrime_total. Qed.

Lemma isPrime_accepts_every_prime_witness :
  exists b, isPrime 1415 2147483647 = Ok b /\ (Z.prime 2147483647 -> b = true).
Proof.
  apply (isPrime_accepts_every_prime 1415 2147483647); vm_compute; [discriminate | reflexivity].
Defined.

(** ** The prime search at any size *)

Lemma getNextPrime_loop_bounded (budget fuel : nat) (c q : Z) :
  1415 <= Z.of_nat budget -> Z.log2 q < Z.of_nat budget ->
  7 <= c -> c mod 2 <> 0 /\ c mod 3 <> 0 /\ c mod 5 <> 0 ->
  Z.prime q -> c <= q -> q - c < Z.of_nat fuel ->
  exists p,
    getNextPrime_loop budget fuel c = Ok p /\ c <= p /\
    isPrime budget p = Ok true /\
    forall q', Z.prime q' -> c <= q' -> p <= q'.
Proof.
  intros Hb Hl. revert c.
  induction fuel as [| fuel IH]; intros c Hc Hco Hq Hcq Hfuel; [lia |].
  cbn [getNextPrime_loop].
  assert (Hlc : Z.log2 c < Z.of_nat budget)
    by (pose proof (Z.log2_le_mono c q Hcq); lia).
  destruct (isPrime_total budget c Hb Hlc) as (b & Hrun & Hbp).
  rewrite Hrun, bind_Ok_l. destruct b; cbn [negb].
  - exists c. split; [reflexivity |]. split; [lia |]. split; [exact Hrun |].
    intros q' _ Hq'. exact Hq'.
  - assert (Hnp : ~ Z.prime c) by (intros Hp; apply Hbp in Hp; discriminate).
    destruct (add_gap_next c ltac:(lia)) as (g & Hgap & Hg & Hco' & Hskip).
    rewrite Hgap, bind_Ok_l.
    assert (Hjump : forall q', Z.prime q' -> c <= q' -> c + g <= q').
    { intros q' Hq' Hle.
      destruct (Z.eq_dec q' c) as [-> | Hne]; [contradiction |].
      destruct (Z.lt_ge_cases q' (c + g)) as [Hlt |]; [| assumption].
      exfalso. apply (wheel_skips_no_prime q'); [lia | | exact Hq'].
      apply Hskip. lia. }
    pose proof (Hjump q Hq Hcq) as Hq'.
    destruct (IH (c + g)) as (p & Hp & Hcp & Hpp & Hmin); try lia; try assumption.
    exists p. split; [exact Hp |]. split; [lia |]. split; [exact Hpp |].
    intros q' Hq'p Hq'c. apply Hmin; [exact Hq'p |]. now apply Hjump.
Qed.

Lemma getNextPrime_bounded (budget : nat) (n q : Z) :
  0 <= n < 2 ^ 512 -> Z.prime q -> n < q ->
  1415 <= Z.of_nat budget -> Z.log2 q < Z.of_nat budget ->
  q - n <= Z.of_nat budget ->
  exists p,
    getNextPrime budget n = Ok p /\ n < p /\ isPrime budget p = Ok true /\
    forall q', Z.prime q' -> n < q' -> p <= q'.
Proof.
  intros Hn Hq Hnq Hb Hl Hgap. unfold getNextPrime.
  assert (Hbl : exists bl, getBitLength n = Ok bl /\ bl <= 512).
  { destruct (Z.eq_dec n 0) as [-> | Hnz].
    - exists 0. split; [reflexivity | lia].
    - rewrite getBitLength_pos by lia. eexists. split; [reflexivity |].
      assert (Z.log2 n < 512) by (apply Z.log2_lt_pow2; lia). lia. }
  destruct Hbl as (bl & -> & Hbl). rewrite bind_Ok_l.
  destruct (Z.ltb_spec 512 bl); [lia |].
  destruct (Z.ltb_spec n 2) as [Hlt2 | Hge2].
  { exists 2. split; [reflexivity |]. split; [lia |]. split; [reflexivity |].
    intros q' [Hq' _] _. lia. }
  destruct (Z.ltb_spec n 5) as [Hlt5 | Hge5].
  { assert (Hcases : n = 2 \/ n = 3 \/ n = 4) by lia.
    destruct Hcases as [-> | [-> | ->]]; simpl; eexists;
      (split; [reflexivity |]); (split; [lia |]); (split; [reflexivity |]);
      intros q' Hq' Hlt.
    - lia.
    - destruct (Z.eq_dec q' 4) as [-> |]; [| lia].
      exfalso. revert Hq'. apply (multiple_not_prime 4 2); (lia || reflexivity).
    - lia. }
  destruct (getNextPrime_wheel_start budget n Hge5)
    as (c & Hstart & Hc7 & Hnc & Hco & Hnone).
  cbn zeta in Hstart. rewrite Hstart, bind_Ok_l.
  assert (Hjump : forall q', Z.prime q' -> n < q' -> c <= q').
  { intros q' Hq' Hnq'. destruct (Z.lt_ge_cases q' c) as [Hlt |]; [| assumption].
    exfalso. apply (Hnone q'); [lia | exact Hq']. }
  pose proof (Hjump q Hq Hnq) as Hcq.
  destruct (getNextPrime_loop_bounded budget budget c q)
    as (p & Hp & Hcp & Hpp & Hmin); try lia; try assumption.
  exists p. split; [exact Hp |]. split; [lia |]. split; [exact Hpp |].
  intros q' Hq' Hnq'. apply Hmin; [exact Hq' |]. now apply Hjump.
Qed.

(** X12. [getNextPrime] never skips a prime, at any size within its
    512-bit limit: if [q] is a prime above [n] (and the budget covers the
    distance to it), [getNextPrime(n)] terminates and returns a number [p]
    with [n < p <= q] that [isPrime] accepts; so [p] is at most the
    smallest prime above [n]. *)
Theorem getNextPrime_no_prime_skipped (budget : nat) (n q : Z) :
  0 <= n < 2 ^ 512 -> Z.prime q -> n < q ->
  1415 <= Z.of_nat budget -> Z.log2 q < Z.of_nat budget ->
  q - n <= Z.of_nat budget ->
  exists p,
    getNextPrime budget n = Ok p /\ n < p <= q /\ isPrime budget p = Ok true /\
    forall q', Z.prime q' -> n < q' -> p <= q'.
Proof.
  intros Hn Hq Hnq Hb Hl Hgap.
  destruct (getNextPrime_bounded budget n q Hn Hq Hnq Hb Hl Hgap)
    as (p & Hrun & Hlt & Hacc & Hmin).
  exists p. split; [exact Hrun |]. split; [| split; assumption].
  split; [exact Hlt | now apply Hmin].
Qed.

Lemma prime_2147483647 : Z.prime 2147483647.
Proof.
  apply (small_prime_by_trial (Z.to_nat 46341));
    [vm_compute; discriminate | reflexivity | vm_compute; reflexivity].
Qed.

Lemma getNextPrime_no_prime_skipped_witness :
  exists p,
    getNextPrime 1415 2147483600 = Ok p /\ 2147483600 < p <= 2147483647 /\
    isPrime 1415 p = Ok true /\
    forall q', Z.prime q' -> 2147483600 < q' -> p <= q'.
Proof.
  apply (getNextPrime_no_prime_skipped 1415 2147483600 2147483647);
    [split; [lia | reflexivity] | exact prime_2147483647 | lia
    | vm_compute; discriminate | reflexivity | vm_compute; discriminate].
Defined.

(** X13. The 512-bit limit of [getNextPrime] is a limit on the argument:
    every [n >= 2^512] is refused with a MaximumValueError and every
    negative [n] with a ValueError, whatever the budget. *)
Theorem getNextPrime_input_limit (budget : nat) (n : Z) :
  2 ^ 512 <= n ->
  getNextPrime budget n = Throw MaximumValueError /\
  (forall n', n' < 0 -> getNextPrime budget n' = Throw ValueError).
Proof.
  intros Hn. assert (0 < n) by (pose proof (Z.pow_pos_nonneg 2 512); lia).
  split; unfold getNextPrime.
  - rewrite getBitLength_pos, bind_Ok_l by lia.
    assert (512 <= Z.log2 n) by (apply Z.log2_le_pow2; lia).
    now replace (512 <? Z.log2 n + 1) with true by lia.
  - intros n' Hn'. destruct n'; try lia. reflexivity.
Qed.

Lemma getNextPrime_input_limit_witness :
  getNextPrime 0 (2 ^ 512) = Throw MaximumValueError /\
  (forall n', n' < 0 -> getNextPrime 0 n' = Throw ValueError).
Proof. apply (getNextPrime_input_limit 0 (2 ^ 512)). lia. Defined.

(** ** Alphabets *)

(** X14. The alphabet constructor compares the number of distinct code
    points of the string with its length in code units.  It therefore
    accepts exactly the strings in which no code unit is repeated and no
    leading surrogate is directly followed by a trailing surrogate, the
    empty string included, and returns the alphabet with [base] the length
    of the string; every other string is a DuplicateError, also one that
    holds a character outside the Basic Multilingual Plane and repeats
    nothing. *)
Theorem Alphabet_new_duplicates (s : list codeUnit) :
  ((NoDup s /\ has_surrogate_pair s = false /\
    Alphabet.new s = Ok {| _alphabet := s; _base := Z.of_nat (length s) |}) \/
   (~ (NoDup s /\ has_surrogate_pair s = false) /\
    Alphabet.new s = Throw DuplicateError)) /\
  NoDup [55357%N; 56832%N] /\
  Alphabet.new [55357%N; 56832%N] = Throw DuplicateError.
Proof.
  split.
  - unfold Alphabet.new.
    destruct (Nat.eqb_spec (length (remove_dups (JsString.spread s))) (length s))
      as [E | E].
    + left. apply Alphabet_new_accepts in E. destruct E as [Hnd Hpair].
      split; [exact Hnd |]. split; [exact Hpair | reflexivity].
    + right. split; [| reflexivity].
      intros Hok. apply E. now apply Alphabet_new_accepts.
  - split; [| reflexivity].
    apply NoDup_cons. split; [| apply NoDup_singleton].
    intros Hin. apply list_elem_of_singleton in Hin. discriminate.
Qed.

Lemma symbol_lookup (s : list codeUnit) (i : nat) (c : codeUnit) :
  s !! i = Some c -> symbol s (Z.of_nat i) = c.
Proof.
  intros H. unfold symbol. rewrite Nat2Z.id.
  now apply nth_lookup_Some with (d := 0%N) in H.
Qed.

Lemma string_indexOf_absent (l : list codeUnit) (c : codeUnit) :
  c ∉ l -> JsString.indexOf l c = -1.
Proof.
  induction l as [| x l IH]; intros H; [reflexivity |].
  simpl. apply not_elem_of_cons in H. destruct H as [Hne Hl].
  rewrite bool_decide_eq_false_2 by congruence. now rewrite IH.
Qed.

(** X15. In an alphabet built from [s], [charAt(i)] for [0 <= i < base] is
    the one-character string at position [i], and [indexOf] maps it back to
    [i]; any other index is a RangeError. *)
Theorem charAt_indexOf_inverse (s : list codeUnit) (al : ObfuskeyAlphabet) (i : Z) :
  Alphabet.new s = Ok al ->
  (0 <= i < Alphabet.base al /\
   exists c, s !! Z.to_nat i = Some c /\
     Alphabet.charAt al i = Ok [c] /\ Alphabet.indexOf al [c] = Ok i) \/
  (~ 0 <= i < Alphabet.base al /\ Alphabet.charAt al i = Throw JsRangeError).
Proof.
  intros Hal. apply Alphabet_new_inv in Hal. destruct Hal as [-> Hnd].
  unfold Alphabet.base. cbn [_base].
  destruct (decide (0 <= i < Z.of_nat (length s))) as [Hi | Hi]; [left | right].
  - split; [exact Hi |].
    destruct (lookup_lt_is_Some_2 s (Z.to_nat i)) as [c Hc]; [lia |].
    exists c. split; [exact Hc |].
    pose proof (symbol_lookup s (Z.to_nat i) c Hc) as Hsym.
    rewrite Z2Nat.id in Hsym by lia. rewrite <- Hsym.
    split; [now apply charAt_symbol | now apply indexOf_symbol].
  - split; [exact Hi |]. unfold Alphabet.charAt. cbn [_base].
    destruct (Z.ltb_spec i 0); [reflexivity |].
    destruct (Z.leb_spec (Z.of_nat (length s)) i); [reflexivity | lia].
Qed.

Lemma charAt_indexOf_inverse_witness :
  let s := JsString.lit "abc" in
  let al := {| _alphabet := s; _base := 3 |} in
  (0 <= 2 < Alphabet.base al /\
   exists c, s !! Z.to_nat 2 = Some c /\
     Alphabet.charAt al 2 = Ok [c] /\ Alphabet.indexOf al [c] = Ok 2) \/
  (~ 0 <= 2 < Alphabet.base al /\ Alphabet.charAt al 2 = Throw JsRangeError).
Proof. apply (charAt_indexOf_inverse (JsString.lit "abc")). reflexivity. Defined.

(** X16. In an alphabet built from [s], [indexOf(c)] of a character of [s]
    is its position, and [charAt] maps that position back to [c]; a
    character that is not in [s] is an UnknownKeyError, and so is every
    string that is not a single character. *)
Theorem indexOf_charAt_inverse (s : list codeUnit) (al : ObfuskeyAlphabet) (c : codeUnit) :
  Alphabet.new s = Ok al ->
  ((exists i, Alphabet.indexOf al [c] = Ok i /\ 0 <= i < Alphabet.base al /\
      s !! Z.to_nat i = Some c /\ Alphabet.charAt al i = Ok [c]) \/
   (Alphabet.indexOf al [c] = Throw UnknownKeyError /\ c ∉ s)) /\
  Alphabet.indexOf al [] = Throw UnknownKeyError /\
  forall c' rest, Alphabet.indexOf al (c :: c' :: rest) = Throw UnknownKeyError.
Proof.
  intros Hal. apply Alphabet_new_inv in Hal. destruct Hal as [-> Hnd].
  split; [| split; reflexivity].
  unfold Alphabet.base. cbn [_base].
  destruct (decide (c ∈ s)) as [Hc | Hc]; [left | right].
  - apply list_elem_of_lookup in Hc. destruct Hc as [i Hi].
    pose proof (lookup_lt_Some _ _ _ Hi) as Hlt.
    pose proof (symbol_lookup s i c Hi) as Hsym.
    exists (Z.of_nat i). rewrite <- Hsym at 1 3.
    split; [apply indexOf_symbol; [exact Hnd | lia] |]. split; [lia |].
    split; [now rewrite Nat2Z.id | apply charAt_symbol; lia].
  - split; [| exact Hc]. unfold Alphabet.indexOf. cbn [_alphabet].
    now rewrite string_indexOf_absent.
Qed.

Lemma indexOf_charAt_inverse_witness :
  let s := JsString.lit "abc" in
  let al := {| _alphabet := s; _base := 3 |} in
  ((exists i, Alphabet.indexOf al (JsString.lit "b") = Ok i /\ 0 <= i < Alphabet.base al /\
      s !! Z.to_nat i = Some 98%N /\ Alphabet.charAt al i = Ok (JsString.lit "b")) \/
   (Alphabet.indexOf al (JsString.lit "b") = Throw UnknownKeyError /\ 98%N ∉ s)) /\
  Alphabet.indexOf al [] = Throw UnknownKeyError /\
  forall c' rest, Alphabet.indexOf al (98%N :: c' :: rest) = Throw UnknownKeyError.
Proof. apply (indexOf_charAt_inverse (JsString.lit "abc")). reflexivity. Defined.

(** ** The positional codec *)

Lemma sig_digits_value (fuel : nat) (b v : Z) :
  0 < b -> 0 <= v < b ^ Z.of_nat fuel ->
  Forall (fun d => 0 <= d < b) (sig_digits fuel b v) /\
  le_value b (sig_digits fuel b v) = v.
Proof.
  intros Hb. revert v. induction fuel as [| fuel IH]; intros v Hv.
  - change (b ^ Z.of_nat 0) with 1 in Hv. simpl.
    destruct (0 <? v); (split; [constructor | simpl; lia]).
  - simpl. destruct (Z.ltb_spec 0 v) as [Hpos | Hzero].
    + rewrite Nat2Z.inj_succ, Z.pow_succ_r in Hv by lia.
      destruct (IH (v / b)) as [Hall Hval].
      { split; [apply Z.div_pos; lia | apply Z.div_lt_upper_bound; lia]. }
      split.
      * constructor; [apply Z.mod_pos_bound; lia | exact Hall].
      * simpl. rewrite Hval. pose proof (Z.div_mod v b ltac:(lia)). lia.
    + split; [constructor | simpl; lia].
Qed.

Lemma le_value_zeros (b : Z) (ds : list Z) (k : nat) :
  le_value b (ds ++ replicate k 0) = le_value b ds.
Proof.
  induction ds as [| d ds IH]; simpl.
  - induction k as [| k IHk]; simpl; [reflexivity | rewrite IHk; lia].
  - now rewrite IH.
Qed.

Lemma symbols_over (s : list codeUnit) (ds : list Z) :
  Forall (fun d => 0 <= d < Z.of_nat (length s)) ds ->
  Forall (fun c => c ∈ s) (map (symbol s) ds).
Proof.
  intros Hds. induction Hds as [| d ds Hd Hds IH]; cbn [map]; constructor;
    [| exact IH].
  now apply symbol_elem_of.
Qed.

Lemma decode_digits (s : list codeUnit) (ds : list Z) :
  NoDup s -> Forall (fun d => 0 <= d < Z.of_nat (length s)) ds ->
  has_surrogate_pair (map (symbol s) (rev ds)) = false ->
  decode (map (symbol s) (rev ds))
    {| _alphabet := s; _base := Z.of_nat (length s) |} = Ok (le_value (Z.of_nat (length s)) ds).
Proof.
  intros Hnd Hds Hpair. unfold decode. rewrite length_map, length_rev.
  destruct (Nat.eqb_spec (length ds) 1) as [Hone | Hmany].
  - destruct ds as [| d [| d' ds]]; try discriminate.
    change (map (symbol s) (rev [d])) with [symbol s d].
    rewrite indexOf_symbol by (try assumption; now inversion Hds).
    f_equal. simpl. lia.
  - rewrite (spread_units _ Hpair). unfold enumerate.
    rewrite map_map, <- map_rev, rev_involutive.
    rewrite decode_reduce_digits by (try assumption; lia).
    f_equal. lia.
Qed.

Lemma encode_digits (budget : nat) (s : list codeUnit) (v : Z) :
  s <> [] -> 0 <= v < Z.of_nat (length s) ^ Z.of_nat budget ->
  exists ds,
    encode budget v {| _alphabet := s; _base := Z.of_nat (length s) |}
      = Ok (map (symbol s) (rev ds)) /\
    Forall (fun d => 0 <= d < Z.of_nat (length s)) ds /\
    le_value (Z.of_nat (length s)) ds = v.
Proof.
  intros Hne Hv. set (B := Z.of_nat (length s)) in *.
  assert (HB : 0 < B) by (subst B; destruct s; [congruence | simpl; lia]).
  unfold encode, Alphabet.base. cbn [_base]. fold B.
  destruct (Z.ltb_spec v 0); [lia |].
  destruct (Z.ltb_spec v B) as [Hsmall | Hbig].
  - exists [v]. rewrite charAt_symbol by (fold B; lia).
    split; [reflexivity |]. split; [repeat constructor; lia | simpl; lia].
  - exists (sig_digits budget B v).
    rewrite encode_loop_digits by (fold B; lia). fold B. simpl.
    destruct (sig_digits_value budget B v HB Hv) as [Hall Hval].
    split; [| split; assumption]. f_equal.
    generalize (sig_digits budget B v). intros l.
    induction l as [| d l IHl]; simpl; [reflexivity |].
    now rewrite concat_app, map_app, IHl.
Qed.

(** X17. [decode] inverts [encode]: over an accepted alphabet of at least
    two characters that does not hold both a leading and a trailing
    surrogate, for every [v >= 0], [encode(v)] terminates (one iteration
    per digit) and [decode] of the result is [v]; left-padding the result
    with the alphabet's first character to any width, as [getKey] does,
    does not change the decoded value. *)
Theorem decode_encode_roundtrip (budget : nat) (s : list codeUnit)
    (al : ObfuskeyAlphabet) (v : Z) :
  Alphabet.new s = Ok al -> 2 <= Alphabet.base al ->
  mixes_surrogates s = false ->
  0 <= v < Alphabet.base al ^ Z.of_nat budget ->
  exists e,
    encode budget v al = Ok e /\ decode e al = Ok v /\
    forall w, decode (JsString.padStart e w (take 1 s)) al = Ok v.
Proof.
  intros Hal Hbase Hmix Hv. apply Alphabet_new_inv in Hal. destruct Hal as [-> Hnd].
  unfold Alphabet.base in Hv, Hbase. cbn [_base] in Hv, Hbase.
  assert (Hne : s <> []) by (intros ->; simpl in Hbase; lia).
  destruct (encode_digits budget s v Hne Hv) as (ds & Hrun & Hall & Hval).
  assert (Hread : forall l, Forall (fun d => 0 <= d < Z.of_nat (length s)) l ->
            decode (map (symbol s) (rev l))
              {| _alphabet := s; _base := Z.of_nat (length s) |} =
            Ok (le_value (Z.of_nat (length s)) l)).
  { intros l Hl. apply decode_digits; [exact Hnd | exact Hl |].
    apply (no_pair_over s); [exact Hmix |].
    apply symbols_over. now apply Forall_rev. }
  exists (map (symbol s) (rev ds)). split; [exact Hrun |].
  split; [now rewrite Hread, Hval |].
  intros w. assert (Hz : take 1 s = [symbol s 0]) by (destruct s; [congruence | reflexivity]).
  rewrite Hz, padStart_one.
  set (k := Z.to_nat (w - Z.of_nat (length (map (symbol s) (rev ds))))).
  replace (replicate k (symbol s 0) ++ map (symbol s) (rev ds))
    with (map (symbol s) (rev (ds ++ replicate k 0))).
  - assert (Hpadded : Forall (fun d => 0 <= d < Z.of_nat (length s))
                          (ds ++ replicate k 0)).
    { apply Forall_app. split; [assumption |].
      apply Forall_forall. intros x Hx. apply elem_of_replicate in Hx.
      destruct Hx as [-> _]. lia. }
    now rewrite Hread, le_value_zeros, Hval.
  - now rewrite rev_app_distr, map_app, map_rev_replicate.
Qed.

Lemma decode_encode_roundtrip_witness :
  let s := JsString.lit "0123456789" in
  let al := {| _alphabet := s; _base := 10 |} in
  exists e,
    encode 4 2024 al = Ok e /\ decode e al = Ok 2024 /\
    forall w, decode (JsString.padStart e w (take 1 s)) al = Ok 2024.
Proof.
  apply (decode_encode_roundtrip 4 (JsString.lit "0123456789"));
    [reflexivity | vm_compute; discriminate | reflexivity
    | vm_compute; split; [discriminate | reflexivity]].
Defined.

(** X18. Over a one-character alphabet, which the alphabet constructor
    accepts, [encode(v)] does not terminate for any [v >= 1]: the loop
    divides by the base 1 and never reaches zero, so every budget is
    exhausted.  ([encode(0)] returns the single character.) *)
Theorem encode_unary_diverges (budget : nat) (c : codeUnit) (al : ObfuskeyAlphabet)
    (v : Z) :
  Alphabet.new [c] = Ok al -> 1 <= v ->
  encode budget v al = OutOfFuel /\ encode budget 0 al = Ok [c].
Proof.
  intros Hal Hv. apply Alphabet_new_inv in Hal. destruct Hal as [-> _].
  split; [| reflexivity].
  unfold encode, Alphabet.base. cbn [_base length].
  change (Z.of_nat 1) with 1.
  destruct (Z.ltb_spec v 0); [lia |]. destruct (Z.ltb_spec v 1); [lia |].
  assert (Hloop : forall fuel key,
            encode_loop fuel {| _alphabet := [c]; _base := 1 |} v key = OutOfFuel).
  { induction fuel as [| fuel IH]; intros key; cbn [encode_loop];
      destruct (Z.ltb_spec 0 v); try lia; [reflexivity |].
    unfold divmod, Alphabet.base. cbn [_base].
    rewrite Z.quot_1_r, Z.rem_1_r. cbn. apply IH. }
  now rewrite Hloop.
Qed.

Lemma encode_unary_diverges_witness :
  encode 1000 5 {| _alphabet := (JsString.lit "a"); _base := 1 |} = OutOfFuel /\
  encode 1000 0 {| _alphabet := (JsString.lit "a"); _base := 1 |} = Ok (JsString.lit "a").
Proof. apply (encode_unary_diverges 1000 97%N); [reflexivity | lia]. Defined.

(** ** Keys that [getValue] refuses *)

Lemma indexOf_known (s : list codeUnit) (c : codeUnit) :
  NoDup s -> c ∈ s ->
  exists i,
    Alphabet.indexOf {| _alphabet := s; _base := Z.of_nat (length s) |} [c] = Ok i /\
    0 <= i < Z.of_nat (length s) /\ symbol s i = c.
Proof.
  intros Hnd Hc. apply list_elem_of_lookup in Hc. destruct Hc as [i Hi].
  pose proof (lookup_lt_Some _ _ _ Hi) as Hlt.
  pose proof (symbol_lookup s i c Hi) as Hsym.
  exists (Z.of_nat i). split; [| split; [lia | exact Hsym]].
  rewrite <- Hsym. apply indexOf_symbol; [exact Hnd | lia].
Qed.

Lemma indexOf_unknown (s : list codeUnit) (c : codeUnit) :
  c ∉ s ->
  Alphabet.indexOf {| _alphabet := s; _base := Z.of_nat (length s) |} [c]
    = Throw UnknownKeyError.
Proof.
  intros Hc. unfold Alphabet.indexOf. cbn [_alphabet].
  now rewrite string_indexOf_absent.
Qed.

Lemma key_digits (s : list codeUnit) (key : list codeUnit) :
  NoDup s -> Forall (fun c => c ∈ s) key ->
  exists ds,
    Forall (fun d => 0 <= d < Z.of_nat (length s)) ds /\ key = map (symbol s) ds.
Proof.
  intros Hnd. induction 1 as [| c key Hc Hkey (ds & Hds & ->)].
  - exists []. split; [constructor | reflexivity].
  - destruct (indexOf_known s c Hnd Hc) as (i & _ & Hi & Hsym).
    exists (i :: ds). split; [now constructor | simpl; now rewrite Hsym].
Qed.

Lemma le_value_bound (b : Z) (ds : list Z) :
  0 < b -> Forall (fun d => 0 <= d < b) ds ->
  0 <= le_value b ds < b ^ Z.of_nat (length ds).
Proof.
  intros Hb. induction 1 as [| d ds Hd Hds IH]; [simpl; lia |].
  cbn [le_value length]. rewrite Nat2Z.inj_succ, Z.pow_succ_r by lia. nia.
Qed.

Lemma decode_known (s : list codeUnit) (key : list codeUnit) :
  NoDup s -> s <> [] -> Forall (fun c => c ∈ s) key ->
  has_surrogate_pair key = false ->
  exists d,
    decode key {| _alphabet := s; _base := Z.of_nat (length s) |} = Ok d /\
    0 <= d < Z.of_nat (length s) ^ Z.of_nat (length key).
Proof.
  intros Hnd Hne Hkey Hpair. destruct (key_digits s key Hnd Hkey) as (ds & Hds & ->).
  assert (Hrev : Forall (fun d => 0 <= d < Z.of_nat (length s)) (rev ds))
    by now apply Forall_rev.
  exists (le_value (Z.of_nat (length s)) (rev ds)).
  rewrite <- (rev_involutive ds) at 1. rewrite <- (rev_involutive ds) in Hpair.
  split; [now apply decode_digits |].
  rewrite length_map, <- (length_rev ds). apply le_value_bound; [| exact Hrev].
  destruct s; [congruence | simpl; lia].
Qed.

(** The only error of [indexOf] is UnknownKeyError, and one failing
    character makes [decode] fail with it. *)
Lemma indexOf_outcome (a : ObfuskeyAlphabet) (char : list codeUnit) :
  (exists i, Alphabet.indexOf a char = Ok i) \/
  Alphabet.indexOf a char = Throw UnknownKeyError.
Proof.
  unfold Alphabet.indexOf. destruct char as [| c [| d rest]]; [now right | | now right].
  destruct (JsString.indexOf (_alphabet a) c =? -1); [now right | left; eauto].
Qed.

Lemma decode_reduce_rejects (a : ObfuskeyAlphabet) (items : list (list codeUnit))
    (i acc : Z) :
  0 <= i ->
  Exists (fun char => Alphabet.indexOf a char = Throw UnknownKeyError) items ->
  decode_reduce a (enumerate_from i items) acc = Throw UnknownKeyError.
Proof.
  intros Hi Hbad. revert i acc Hi.
  induction Hbad as [char items Hchar | char items Hbad IH]; intros i acc Hi;
    cbn [enumerate_from decode_reduce].
  - now rewrite Hchar.
  - destruct (indexOf_outcome a char) as [[d ->] | ->]; [| reflexivity].
    rewrite bind_Ok_l. unfold BigInt.pow.
    destruct (Z.ltb_spec i 0); [lia |]. rewrite bind_Ok_l. apply IH. lia.
Qed.

Lemma spread_pair_upto (n : nat) (key : list codeUnit) :
  (length key <= n)%nat -> has_surrogate_pair key = true ->
  Exists (fun char => exists c d, char = [c; d]) (JsString.spread key).
Proof.
  revert key. induction n as [| n IH]; intros key Hn Hpair.
  - destruct key; [discriminate | simpl in Hn; lia].
  - destruct key as [| c [| d rest]]; [discriminate .. |].
    rewrite has_surrogate_pair_cons in Hpair. rewrite spread_cons.
    destruct (JsString.isLeadingSurrogate c && JsString.isTrailingSurrogate d).
    + apply Exists_cons_hd. eauto.
    + apply Exists_cons_tl. apply IH; [simpl in *; lia | exact Hpair].
Qed.

Lemma spread_rejects (s : list codeUnit) (key : list codeUnit) :
  ~ (Forall (fun c => c ∈ s) key /\ has_surrogate_pair key = false) ->
  Exists (fun char =>
            Alphabet.indexOf {| _alphabet := s; _base := Z.of_nat (length s) |} char
            = Throw UnknownKeyError)
         (JsString.spread key).
Proof.
  intros Hbad. destruct (has_surrogate_pair key) eqn:Hpair.
  - eapply Exists_impl; [apply (spread_pair_upto (length key)); [lia | exact Hpair] |].
    intros char (c & d & ->). reflexivity.
  - rewrite (spread_units key Hpair).
    assert (Hout : ~ Forall (fun c => c ∈ s) key) by tauto.
    apply not_Forall_Exists in Hout; [| intros c; apply _].
    apply Exists_exists in Hout. destruct Hout as (c & Hc & Hnot).
    apply Exists_exists. exists [c]. split.
    + apply list_elem_of_fmap. eauto.
    + now apply indexOf_unknown.
Qed.

Lemma decode_unknown (s : list codeUnit) (key : list codeUnit) :
  ~ (Forall (fun c => c ∈ s) key /\ has_surrogate_pair key = false) ->
  decode key {| _alphabet := s; _base := Z.of_nat (length s) |}
    = Throw UnknownKeyError.
Proof.
  intros Hbad. unfold decode.
  destruct (Nat.eqb_spec (length key) 1) as [Hone | Hmany].
  - destruct key as [| c [| c' key]]; try discriminate.
    apply indexOf_unknown. intros Hc. apply Hbad.
    split; [repeat constructor; exact Hc | reflexivity].
  - unfold enumerate. apply decode_reduce_rejects; [lia |].
    pose proof (spread_rejects s key Hbad) as Hex.
    apply Exists_exists in Hex. destruct Hex as (char & Hin & Hchar).
    apply Exists_exists. exists char. split; [| exact Hchar].
    now apply list_elem_of_In, in_rev, list_elem_of_In in Hin.
Qed.

Lemma surrogate_ranges_disjoint (c : codeUnit) :
  JsString.isLeadingSurrogate c && JsString.isTrailingSurrogate c = false.
Proof.
  unfold JsString.isLeadingSurrogate, JsString.isTrailingSurrogate.
  destruct (N.leb_spec c 56319); destruct (N.leb_spec 56320 c);
    rewrite ?andb_false_r, ?andb_false_l; try reflexivity.
  lia.
Qed.

Lemma replicate_no_pair (n : nat) (c : codeUnit) :
  has_surrogate_pair (replicate n c) = false.
Proof.
  induction n as [| [| n] IH]; [reflexivity .. |].
  change (replicate (S (S n)) c) with (c :: c :: replicate n c).
  rewrite has_surrogate_pair_cons, surrogate_ranges_disjoint. exact IH.
Qed.

(** X19. What [getValue] does with a malformed key, whatever the
    multiplier: a key whose length is not [keyLength] is a KeyLengthError;
    a key of the right length that has a character outside the alphabet, or
    a leading surrogate directly followed by a trailing one (the pair is
    read as one character, which no alphabet position matches), is an
    UnknownKeyError; every other key decodes to a number between [0] and
    [maximumValue]. *)
Theorem getValue_malformed_key (budget : nat) (s : list codeUnit) (k : Z)
    (mult : option Z) (al : ObfuskeyAlphabet) (o : Obfuskey) (key : list codeUnit) :
  Alphabet.new s = Ok al -> s <> [] -> Obfuskey_new al k mult = Ok o ->
  let readable :=
    Forall (fun c => c ∈ s) key /\ has_surrogate_pair key = false in
  (Z.of_nat (length key) <> k /\ getValue budget o key = Throw KeyLengthError) \/
  (Z.of_nat (length key) = k /\ ~ readable /\
   getValue budget o key = Throw UnknownKeyError) \/
  (Z.of_nat (length key) = k /\ readable /\
   exists d, decode key al = Ok d /\ 0 <= d <= maximumValue o).
Proof.
  intros Hal Hne Hnew readable. subst readable.
  apply Alphabet_new_inv in Hal. destruct Hal as [-> Hnd].
  apply Obfuskey_new_inv in Hnew. destruct Hnew as [Hk ->].
  unfold maximumValue. cbn [__maximumValue _base].
  destruct (Z.eq_dec (Z.of_nat (length key)) k) as [Hlen | Hlen].
  2: { left. split; [exact Hlen |]. unfold getValue. cbn [__keyLength].
       now replace (Z.of_nat (length key) =? k) with false by lia. }
  right.
  destruct (decide (Forall (fun c => c ∈ s) key /\ has_surrogate_pair key = false))
    as [[Hall Hpair] | Hbad].
  - right. split; [exact Hlen |]. split; [now split |].
    destruct (decode_known s key Hnd Hne Hall Hpair) as (d & Hd & Hrange).
    exists d. split; [exact Hd |]. rewrite Hlen in Hrange. lia.
  - left. split; [exact Hlen |]. split; [exact Hbad |].
    unfold getValue. cbn [__keyLength __alphabet].
    replace (Z.of_nat (length key) =? k) with true by lia. cbn [negb].
    rewrite (emptyKey_numeral s Hnd k mult Hne), bind_Ok_l.
    rewrite bool_decide_eq_false_2.
    + now rewrite decode_unknown.
    + intros ->. apply Hbad. rewrite numeral_zero. split.
      * apply Forall_forall.
        intros c Hc. apply elem_of_replicate in Hc. destruct Hc as [-> _].
        unfold symbol. destruct s; [congruence | apply list_elem_of_here].
      * apply replicate_no_pair.
Qed.

Lemma getValue_malformed_key_witness :
  let s := JsString.lit "abc" in
  let al := {| _alphabet := s; _base := 3 |} in
  let o := {| __alphabet := al; __keyLength := 2;
              __maximumValue := 8; __multiplier := Some 5 |} in
  let key := JsString.lit "az" in
  let readable :=
    Forall (fun c => c ∈ s) key /\ has_surrogate_pair key = false in
  (Z.of_nat (length key) <> 2 /\ getValue 10 o key = Throw KeyLengthError) \/
  (Z.of_nat (length key) = 2 /\ ~ readable /\
   getValue 10 o key = Throw UnknownKeyError) \/
  (Z.of_nat (length key) = 2 /\ readable /\
   exists d, decode key al = Ok d /\ 0 <= d <= maximumValue o).
Proof.
  apply (getValue_malformed_key 10 (JsString.lit "abc") 2 (Some 5));
    [reflexivity | discriminate | reflexivity].
Defined.

(** X20. A multiplier that shares a factor with [maximumValue + 1] (the
    constructor only checks that a supplied multiplier is odd) is detected
    when a key is decoded, not at construction: [getValue] then fails with
    a ValueError on every well-formed key, that is a key of [keyLength]
    alphabet characters without a surrogate pair, except the all-zero
    key. *)
Theorem getValue_multiplier_not_coprime (budget : nat) (s : list codeUnit) (k : Z)
    (mult : option Z) (al : ObfuskeyAlphabet) (o o' : Obfuskey) (m : Z)
    (key : list codeUnit) :
  Alphabet.new s = Ok al -> s <> [] -> Obfuskey_new al k mult = Ok o ->
  multiplier budget o = Ok (m, o') ->
  Z.gcd m (maximumValue o + 1) <> 1 ->
  2 * (Z.log2 (maximumValue o + 1) + 1) <= Z.of_nat budget ->
  Z.of_nat (length key) = k -> Forall (fun c => c ∈ s) key ->
  has_surrogate_pair key = false ->
  emptyKey o <> Ok key ->
  getValue budget o key = Throw ValueError.
Proof.
  intros Hal Hne Hnew Hmult Hgcd Hb Hlen Hall Hpair Hnz.
  apply Alphabet_new_inv in Hal. destruct Hal as [-> Hnd].
  apply Obfuskey_new_inv in Hnew. destruct Hnew as [Hk ->].
  unfold maximumValue in *. cbn [__maximumValue _base] in *.
  rewrite (emptyKey_numeral s Hnd k mult Hne) in Hnz.
  unfold getValue. cbn [__keyLength __alphabet __maximumValue].
  replace (Z.of_nat (length key) =? k) with true by lia. cbn [negb].
  rewrite (emptyKey_numeral s Hnd k mult Hne), bind_Ok_l.
  rewrite bool_decide_eq_false_2 by congruence.
  destruct (decode_known s key Hnd Hne Hall Hpair) as (d & -> & _). rewrite bind_Ok_l.
  rewrite Hmult, bind_Ok_l.
  set (M := Z.of_nat (length s) ^ k) in *.
  replace (M - 1 + 1) with M in * by lia.
  assert (HM : 0 < M).
  { subst M. apply Z.pow_pos_nonneg; [| lia]. destruct s; [congruence | simpl; lia]. }
  destruct (modInv_spec budget m M HM Hb) as [[_ ->] | [Hone _]];
    [reflexivity | contradiction].
Qed.

Lemma getValue_multiplier_not_coprime_witness :
  let s := JsString.lit "abc" in
  let al := {| _alphabet := s; _base := 3 |} in
  let o := {| __alphabet := al; __keyLength := 1;
              __maximumValue := 2; __multiplier := Some 3 |} in
  getValue 10 o (JsString.lit "b") = Throw ValueError.
Proof.
  intros s al o.
  apply (getValue_multiplier_not_coprime 10 s 1 (Some 3) al o o 3);
    [reflexivity | discriminate | reflexivity | reflexivity | vm_compute; discriminate
    | vm_compute; discriminate | reflexivity | | reflexivity | vm_compute; discriminate].
  repeat constructor.
Defined.

(** ** Instances with a generated multiplier *)

Lemma getNextPrime_exact (budget : nat) (n : Z) :
  20000 <= Z.of_nat budget -> 0 <= n < last_exact_prime ->
  exists p, getNextPrime budget n = Ok p /\ Z.prime p /\ n < p.
Proof.
  intros Hb Hn.
  assert (Hq : exists q, Z.prime q /\ n < q <= last_exact_prime /\ q - n <= 20000).
  { destruct (Z.lt_ge_cases n 7) as [Hsmall | Hbig].
    - exists 7. split; [apply prime_7 |]. unfold last_exact_prime. lia.
    - destruct (primes_within_20000 (n + 1)) as (q & Hq & Hr & Hc); [lia |].
      exists q. split; [exact Hq | lia]. }
  destruct Hq as (q & Hq & Hr & Hc). unfold last_exact_prime in *.
  pose proof (log2_below_threshold q ltac:(lia)) as Hl.
  destruct (getNextPrime_bounded budget n q) as (p & Hrun & Hlt & Hacc & Hmin);
    try lia; try assumption.
  exists p. split; [exact Hrun |]. split; [| exact Hlt].
  pose proof (Hmin q Hq ltac:(lia)) as Hpq.
  destruct (isPrime_correct budget p ltac:(lia) ltac:(lia)) as (b & Hb' & Hiff).
  apply Hiff. congruence.
Qed.

Lemma getKey_getValue_inverse (budget : nat) (s : list codeUnit) (k : Z)
    (mult : option Z) (o' : Obfuskey) (m v : Z) :
  NoDup s -> 0 < k ->
  let o := {| __alphabet := {| _alphabet := s; _base := Z.of_nat (length s) |};
              __keyLength := k;
              __maximumValue := Z.of_nat (length s) ^ k - 1;
              __multiplier := mult |} in
  multiplier budget o = Ok (m, o') -> 0 < m ->
  Z.gcd m (Z.of_nat (length s) ^ k) = 1 ->
  k = 1 \/ mixes_surrogates s = false ->
  k <= Z.of_nat budget ->
  2 * (Z.log2 (Z.of_nat (length s) ^ k) + 1) <= Z.of_nat budget ->
  0 <= v <= Z.of_nat (length s) ^ k - 1 ->
  exists key o1 o2,
    getKey budget o v = Ok (key, o1) /\ getValue budget o1 key = Ok (v, o2) /\
    Z.of_nat (length key) = k.
Proof.
  intros Hnd Hk o Hmult Hm Hgcd Hpair Hbk Hbm Hv. subst o.
  set (M := Z.of_nat (length s) ^ k) in *.
  assert (Hs : s <> []).
  { intros ->. subst M. simpl in Hv. rewrite Z.pow_0_l in Hv by lia. lia. }
  assert (Hlen : forall x, Z.of_nat (length (numeral s (Z.to_nat k) x)) = k)
    by (intros x; rewrite numeral_length; lia).
  destruct (Z.eq_dec v 0) as [-> | Hv0].
  - exists (numeral s (Z.to_nat k) 0). eexists. eexists.
    split; [apply getKey_zero; [exact Hnd | lia | exact Hs] |].
    split; [apply getValue_zero; [exact Hnd | exact Hs | lia] | apply Hlen].
  - destruct (getKey_positive budget s k ltac:(lia) mult m o' v Hmult Hm Hbk)
      as [Ho' Hkey]; [fold M; lia |].
    fold M in Hkey.
    pose proof (Z.mod_pos_bound (v * m) M ltac:(lia)) as Hraw.
    pose proof (coprime_scramble_nonzero m M v Hgcd ltac:(lia)) as Hnz.
    destruct (modInv_spec budget m M ltac:(lia) Hbm)
      as [[Hne _] | (_ & x & Hinv & Hx & Hmx)]; [congruence |].
    exists (numeral s (Z.to_nat k) ((v * m) mod M)), o', o'.
    split; [exact Hkey |]. split; [| apply Hlen]. rewrite Ho'.
    rewrite (getValue_numeral budget s Hnd k ltac:(lia) m _ x Hs Hpair); fold M;
      [| lia | exact Hinv | lia].
    do 2 f_equal.
    rewrite Z.mul_mod_idemp_l by lia.
    replace (v * m * x) with (v * (m * x)) by lia.
    rewrite <- Z.mul_mod_idemp_r, Hmx by lia.
    rewrite (Z.mod_small 1 M) by lia. rewrite Z.mul_1_r.
    apply Z.mod_small. lia.
Qed.

Lemma generated_multiplier (budget : nat) (s : list codeUnit) (k : Z) :
  0 <= k -> 20000 <= Z.of_nat budget ->
  2 <= Z.of_nat (length s) ^ k - 1 <= 1236063 ->
  let o := {| __alphabet := {| _alphabet := s; _base := Z.of_nat (length s) |};
              __keyLength := k;
              __maximumValue := Z.of_nat (length s) ^ k - 1;
              __multiplier := None |} in
  exists m o',
    multiplier budget o = Ok (m, o') /\ Z.prime m /\ Z.of_nat (length s) ^ k < m.
Proof.
  intros Hk Hb Hmax o. subst o. unfold multiplier. cbn [__multiplier].
  unfold generatePrimeMultiplier, generateNextPrime. cbn [__alphabet __keyLength].
  rewrite toFixedPointBigInt_PRIME_MULTIPLIER, bind_Ok_l.
  unfold Alphabet.getMaxValue, BigInt.pow. cbn [_base].
  destruct (Z.ltb_spec k 0); [lia |]. rewrite !bind_Ok_l.
  set (M := Z.of_nat (length s) ^ k) in *.
  unfold BigInt.div, FIXED_POINT_SCALE. cbn [Z.eqb]. rewrite bind_Ok_l.
  rewrite quot_nonneg by lia.
  set (target := (M - 1) * 1618033988749894912 / 1000000000000000000).
  assert (Htarget : M <= target < last_exact_prime).
  { unfold last_exact_prime. subst target. split.
    - apply Z.div_le_lower_bound; lia.
    - apply Z.div_lt_upper_bound; lia. }
  destruct (getNextPrime_exact budget target Hb ltac:(lia)) as (p & Hrun & Hp & Hlt).
  rewrite Hrun, bind_Ok_l. eexists. eexists.
  split; [reflexivity |]. split; [exact Hp | lia].
Qed.

(** X21. An instance without a supplied multiplier whose [maximumValue] is
    between 2 and 1,236,063 (so that the prime search stays below the
    2,000,000 threshold) generates a multiplier that is a prime greater
    than [maximumValue + 1]; with it, when keys have one character or the
    alphabet does not hold both a leading and a trailing surrogate,
    [getValue(getKey(v))] returns [v] for every [v] with
    [0 <= v <= maximumValue]. *)
Theorem generated_multiplier_roundtrip (budget : nat) (s : list codeUnit) (k : Z)
    (al : ObfuskeyAlphabet) (o : Obfuskey) (v : Z) :
  Alphabet.new s = Ok al -> 0 < k -> Obfuskey_new al k None = Ok o ->
  2 <= maximumValue o <= 1236063 -> 20000 <= Z.of_nat budget ->
  k = 1 \/ mixes_surrogates s = false ->
  0 <= v <= maximumValue o ->
  exists m o' key o1 o2,
    multiplier budget o = Ok (m, o') /\ Z.prime m /\ maximumValue o + 1 < m /\
    getKey budget o v = Ok (key, o1) /\ getValue budget o1 key = Ok (v, o2).
Proof.
  intros Hal Hk Hnew Hmax Hb Hpair Hv.
  apply Alphabet_new_inv in Hal. destruct Hal as [-> Hnd].
  apply Obfuskey_new_inv in Hnew. destruct Hnew as [_ ->].
  unfold maximumValue in *. cbn [__maximumValue _base] in *.
  destruct (generated_multiplier budget s k ltac:(lia) Hb Hmax)
    as (m & o' & Hmult & Hp & Hlt).
  set (M := Z.of_nat (length s) ^ k) in *.
  assert (Hlog : Z.log2 M < 21).
  { apply Z.log2_lt_pow2; [lia |]. apply (Z.lt_trans M 1236065); [lia | reflexivity]. }
  assert (Hkb : k <= 21).
  { destruct (Z.le_gt_cases k 21) as [| Hgt]; [assumption | exfalso].
    assert (HB : 2 <= Z.of_nat (length s)).
    { destruct (Z.le_gt_cases 2 (Z.of_nat (length s))) as [| Hsmall]; [assumption |].
      assert (Z.of_nat (length s) = 0 \/ Z.of_nat (length s) = 1) as [E | E] by lia;
        subst M; rewrite E in Hmax;
        [rewrite Z.pow_0_l in Hmax by lia | rewrite Z.pow_1_l in Hmax by lia]; lia. }
    assert (2 ^ 21 <= M).
    { subst M. apply Z.le_trans with (2 ^ k); [apply Z.pow_le_mono_r; lia |].
      apply Z.pow_le_mono_l; lia. }
    assert (2 ^ 21 = 2097152) by reflexivity. lia. }
  destruct (getKey_getValue_inverse budget s k None o' m v Hnd Hk Hmult)
    as (key & o1 & o2 & Hkey & Hval & _); try (fold M; lia); try exact Hpair.
  { fold M. apply Z.coprime_prime_small; [exact Hp | lia]. }
  exists m, o', key, o1, o2. split; [exact Hmult |]. split; [exact Hp |].
  split; [lia |]. split; assumption.
Qed.

Lemma generated_multiplier_roundtrip_witness :
  let s := JsString.lit "0123456789" in
  let al := {| _alphabet := s; _base := 10 |} in
  let o := {| __alphabet := al; __keyLength := 3;
              __maximumValue := 999; __multiplier := None |} in
  exists m o' key o1 o2,
    multiplier (Z.to_nat 20000) o = Ok (m, o') /\ Z.prime m /\
    maximumValue o + 1 < m /\
    getKey (Z.to_nat 20000) o 123 = Ok (key, o1) /\
    getValue (Z.to_nat 20000) o1 key = Ok (123, o2).
Proof.
  intros s al o.
  apply (generated_multiplier_roundtrip (Z.to_nat 20000) s 3 al o 123);
    [reflexivity | lia | reflexivity | vm_compute; split; discriminate
    | vm_compute; discriminate | right; reflexivity
    | vm_compute; split; discriminate].
Defined.

(** ** Schemas and the packer, continued *)

(** X22. The layout of a schema that the constructor accepts: [totalBits]
    is the sum of the field widths, [maximumValue] is [2^totalBits - 1],
    and [getFieldInfo] places each field directly above the fields listed
    after it, so the last field occupies the least significant bits; a name
    that is not in the schema is a ValueError. *)
Theorem schema_layout (schema : list FieldSchema) (sc : ObfusbitSchema.t) :
  ObfusbitSchema.new schema = Ok sc ->
  ObfusbitSchema.__totalBits sc = total_bits schema /\
  ObfusbitSchema.__maximumValue sc = 2 ^ total_bits schema - 1 /\
  (forall pre f post, schema = pre ++ f :: post ->
     ObfusbitSchema.getFieldInfo sc (name f) =
       Ok {| FieldInfo.bits := bits f; FieldInfo.shift := total_bits post |}) /\
  (forall x, x ∉ (name <$> schema) ->
     ObfusbitSchema.getFieldInfo sc x = Throw ValueError).
Proof.
  intros Hnew. unfold ObfusbitSchema.new in Hnew.
  destruct (validateSchema_spec schema) as [Hok Hbad]. cbn zeta in *.
  destruct (decide (Forall (fun f => 0 < bits f) schema /\ NoDup (name <$> schema)))
    as [[Hpos Hnd] | Hnot]; [| rewrite (Hbad Hnot) in Hnew; discriminate].
  rewrite (Hok (conj Hpos Hnd)), bind_Ok_l in Hnew.
  rewrite total_bits_foldl in Hnew. simpl (0 + _) in Hnew.
  injection Hnew as <-. cbn [ObfusbitSchema.__totalBits ObfusbitSchema.__maximumValue].
  split; [reflexivity |]. split.
  { rewrite Z.shiftl_1_l. reflexivity. }
  split.
  - intros pre f post ->. apply getFieldInfo_known; [exact Hpos |].
    now apply calculateFieldInfo_split.
  - intros x Hx. unfold ObfusbitSchema.getFieldInfo.
    cbn [ObfusbitSchema.__fieldNames].
    rewrite bool_decide_eq_false_2; [reflexivity |].
    now rewrite elem_of_list_to_set.
Qed.

Lemma schema_layout_witness :
  let schema := [{| name := "id"; bits := 10 |}; {| name := "type"; bits := 2 |};
                 {| name := "flag"; bits := 1 |}] in
  exists sc,
    ObfusbitSchema.new schema = Ok sc /\
    ObfusbitSchema.__totalBits sc = total_bits schema /\
    ObfusbitSchema.__maximumValue sc = 2 ^ total_bits schema - 1 /\
    (forall pre f post, schema = pre ++ f :: post ->
       ObfusbitSchema.getFieldInfo sc (name f) =
         Ok {| FieldInfo.bits := bits f; FieldInfo.shift := total_bits post |}) /\
    (forall x, x ∉ (name <$> schema) ->
       ObfusbitSchema.getFieldInfo sc x = Throw ValueError).
Proof.
  intros schema. eexists. split; [reflexivity |].
  apply (schema_layout schema). reflexivity.
Defined.

Lemma validateFields_loop_outcome (schema : list FieldSchema)
    (entries : list (string * Z)) :
  let s := {| ObfusbitSchema.__definition := schema;
              ObfusbitSchema.__totalBits := total_bits schema;
              ObfusbitSchema.__maximumValue := Z.shiftl 1 (total_bits schema) - 1;
              ObfusbitSchema.__fieldInfo := ObfusbitSchema.calculateFieldInfo schema;
              ObfusbitSchema.__fieldNames := list_to_set (map name schema) |} in
  (forall x v, (x, v) ∈ entries ->
     is_Some (JsObject.get (ObfusbitSchema.calculateFieldInfo schema) x)) ->
  (ObfusbitSchema.validateFields_loop s entries = Ok () /\
   forall x v info, (x, v) ∈ entries ->
     JsObject.get (ObfusbitSchema.calculateFieldInfo schema) x = Some info ->
     0 <= v < 2 ^ FieldInfo.bits info) \/
  (ObfusbitSchema.validateFields_loop s entries = Throw BitOverflowError /\
   exists x v info, (x, v) ∈ entries /\
     JsObject.get (ObfusbitSchema.calculateFieldInfo schema) x = Some info /\
     ~ 0 <= v < 2 ^ FieldInfo.bits info).
Proof.
  intros s. induction entries as [| [x v] entries IH]; intros Hknown.
  - left. split; [reflexivity |]. intros x v info Hin. inversion Hin.
  - cbn [ObfusbitSchema.validateFields_loop ObfusbitSchema.__fieldInfo s].
    destruct (Hknown x v ltac:(apply list_elem_of_here)) as [info Hinfo].
    rewrite Hinfo, Z.shiftl_1_l.
    destruct (Z.ltb_spec v 0) as [Hneg | Hnonneg]; cbn [orb].
    { right. split; [reflexivity |]. exists x, v, info.
      split; [apply list_elem_of_here |]. split; [exact Hinfo | lia]. }
    destruct (Z.leb_spec (2 ^ FieldInfo.bits info) v) as [Hbig | Hfit].
    { right. split; [reflexivity |]. exists x, v, info.
      split; [apply list_elem_of_here |]. split; [exact Hinfo | lia]. }
    destruct IH as [[Hrun Hall] | [Hrun (y & w & iy & Hin & Hy & Hbad)]].
    + intros y w Hin. apply (Hknown y w). now apply list_elem_of_further.
    + left. split; [exact Hrun |]. intros y w iy Hin Hy.
      apply elem_of_cons in Hin. destruct Hin as [Heq | Hin].
      * inversion Heq; subst. assert (iy = info) by congruence. subst iy. lia.
      * now apply (Hall y w iy).
    + right. split; [exact Hrun |]. exists y, w, iy.
      split; [now apply list_elem_of_further | split; assumption].
Qed.

(** X23. How [validateFields] classifies a record against an accepted
    schema: a schema field without a value is a SchemaValidationError; else
    a key that is not a schema field is a ValueError; else a value that is
    negative or does not fit its field, [v >= 2^bits], is a
    BitOverflowError; the record is accepted exactly when its keys are the
    schema's field names and every value fits. *)
Theorem validateFields_outcomes (schema : list FieldSchema)
    (sc : ObfusbitSchema.t) (values : gmap string Z) :
  ObfusbitSchema.new schema = Ok sc ->
  let missing := exists f, f ∈ schema /\ values !! name f = None in
  let extra := exists x, is_Some (values !! x) /\ x ∉ (name <$> schema) in
  let overflow :=
    exists f v, f ∈ schema /\ values !! name f = Some v /\ ~ 0 <= v < 2 ^ bits f in
  (missing /\
   ObfusbitSchema.validateFields sc values = Throw SchemaValidationError) \/
  (~ missing /\ extra /\
   ObfusbitSchema.validateFields sc values = Throw ValueError) \/
  (~ missing /\ ~ extra /\ overflow /\
   ObfusbitSchema.validateFields sc values = Throw BitOverflowError) \/
  (~ missing /\ ~ extra /\ ~ overflow /\
   ObfusbitSchema.validateFields sc values = Ok ()).
Proof.
  intros Hnew missing extra overflow. unfold ObfusbitSchema.new in Hnew.
  destruct (validateSchema_spec schema) as [Hok Hbad]. cbn zeta in *.
  destruct (decide (Forall (fun f => 0 < bits f) schema /\ NoDup (name <$> schema)))
    as [[Hpos Hnd] | Hnot]; [| rewrite (Hbad Hnot) in Hnew; discriminate].
  rewrite (Hok (conj Hpos Hnd)), bind_Ok_l in Hnew.
  rewrite total_bits_foldl in Hnew. simpl (0 + _) in Hnew.
  injection Hnew as <-.
  unfold ObfusbitSchema.validateFields. cbn [ObfusbitSchema.__fieldNames].
  change (map name schema) with (name <$> schema).
  set (names := list_to_set (name <$> schema) : gset string).
  destruct (filter (fun field => field ∉ dom values) (elements names))
    as [| x0 miss] eqn:Hmiss.
  2: { left. split; [| reflexivity].
       assert (Hx0 : x0 ∈ filter (fun field => field ∉ dom values) (elements names))
         by (rewrite Hmiss; apply list_elem_of_here).
       apply list_elem_of_filter in Hx0. destruct Hx0 as [Hnot Hin].
       apply elem_of_elements, elem_of_list_to_set, list_elem_of_fmap in Hin.
       destruct Hin as (f & -> & Hf). exists f. split; [exact Hf |].
       now apply not_elem_of_dom. }
  assert (Hnomiss : ~ missing).
  { intros (f & Hf & Hnone).
    assert (Hin : name f ∈ filter (fun field => field ∉ dom values) (elements names)).
    { apply list_elem_of_filter. split; [now apply not_elem_of_dom |].
      apply elem_of_elements, elem_of_list_to_set. now apply list_elem_of_fmap_2. }
    rewrite Hmiss in Hin. inversion Hin. }
  right. cbn [length Nat.ltb Nat.leb].
  destruct (filter (fun field => field ∉ names) (elements (dom values)))
    as [| x1 more] eqn:Hextra.
  2: { left. split; [exact Hnomiss |]. split; [| reflexivity].
       assert (Hx1 : x1 ∈ filter (fun field => field ∉ names) (elements (dom values)))
         by (rewrite Hextra; apply list_elem_of_here).
       apply list_elem_of_filter in Hx1. destruct Hx1 as [Hnot Hin].
       apply elem_of_elements, elem_of_dom in Hin.
       exists x1. split; [exact Hin |]. intros Hx. apply Hnot.
       now apply elem_of_list_to_set. }
  assert (Hnoextra : ~ extra).
  { intros (x & Hsome & Hx).
    assert (Hin : x ∈ filter (fun field => field ∉ names) (elements (dom values))).
    { apply list_elem_of_filter. split.
      - intros Hn. apply Hx. now apply elem_of_list_to_set in Hn.
      - apply elem_of_elements. now apply elem_of_dom. }
    rewrite Hextra in Hin. inversion Hin. }
  right. cbn [length Nat.ltb Nat.leb].
  assert (Hknown : forall x v, (x, v) ∈ map_to_list values ->
            x ∈ (name <$> schema)).
  { intros x v Hin. apply elem_of_map_to_list in Hin.
    destruct (decide (x ∈ (name <$> schema))) as [| Hx]; [assumption |].
    exfalso. apply Hnoextra. exists x. split; [eauto | exact Hx]. }
  destruct (validateFields_loop_outcome schema (map_to_list values))
    as [[Hrun Hall] | [Hrun (x & v & info & Hin & Hinfo & Hbadv)]].
  { intros x v Hin. apply Hknown in Hin. apply list_elem_of_fmap in Hin.
    destruct Hin as (f & -> & Hf).
    destruct (calculateFieldInfo_field schema f Hnd Hf) as (info & Hlook & _). eauto. }
  - right. split; [exact Hnomiss |]. split; [exact Hnoextra |].
    split; [| exact Hrun].
    intros (f & v & Hf & Hv & Hbadv). apply Hbadv.
    destruct (calculateFieldInfo_field schema f Hnd Hf) as (info & Hlook & Hbits).
    rewrite <- Hbits. apply (Hall (name f) v info); [| exact Hlook].
    now apply elem_of_map_to_list.
  - left. split; [exact Hnomiss |]. split; [exact Hnoextra |].
    split; [| exact Hrun].
    pose proof (Hknown x v Hin) as Hx. apply list_elem_of_fmap in Hx.
    destruct Hx as (f & -> & Hf).
    destruct (calculateFieldInfo_field schema f Hnd Hf) as (info' & Hlook & Hbits).
    assert (info' = info) by congruence. subst info'.
    exists f, v. split; [exact Hf |]. split; [now apply elem_of_map_to_list |].
    now rewrite <- Hbits.
Qed.

Lemma validateFields_outcomes_witness :
  let schema := [{| name := "a"; bits := 3 |}; {| name := "b"; bits := 4 |}] in
  let values : gmap string Z := <["a" := 8]> (<["b" := 9]> ∅) in
  exists sc,
    ObfusbitSchema.new schema = Ok sc /\
    let missing := exists f, f ∈ schema /\ values !! name f = None in
    let extra := exists x, is_Some (values !! x) /\ x ∉ (name <$> schema) in
    let overflow :=
      exists f v, f ∈ schema /\ values !! name f = Some v /\ ~ 0 <= v < 2 ^ bits f in
    (missing /\
     ObfusbitSchema.validateFields sc values = Throw SchemaValidationError) \/
    (~ missing /\ extra /\
     ObfusbitSchema.validateFields sc values = Throw ValueError) \/
    (~ missing /\ ~ extra /\ overflow /\
     ObfusbitSchema.validateFields sc values = Throw BitOverflowError) \/
    (~ missing /\ ~ extra /\ ~ overflow /\
     ObfusbitSchema.validateFields sc values = Ok ()).
Proof.
  intros schema values. eexists. split; [reflexivity |].
  apply (validateFields_outcomes schema). reflexivity.
Defined.

(** X24. The integer that [pack] returns for a valid record is in range:
    it is non-negative and at most the schema's [maximumValue], that is
    below [2^totalBits]. *)
Theorem pack_within_maximumValue (budget : nat) (schema : list FieldSchema)
    (ok : option Obfuskey) (b : Obfusbit.t) (values : gmap string Z) :
  Obfusbit.new (inl schema) ok = Ok b ->
  dom values = list_to_set (name <$> schema) ->
  (forall f v, f ∈ schema -> values !! name f = Some v -> 0 <= v < 2 ^ bits f) ->
  exists p,
    Obfusbit.pack budget b values false = Ok (PackedInt p, b) /\
    0 <= p <= Obfusbit.__maximumValue b /\
    Obfusbit.__maximumValue b = 2 ^ Obfusbit.__totalBits b - 1.
Proof.
  intros Hnew Hdom Hrange.
  destruct (Obfusbit_new_inv schema ok b Hnew) as (Hpos & Hnd & _ & Hs).
  assert (Hmax : Obfusbit.__maximumValue b = 2 ^ total_bits schema - 1 /\
                 Obfusbit.__totalBits b = total_bits schema).
  { unfold Obfusbit.new, ObfusbitSchema.new in Hnew.
    destruct (ObfusbitSchema.validateSchema schema) as [[] | |]; try discriminate.
    rewrite !bind_Ok_l in Hnew.
    destruct (match ok with Some o => _ | None => false end); [discriminate |].
    inversion Hnew; subst. simpl. rewrite total_bits_foldl, Z.shiftl_1_l.
    split; [reflexivity | lia]. }
  destruct Hmax as [Hmax Htot].
  destruct (pack_loop_packed schema values Hpos Hnd Hdom Hrange)
    as (p & Hrun & _ & Hp & _).
  exists p. split.
  - unfold Obfusbit.pack. rewrite Hs.
    rewrite (validateFields_ok schema Hnd values Hdom Hrange), bind_Ok_l.
    cbn [ObfusbitSchema.__fieldInfo]. rewrite Hrun, bind_Ok_l. reflexivity.
  - rewrite Hmax, Htot. split; [lia | reflexivity].
Qed.

Lemma pack_within_maximumValue_witness :
  let schema := [{| name := "a"; bits := 3 |}; {| name := "b"; bits := 4 |}] in
  let values : gmap string Z := <["a" := 7]> (<["b" := 15]> ∅) in
  exists b,
    Obfusbit.new (inl schema) None = Ok b /\
    exists p,
      Obfusbit.pack 0 b values false = Ok (PackedInt p, b) /\
      0 <= p <= Obfusbit.__maximumValue b /\
      Obfusbit.__maximumValue b = 2 ^ Obfusbit.__totalBits b - 1.
Proof.
  intros schema values. eexists. split; [reflexivity |].
  apply (pack_within_maximumValue 0 schema None).
  - reflexivity.
  - subst schema values. apply set_eq. intros x.
    rewrite elem_of_dom, elem_of_list_to_set. simpl.
    rewrite !elem_of_cons, elem_of_nil.
    destruct (decide (x = "a")) as [-> |]; [rewrite lookup_insert_eq; split; eauto |].
    rewrite lookup_insert_ne by congruence.
    destruct (decide (x = "b")) as [-> |]; [rewrite lookup_insert_eq; split; eauto |].
    rewrite lookup_insert_ne, lookup_empty by congruence.
    split; [intros [? ?]; discriminate | tauto].
  - intros f v Hf Hv. subst schema values.
    apply list_elem_of_In in Hf. simpl in Hf.
    destruct Hf as [<- | [<- | []]]; vm_compute in Hv; inversion Hv; subst;
      simpl; lia.
Defined.

Lemma delete_proto_absent (schema : list FieldSchema) (values : gmap string Z) :
  dom values = list_to_set (name <$> schema) ->
  Forall (fun f => name f <> "__proto__"%string) schema ->
  delete "__proto__"%string values = values.
Proof.
  intros Hdom Hnames. apply delete_id.
  apply not_elem_of_dom. rewrite Hdom, elem_of_list_to_set.
  intros Hin. apply list_elem_of_fmap in Hin. destruct Hin as (f & Hname & Hf).
  rewrite Forall_forall in Hnames. now apply (Hnames f Hf).
Qed.

(** X25. Packing with obfuscation round-trips: for a packer built from a
    schema without a field named [__proto__] and an Obfuskey whose
    multiplier is positive and coprime to [maximumValue + 1], and whose keys
    have one character or whose alphabet does not hold both a leading and a
    trailing surrogate, [pack(values, true)] of a valid record returns a
    key of [keyLength] characters, and [unpack(key, true)] returns the
    record; with a field named [__proto__] it returns the other fields
    only.  (The constructor has checked that the Obfuskey can hold the
    schema's maximum value, so [getKey] cannot overflow.) *)
Theorem pack_unpack_obfuscated_roundtrip (budget : nat) (s : list codeUnit) (k : Z)
    (mult : option Z) (al : ObfuskeyAlphabet) (o o' : Obfuskey) (m : Z)
    (schema : list FieldSchema) (b : Obfusbit.t) (values : gmap string Z) :
  Alphabet.new s = Ok al -> 0 < k -> Obfuskey_new al k mult = Ok o ->
  multiplier budget o = Ok (m, o') -> 0 < m ->
  Z.gcd m (maximumValue o + 1) = 1 ->
  k = 1 \/ mixes_surrogates s = false ->
  k <= Z.of_nat budget ->
  2 * (Z.log2 (maximumValue o + 1) + 1) <= Z.of_nat budget ->
  Obfusbit.new (inl schema) (Some o) = Ok b ->
  dom values = list_to_set (name <$> schema) ->
  (forall f v, f ∈ schema -> values !! name f = Some v -> 0 <= v < 2 ^ bits f) ->
  exists key b1 b2,
    Obfusbit.pack budget b values true = Ok (PackedKey key, b1) /\
    Z.of_nat (length key) = k /\
    Obfusbit.unpack budget b1 (PackedKey key) true =
      Ok (delete "__proto__"%string values, b2) /\
    (Forall (fun f => name f <> "__proto__"%string) schema ->
     Obfusbit.unpack budget b1 (PackedKey key) true = Ok (values, b2)).
Proof.
  intros Hal Hk Hobf Hmult Hm Hgcd Hpair Hbk Hbm Hnew Hdom Hrange.
  destruct (Obfusbit_new_inv schema (Some o) b Hnew) as (Hpos & Hnd & Hok & Hs).
  assert (Hcap : 2 ^ total_bits schema - 1 <= maximumValue o).
  { unfold Obfusbit.new, ObfusbitSchema.new in Hnew.
    destruct (ObfusbitSchema.validateSchema schema) as [[] | |]; try discriminate.
    rewrite !bind_Ok_l in Hnew. cbn [ObfusbitSchema.__maximumValue] in Hnew.
    rewrite total_bits_foldl, Z.shiftl_1_l, Z.add_0_l in Hnew.
    destruct (Z.ltb_spec (maximumValue o) (2 ^ total_bits schema - 1));
      [discriminate | lia]. }
  apply Alphabet_new_inv in Hal. destruct Hal as [-> Hnd_s].
  apply Obfuskey_new_inv in Hobf. destruct Hobf as [_ ->].
  unfold maximumValue in *. cbn [__maximumValue _base] in *.
  replace (Z.of_nat (length s) ^ k - 1 + 1) with (Z.of_nat (length s) ^ k)
    in * by lia.
  destruct (pack_loop_packed schema values Hpos Hnd Hdom Hrange)
    as (p & Hrun & Hunpack & Hp & _).
  destruct (getKey_getValue_inverse budget s k mult o' m p Hnd_s Hk Hmult Hm Hgcd
              Hpair Hbk Hbm ltac:(lia)) as (key & o1 & o2 & Hkey & Hval & Hlen).
  assert (Hback : Obfusbit.unpack budget
            {| Obfusbit.__schema := Obfusbit.__schema b;
               Obfusbit.__obfuskey := Some o1;
               Obfusbit.__totalBits := Obfusbit.__totalBits b;
               Obfusbit.__maximumValue := Obfusbit.__maximumValue b |}
            (PackedKey key) true =
          Ok (delete "__proto__"%string values,
              {| Obfusbit.__schema := Obfusbit.__schema b;
                 Obfusbit.__obfuskey := Some o2;
                 Obfusbit.__totalBits := Obfusbit.__totalBits b;
                 Obfusbit.__maximumValue := Obfusbit.__maximumValue b |})).
  { unfold Obfusbit.unpack. cbn [Obfusbit.__obfuskey Obfusbit.__schema].
    rewrite Hval, !bind_Ok_l.
    cbn [Obfusbit.__obfuskey Obfusbit.__schema Obfusbit.__totalBits
         Obfusbit.__maximumValue].
    rewrite Hs. cbn [ObfusbitSchema.__definition].
    rewrite Hunpack, bind_Ok_l. reflexivity. }
  exists key. eexists. eexists. split; [| split; [exact Hlen | split]].
  - unfold Obfusbit.pack. rewrite Hs.
    rewrite (validateFields_ok schema Hnd values Hdom Hrange), bind_Ok_l.
    cbn [ObfusbitSchema.__fieldInfo]. rewrite Hrun, bind_Ok_l. cbn [negb].
    rewrite Hok, Hkey, bind_Ok_l. rewrite <- Hs. reflexivity.
  - exact Hback.
  - intros Hnames. rewrite Hback.
    now rewrite (delete_proto_absent schema values Hdom Hnames).
Qed.

Lemma pack_unpack_obfuscated_roundtrip_witness :
  let s := JsString.lit "0123456789abcdef" in
  let al := {| _alphabet := s; _base := 16 |} in
  let o := {| __alphabet := al; __keyLength := 2;
              __maximumValue := 255; __multiplier := Some 7 |} in
  let schema := [{| name := "a"; bits := 3 |}; {| name := "b"; bits := 4 |}] in
  let values : gmap string Z := <["a" := 5]> (<["b" := 9]> ∅) in
  exists b,
    Obfusbit.new (inl schema) (Some o) = Ok b /\
    exists key b1 b2,
      Obfusbit.pack 20 b values true = Ok (PackedKey key, b1) /\
      Z.of_nat (length key) = 2 /\
      Obfusbit.unpack 20 b1 (PackedKey key) true =
        Ok (delete "__proto__"%string values, b2) /\
      (Forall (fun f => name f <> "__proto__"%string) schema ->
       Obfusbit.unpack 20 b1 (PackedKey key) true = Ok (values, b2)).
Proof.
  intros s al o schema values. eexists. split; [reflexivity |].
  apply (pack_unpack_obfuscated_roundtrip 20 s 2 (Some 7) al o o 7 schema);
    try reflexivity; try lia; try (vm_compute; discriminate);
    try (right; reflexivity).
  intros f v Hf Hv. subst schema values.
  apply list_elem_of_In in Hf. simpl in Hf.
  destruct Hf as [<- | [<- | []]]; vm_compute in Hv; inversion Hv; subst;
    simpl; lia.
Defined.

Lemma getKey_numeral (budget : nat) (s : list codeUnit) (k : Z) (mult : option Z)
    (o' : Obfuskey) (m v : Z) :
  NoDup s -> 0 < k ->
  let o := {| __alphabet := {| _alphabet := s; _base := Z.of_nat (length s) |};
              __keyLength := k;
              __maximumValue := Z.of_nat (length s) ^ k - 1;
              __multiplier := mult |} in
  multiplier budget o = Ok (m, o') -> 0 < m -> k <= Z.of_nat budget ->
  0 <= v <= Z.of_nat (length s) ^ k - 1 ->
  exists o1,
    getKey budget o v =
      Ok (numeral s (Z.to_nat k) ((v * m) mod Z.of_nat (length s) ^ k), o1).
Proof.
  intros Hnd Hk o Hmult Hm Hbk Hv. subst o.
  assert (Hs : s <> []).
  { intros ->. simpl in Hv. rewrite Z.pow_0_l in Hv by lia. lia. }
  destruct (Z.eq_dec v 0) as [-> | Hv0].
  - eexists. rewrite Z.mul_0_l, Zmod_0_l.
    apply getKey_zero; [exact Hnd | lia | exact Hs].
  - destruct (getKey_positive budget s k ltac:(lia) mult m o' v Hmult Hm Hbk)
      as [_ Hkey]; [lia |].
    exists o'. exact Hkey.
Qed.

(** X26. [getKey] gives distinct keys to distinct values: for an instance
    whose multiplier is positive and coprime to [maximumValue + 1], two
    values in [[0, maximumValue]] that [getKey] maps to the same key are
    equal. *)
Theorem getKey_injective (budget : nat) (s : list codeUnit) (k : Z)
    (mult : option Z) (al : ObfuskeyAlphabet) (o o' : Obfuskey) (m v1 v2 : Z)
    (key : list codeUnit) (o1 o2 : Obfuskey) :
  Alphabet.new s = Ok al -> 0 < k -> Obfuskey_new al k mult = Ok o ->
  multiplier budget o = Ok (m, o') -> 0 < m ->
  Z.gcd m (maximumValue o + 1) = 1 ->
  k <= Z.of_nat budget ->
  0 <= v1 <= maximumValue o -> 0 <= v2 <= maximumValue o ->
  getKey budget o v1 = Ok (key, o1) -> getKey budget o v2 = Ok (key, o2) ->
  v1 = v2.
Proof.
  intros Hal Hk Hnew Hmult Hm Hgcd Hbk Hv1 Hv2 Hk1 Hk2.
  apply Alphabet_new_inv in Hal. destruct Hal as [-> Hnd].
  apply Obfuskey_new_inv in Hnew. destruct Hnew as [_ ->].
  unfold maximumValue in *. cbn [__maximumValue _base] in *.
  destruct (getKey_numeral budget s k mult o' m v1 Hnd Hk Hmult Hm Hbk Hv1)
    as (x1 & Hn1).
  destruct (getKey_numeral budget s k mult o' m v2 Hnd Hk Hmult Hm Hbk Hv2)
    as (x2 & Hn2).
  rewrite Hn1 in Hk1. rewrite Hn2 in Hk2.
  set (M := Z.of_nat (length s) ^ k) in *.
  replace (M - 1 + 1) with M in * by lia.
  assert (HM : 0 < M) by lia.
  pose proof (Z.mod_pos_bound (v1 * m) M HM) as Hr1.
  pose proof (Z.mod_pos_bound (v2 * m) M HM) as Hr2.
  assert (Hraw : (v1 * m) mod M = (v2 * m) mod M).
  { injection Hk1 as Hkey1 _. injection Hk2 as Hkey2 _.
    apply (numeral_inj s Hnd (Z.to_nat k));
      [rewrite Z2Nat.id by lia; exact Hr1 | rewrite Z2Nat.id by lia; exact Hr2 |].
    congruence. }
  assert (Hdiv : (M | (v1 - v2) * m)).
  { apply Z.mod_divide; [lia |].
    rewrite Z.mul_sub_distr_r, Zminus_mod, Hraw, Z.sub_diag. apply Zmod_0_l. }
  rewrite Z.mul_comm in Hdiv. apply Z.gauss in Hdiv; [| now rewrite Z.gcd_comm].
  destruct Hdiv as [q Hq].
  assert (q = 0) by nia. lia.
Qed.

Lemma getKey_injective_witness :
  let s := JsString.lit "ab" in
  let al := {| _alphabet := s; _base := 2 |} in
  let o := {| __alphabet := al; __keyLength := 3;
              __maximumValue := 7; __multiplier := Some 5 |} in
  getKey 10 o 6 = Ok (JsString.lit "bba", o) /\ 6 = 6.
Proof.
  intros s al o. split; [reflexivity |].
  apply (getKey_injective 10 s 3 (Some 5) al o o 5 6 6
           (JsString.lit "bba") o o);
    first [reflexivity | lia | (vm_compute; split; discriminate)].
Defined.

(** ** Byte sequences *)

Lemma digits2_pos_size (p : positive) : digits2_pos p = Pos.size p.
Proof. induction p as [p IH | p IH |]; simpl; now rewrite ?IH. Qed.

Lemma digits2_bounds (p : positive) :
  2 ^ (Z.pos (digits2_pos p) - 1) <= Z.pos p < 2 ^ Z.pos (digits2_pos p).
Proof.
  rewrite digits2_pos_size.
  pose proof (Z.log2_spec (Z.pos p) ltac:(lia)) as H.
  assert (E : Z.pos (Pos.size p) = Z.log2 (Z.pos p) + 1).
  { destruct p; simpl; lia. }
  rewrite E. replace (Z.log2 (Z.pos p) + 1 - 1) with (Z.log2 (Z.pos p)) by lia.
  unfold Z.succ in H. exact H.
Qed.

Lemma digits2_unique (p : positive) (d : Z) :
  2 ^ (d - 1) <= Z.pos p < 2 ^ d -> Z.pos (digits2_pos p) = d.
Proof.
  intros H. pose proof (digits2_bounds p) as Hp.
  assert (0 < d).
  { destruct (Z.lt_trichotomy 0 d) as [| [<- | Hneg]]; [assumption | simpl in H; lia |].
    rewrite (Z.pow_neg_r 2 d) in H by lia. lia. }
  destruct (Z.lt_trichotomy (Z.pos (digits2_pos p)) d) as [Hlt | [E | Hgt]];
    [| exact E |]; exfalso.
  - assert (2 ^ Z.pos (digits2_pos p) <= 2 ^ (d - 1)) by (apply Z.pow_le_mono_r; lia).
    lia.
  - assert (2 ^ d <= 2 ^ (Z.pos (digits2_pos p) - 1)) by (apply Z.pow_le_mono_r; lia).
    lia.
Qed.

Lemma iter_xO_value (p k : positive) :
  Z.pos (Pos.iter xO p k) = Z.pos p * 2 ^ Z.pos k.
Proof.
  induction k as [| k IH] using Pos.peano_ind.
  - simpl. lia.
  - rewrite Pos.iter_succ, Pos2Z.inj_succ, Z.pow_succ_r by lia.
    rewrite Pos2Z.inj_xO, IH. ring.
Qed.

(** [Number(n)] for a positive BigInt below [2^53] is exact: the mantissa is
    [n] shifted to 53 bits. *)
Lemma ofBigInt_exact (p : positive) :
  Z.pos p < 2 ^ 53 ->
  exists m,
    Number.ofBigInt (Z.pos p) = S754_finite false m (Z.pos (digits2_pos p) - 53) /\
    Z.pos m = Z.pos p * 2 ^ (53 - Z.pos (digits2_pos p)) /\
    Z.pos (digits2_pos m) = 53.
Proof.
  intros Hp. pose proof (digits2_bounds p) as Hd.
  set (d := Z.pos (digits2_pos p)) in *.
  assert (Hd53 : 0 < d <= 53).
  { split; [subst d; lia |].
    destruct (Z.le_gt_cases d 53); [assumption | exfalso].
    assert (2 ^ 53 <= 2 ^ (d - 1)) by (apply Z.pow_le_mono_r; lia). lia. }
  unfold Number.ofBigInt, binary_normalize, binary_round, shl_align.
  assert (Hfexp : fexp Number.prec Number.emax (Z.pos (digits2_pos p) + 0) = d - 53).
  { unfold fexp, emin, Number.prec, Number.emax. fold d. lia. }
  rewrite Hfexp, Z.sub_0_r.
  assert (Hm : exists m, (match d - 53 with
                          | Z.neg k => (Pos.iter xO p k, d - 53)
                          | _ => (p, 0)
                          end) = (m, d - 53) /\
                         Z.pos m = Z.pos p * 2 ^ (53 - d)).
  { destruct (d - 53) as [| k | k] eqn:E; [| lia |].
    - exists p. replace (53 - d) with 0 by lia. split; [reflexivity | lia].
    - exists (Pos.iter xO p k). split; [reflexivity |].
      rewrite iter_xO_value. f_equal. f_equal. lia. }
  destruct Hm as (m & -> & Hm).
  assert (Hdm : Z.pos (digits2_pos m) = 53).
  { apply digits2_unique. rewrite Hm.
    replace (2 ^ (53 - 1)) with (2 ^ (d - 1) * 2 ^ (53 - d))
      by (rewrite <- Z.pow_add_r by lia; f_equal; lia).
    replace (2 ^ 53) with (2 ^ d * 2 ^ (53 - d))
      by (rewrite <- Z.pow_add_r by lia; f_equal; lia).
    assert (0 < 2 ^ (53 - d)) by (apply Z.pow_pos_nonneg; lia). nia. }
  exists m. split; [| split; assumption].
  unfold binary_round_aux, shr_fexp, shr_record_of_loc. cbn [Zdigits2].
  assert (Hf2 : fexp Number.prec Number.emax (Z.pos (digits2_pos m) + (d - 53))
                - (d - 53) = 0).
  { rewrite Hdm. unfold fexp, emin, Number.prec, Number.emax. lia. }
  rewrite Hf2. cbn [shr shr_m loc_of_shr_record round_nearest_even Zdigits2].
  rewrite Hf2. cbn [shr shr_m].
  unfold Number.prec, Number.emax.
  destruct (Z.leb_spec (d - 53) (1024 - 53)); [reflexivity | lia].
Qed.

Lemma div_8_core (m : positive) (e : Z) :
  Z.pos (digits2_pos m) = 53 -> -1000 <= e <= 900 ->
  SFdiv_core_binary Number.prec Number.emax (Z.pos m) e 4503599627370496 (-49)
  = (Z.pos m~0, e - 4, loc_Exact).
Proof.
  intros Hd He. unfold SFdiv_core_binary. cbn [Zdigits2]. rewrite Hd.
  change (Z.pos (digits2_pos 4503599627370496)) with 53.
  assert (He' : Z.min (fexp Number.prec Number.emax (53 + e - (53 + -49))) (e - -49)
                = e - 4).
  { unfold fexp, emin, Number.prec, Number.emax. lia. }
  rewrite He'. replace (e - -49 - (e - 4)) with 53 by lia.
  assert (Hdiv : Z.div_eucl (Z.shiftl (Z.pos m) 53) 4503599627370496
                 = (Z.pos m~0, 0)).
  { pose proof (Z.div_eucl_eq (Z.shiftl (Z.pos m) 53) 4503599627370496 ltac:(lia)) as Heq.
    pose proof (Z.mod_pos_bound (Z.shiftl (Z.pos m) 53) 4503599627370496 ltac:(lia)) as Hr.
    unfold Z.modulo in Hr.
    destruct (Z.div_eucl (Z.shiftl (Z.pos m) 53) 4503599627370496) as [q r].
    rewrite Z.shiftl_mul_pow2 in Heq by lia.
    change (2 ^ 53) with (2 * 4503599627370496) in Heq.
    assert (q = 2 * Z.pos m) by nia. assert (r = 0) by nia. subst. reflexivity. }
  rewrite Hdiv. reflexivity.
Qed.

(** Dividing a normalised Number by [8] lowers its exponent by three. *)
Lemma div_8_exact (m : positive) (e : Z) :
  Z.pos (digits2_pos m) = 53 -> -1000 <= e <= 900 ->
  Js.div (S754_finite false m e) (Number.ofBigInt 8) = S754_finite false m (e - 3).
Proof.
  intros Hd He.
  change (Number.ofBigInt 8) with (S754_finite false 4503599627370496 (-49)).
  unfold Js.div, SFdiv. rewrite (div_8_core m e Hd He). cbn [xorb].
  unfold binary_round_aux, shr_fexp, shr_record_of_loc. cbn [Zdigits2 digits2_pos].
  rewrite Pos2Z.inj_succ, Hd.
  assert (Hf1 : fexp Number.prec Number.emax (Z.succ 53 + (e - 4)) - (e - 4) = 1).
  { unfold fexp, emin, Number.prec, Number.emax. lia. }
  rewrite Hf1. cbn [shr SpecFloat.iter_pos shr_1 orb shr_m loc_of_shr_record
                    round_nearest_even Zdigits2].
  rewrite Hd.
  assert (Hf2 : fexp Number.prec Number.emax (53 + (e - 4 + 1)) - (e - 4 + 1) = 0).
  { unfold fexp, emin, Number.prec, Number.emax. lia. }
  rewrite Hf2. cbn [shr shr_m]. unfold Number.prec, Number.emax.
  destruct (Z.leb_spec (e - 4 + 1) (1024 - 53)); [| lia].
  f_equal. lia.
Qed.

Lemma ceil_div_opp (a b : Z) : 0 < b -> - (- a / b) = (a + b - 1) / b.
Proof.
  intros Hb. pose proof (Z.div_mod (- a) b ltac:(lia)) as H1.
  pose proof (Z.mod_pos_bound (- a) b Hb) as H2.
  apply (Z.div_unique (a + b - 1) b (- (- a / b)) (b - 1 - (- a) mod b)); lia.
Qed.

(** The byte length of [t] bits, for [t] below [2^53]. *)
Lemma byteLength_exact (t : Z) :
  0 <= t < 2 ^ 53 ->
  let byteLength := Js.ceil (Js.div (Number.ofBigInt t) (Number.ofBigInt 8)) in
  Js.toIndex byteLength = Ok ((t + 7) / 8) /\
  byteLength = Number.ofBigInt ((t + 7) / 8).
Proof.
  intros Ht byteLength. subst byteLength.
  destruct t as [| p | p]; [split; reflexivity | | lia].
  destruct (ofBigInt_exact p ltac:(lia)) as (m & -> & Hm & Hdm).
  pose proof (digits2_bounds p) as Hd.
  set (d := Z.pos (digits2_pos p)) in *.
  assert (Hd53 : 0 < d <= 53).
  { split; [subst d; lia |].
    destruct (Z.le_gt_cases d 53); [assumption | exfalso].
    assert (2 ^ 53 <= 2 ^ (d - 1)) by (apply Z.pow_le_mono_r; lia). lia. }
  rewrite div_8_exact by (try assumption; lia).
  unfold Js.ceil. destruct (Z.leb_spec 0 (d - 53 - 3)); [lia |].
  cbn [cond_Zopp].
  assert (Hr : - (- Z.pos m / 2 ^ (- (d - 53 - 3))) = (Z.pos p + 7) / 8).
  { rewrite ceil_div_opp by (apply Z.pow_pos_nonneg; lia).
    rewrite Hm. replace (- (d - 53 - 3)) with (53 - d + 3) by lia.
    rewrite Z.pow_add_r by lia. change (2 ^ 3) with 8.
    set (c := 2 ^ (53 - d)).
    assert (Hc : 0 < c) by (apply Z.pow_pos_nonneg; lia).
    pose proof (Z.div_mod (Z.pos p + 7) 8 ltac:(lia)) as Hq.
    pose proof (Z.mod_pos_bound (Z.pos p + 7) 8 ltac:(lia)) as Hrem.
    symmetry.
    apply (Z.div_unique _ (c * 8) ((Z.pos p + 7) / 8)
             (c * ((Z.pos p + 7) mod 8) + (c - 1))); nia. }
  rewrite Hr.
  assert (Hpos : 0 < (Z.pos p + 7) / 8).
  { apply Z.div_str_pos. lia. }
  destruct ((Z.pos p + 7) / 8) as [| r | r] eqn:Er; try lia.
  cbn [Z.eqb]. change (binary_normalize Number.prec Number.emax (Z.pos r) 0 false)
    with (Number.ofBigInt (Z.pos r)).
  assert (Hr53 : Z.pos r < 2 ^ 53).
  { rewrite <- Er. apply Z.div_lt_upper_bound; lia. }
  destruct (ofBigInt_exact r Hr53) as (mr & Hof & Hmr & Hdmr). rewrite Hof.
  pose proof (digits2_bounds r) as Hdr.
  set (dr := Z.pos (digits2_pos r)) in *.
  assert (Hdr53 : 0 < dr <= 53).
  { split; [subst dr; lia |].
    destruct (Z.le_gt_cases dr 53); [assumption | exfalso].
    assert (2 ^ 53 <= 2 ^ (dr - 1)) by (apply Z.pow_le_mono_r; lia). lia. }
  split.
  - unfold Js.toIndex. cbn [cond_Zopp].
    assert (Hval : (if 0 <=? dr - 53 then Z.pos mr * 2 ^ (dr - 53)
                    else Z.quot (Z.pos mr) (2 ^ (- (dr - 53)))) = Z.pos r).
    { destruct (Z.leb_spec 0 (dr - 53)).
      - rewrite Hmr. replace (53 - dr) with 0 by lia.
        replace (dr - 53) with 0 by lia. simpl. lia.
      - rewrite Hmr. replace (- (dr - 53)) with (53 - dr) by lia.
        rewrite quot_nonneg by (try apply Z.pow_pos_nonneg; lia).
        apply Z.div_mul. assert (0 < 2 ^ (53 - dr)) by (apply Z.pow_pos_nonneg; lia).
        lia. }
    rewrite Hval.
    destruct (Z.ltb_spec (Z.pos r) 0); [lia |].
    destruct (Z.ltb_spec (2 ^ 53 - 1) (Z.pos r)); [lia | reflexivity].
  - reflexivity.
Qed.

(** [===] on the Numbers of two BigInts below [2^53] is their equality. *)
Lemma strictEquals_ofBigInt (a b : Z) :
  0 <= a < 2 ^ 53 -> 0 <= b < 2 ^ 53 ->
  Js.strictEquals (Number.ofBigInt a) (Number.ofBigInt b) = true <-> a = b.
Proof.
  intros Ha Hb. split.
  2: { intros <-. destruct a as [| p | p]; [reflexivity | | lia].
       destruct (ofBigInt_exact p ltac:(lia)) as (m & -> & _).
       unfold Js.strictEquals, SFeqb, SFcompare.
       now rewrite Z.compare_refl, Pos.compare_cont_refl. }
  destruct a as [| p | p], b as [| q | q]; try lia; try reflexivity.
  - destruct (ofBigInt_exact q ltac:(lia)) as (m & -> & _). discriminate.
  - destruct (ofBigInt_exact p ltac:(lia)) as (m & -> & _). discriminate.
  - destruct (ofBigInt_exact p ltac:(lia)) as (mp & -> & Hmp & _).
    destruct (ofBigInt_exact q ltac:(lia)) as (mq & -> & Hmq & _).
    unfold Js.strictEquals, SFeqb, SFcompare.
    destruct (Z.compare_spec (Z.pos (digits2_pos p) - 53) (Z.pos (digits2_pos q) - 53))
      as [E | E | E]; try discriminate.
    destruct (Pos.compare_cont Eq mp mq) eqn:Ec; try discriminate.
    intros _. apply (Pos.compare_eq_iff mp mq) in Ec. subst mq.
    assert (E' : Z.pos (digits2_pos p) = Z.pos (digits2_pos q)) by lia.
    rewrite Hmp, E' in Hmq.
    assert (0 < 2 ^ (53 - Z.pos (digits2_pos q))).
    { apply Z.pow_pos_nonneg; [lia |].
      pose proof (digits2_bounds q) as Hd.
      destruct (Z.le_gt_cases (Z.pos (digits2_pos q)) 53); [lia | exfalso].
      assert (2 ^ 53 <= 2 ^ (Z.pos (digits2_pos q) - 1))
        by (apply Z.pow_le_mono_r; lia).
      lia. }
    nia.
Qed.

Import ObfusbitBytes.

Lemma byte_of (temp : Z) :
  0 <= temp -> Z.land temp 255 = temp mod 256 /\ Z.shiftr temp 8 = temp / 256.
Proof.
  intros Ht. split.
  - change 255 with (Z.ones 8). now rewrite Z.land_ones by lia.
  - now rewrite Z.shiftr_div_pow2 by lia.
Qed.

Lemma intToBytes_loop_little (fuel : nat) (L i : Z) (pre : list Z) (temp : Z) :
  0 <= temp -> 0 <= i <= L -> L - i <= Z.of_nat fuel -> Z.of_nat (length pre) = i ->
  intToBytes_loop fuel L little i (pre ++ replicate (Z.to_nat (L - i)) 0) temp =
    Ok (pre ++ le_digits (Z.to_nat (L - i)) 256 temp).
Proof.
  revert i pre temp. induction fuel as [| fuel IH]; intros i pre temp Ht Hi Hf Hpre.
  - replace (L - i) with 0 by lia. simpl.
    now replace (i <? L) with false by lia.
  - cbn [intToBytes_loop]. destruct (Z.ltb_spec i L) as [Hlt | Hge].
    + destruct (byte_of temp Ht) as [-> ->].
      replace (Z.to_nat (L - i)) with (S (Z.to_nat (L - (i + 1)))) by lia.
      cbn [replicate le_digits].
      rewrite insert_app_r_alt by lia.
      replace (Z.to_nat i - length pre)%nat with 0%nat by lia.
      cbn [insert list_insert].
      replace (pre ++ temp mod 256 :: replicate (Z.to_nat (L - (i + 1))) 0)
        with ((pre ++ [temp mod 256]) ++ replicate (Z.to_nat (L - (i + 1))) 0)
        by (now rewrite <- app_assoc).
      rewrite IH; [now rewrite <- app_assoc | apply Z.div_pos; lia | lia | lia |].
      rewrite length_app. simpl. lia.
    + replace (L - i) with 0 by lia. reflexivity.
Qed.

Lemma intToBytes_loop_big (fuel : nat) (L i : Z) (suf : list Z) (temp : Z) :
  0 <= temp -> 0 <= i <= L -> L - i <= Z.of_nat fuel -> Z.of_nat (length suf) = i ->
  intToBytes_loop fuel L big i (replicate (Z.to_nat (L - i)) 0 ++ suf) temp =
    Ok (rev (le_digits (Z.to_nat (L - i)) 256 temp) ++ suf).
Proof.
  revert i suf temp. induction fuel as [| fuel IH]; intros i suf temp Ht Hi Hf Hsuf.
  - replace (L - i) with 0 by lia. simpl.
    now replace (i <? L) with false by lia.
  - cbn [intToBytes_loop]. destruct (Z.ltb_spec i L) as [Hlt | Hge].
    + destruct (byte_of temp Ht) as [-> ->].
      replace (Z.to_nat (L - i)) with (S (Z.to_nat (L - (i + 1)))) by lia.
      rewrite replicate_S_end. cbn [le_digits rev].
      rewrite <- !app_assoc. cbn [app].
      rewrite insert_app_r_alt by (rewrite length_replicate; lia).
      rewrite length_replicate.
      replace (Z.to_nat (L - 1 - i) - Z.to_nat (L - (i + 1)))%nat with 0%nat by lia.
      cbn [insert list_insert].
      apply IH; [apply Z.div_pos; lia | lia | lia | simpl; lia].
    + replace (L - i) with 0 by lia. reflexivity.
Qed.

Lemma hexValue_digit (d : Z) :
  0 <= d < 16 ->
  exists c, take 1 (drop (Z.to_nat d) Js.hexDigits) = [c] /\ Js.hexValue c = Some d.
Proof.
  intros Hd.
  assert (Hcases : d = 0 \/ d = 1 \/ d = 2 \/ d = 3 \/ d = 4 \/ d = 5 \/ d = 6 \/
                   d = 7 \/ d = 8 \/ d = 9 \/ d = 10 \/ d = 11 \/ d = 12 \/
                   d = 13 \/ d = 14 \/ d = 15) by lia.
  repeat (destruct Hcases as [-> | Hcases]; [eexists; split; reflexivity |]).
  subst d. eexists; split; reflexivity.
Qed.

Lemma parseHex_byte (byte : Z) (rest : list codeUnit) (acc : Z) :
  0 <= byte < 256 ->
  Js.parseHex (JsString.padStart (Js.toString16 byte) 2 (JsString.lit "0") ++ rest) acc =
    Js.parseHex rest (256 * acc + byte) /\
  JsString.padStart (Js.toString16 byte) 2 (JsString.lit "0") <> [].
Proof.
  intros Hb. unfold Js.toString16. change (JsString.lit "0") with [48%N].
  rewrite padStart_one.
  pose proof (Z.div_mod byte 16 ltac:(lia)) as Hdm.
  pose proof (Z.mod_pos_bound byte 16 ltac:(lia)) as Hm.
  destruct (Z.ltb_spec byte 16) as [Hsmall | Hbig].
  - destruct (hexValue_digit byte ltac:(lia)) as (c & -> & Hc).
    cbn [length]. change (Z.to_nat (2 - Z.of_nat 1)) with 1%nat.
    cbn [replicate app Js.parseHex].
    change (Js.hexValue 48%N) with (Some 0). rewrite Hc.
    split; [f_equal; lia | discriminate].
  - assert (Hq : 0 <= byte / 16 < 16).
    { split; [apply Z.div_pos; lia | apply Z.div_lt_upper_bound; lia]. }
    destruct (hexValue_digit (byte / 16) Hq) as (c1 & -> & Hc1).
    destruct (hexValue_digit (byte mod 16) Hm) as (c0 & -> & Hc0).
    cbn [length app]. change (Z.to_nat (2 - Z.of_nat 2)) with 0%nat.
    cbn [replicate app Js.parseHex]. rewrite Hc1, Hc0.
    split; [f_equal; lia | discriminate].
Qed.

Lemma parseHex_bytes (ordered : list Z) (acc : Z) :
  Forall (fun byte => 0 <= byte < 256) ordered ->
  Js.parseHex
    (concat (map (fun byte => JsString.padStart (Js.toString16 byte) 2 (JsString.lit "0"))
                 ordered)) acc =
    Some (256 ^ Z.of_nat (length ordered) * acc + le_value 256 (rev ordered)).
Proof.
  intros Hall. revert acc.
  induction Hall as [| byte ordered Hb Hall IH]; intros acc.
  - simpl. f_equal. lia.
  - cbn [map concat]. destruct (parseHex_byte byte
      (concat (map (fun byte => JsString.padStart (Js.toString16 byte) 2 (JsString.lit "0"))
                   ordered)) acc Hb) as [-> _].
    rewrite IH. f_equal. cbn [length rev].
    rewrite Nat2Z.inj_succ, Z.pow_succ_r by lia.
    assert (Hsnoc : forall l x, le_value 256 (l ++ [x]) =
                      le_value 256 l + 256 ^ Z.of_nat (length l) * x).
    { induction l as [| y l IHl]; intros x; cbn [app le_value length].
      - simpl. lia.
      - rewrite IHl, Nat2Z.inj_succ, Z.pow_succ_r by lia. ring. }
    rewrite Hsnoc, length_rev. ring.
Qed.

Lemma Obfusbit_new_sizes (schema : list FieldSchema) (ok : option Obfuskey)
    (b : Obfusbit.t) :
  Obfusbit.new (inl schema) ok = Ok b ->
  Obfusbit.__totalBits b = total_bits schema /\
  Obfusbit.__maximumValue b = 2 ^ total_bits schema - 1 /\
  0 <= total_bits schema /\ (total_bits schema = 0 <-> schema = []).
Proof.
  intros Hnew.
  destruct (Obfusbit_new_inv schema ok b Hnew) as (Hpos & _).
  unfold Obfusbit.new, ObfusbitSchema.new in Hnew.
  destruct (ObfusbitSchema.validateSchema schema) as [[] | |]; try discriminate.
  rewrite !bind_Ok_l in Hnew.
  destruct (match ok with Some o => _ | None => false end); [discriminate |].
  inversion Hnew; subst. simpl. rewrite total_bits_foldl, Z.shiftl_1_l.
  split; [lia |]. split; [reflexivity |].
  split; [now apply total_bits_nonneg |].
  split; [| now intros ->].
  destruct schema as [| f rest]; [reflexivity |].
  intros Hz. exfalso. inversion Hpos as [| ? ? Hf Hrest]; subst.
  pose proof (total_bits_nonneg rest Hrest). simpl in Hz. lia.
Qed.

Lemma getRequiredByteLength_exact (schema : list FieldSchema)
    (ok : option Obfuskey) (b : Obfusbit.t) :
  Obfusbit.new (inl schema) ok = Ok b -> Obfusbit.__totalBits b < 2 ^ 53 ->
  Js.toIndex (getRequiredByteLength b) = Ok ((Obfusbit.__totalBits b + 7) / 8) /\
  getRequiredByteLength b = Number.ofBigInt ((Obfusbit.__totalBits b + 7) / 8) /\
  0 <= (Obfusbit.__totalBits b + 7) / 8 < 2 ^ 53 /\
  Obfusbit.__totalBits b <= 8 * ((Obfusbit.__totalBits b + 7) / 8).
Proof.
  intros Hnew Hbits.
  destruct (Obfusbit_new_sizes schema ok b Hnew) as (Htot & _ & Hnonneg & _).
  rewrite <- Htot in Hnonneg.
  destruct (byteLength_exact (Obfusbit.__totalBits b) ltac:(lia)) as [H1 H2].
  split; [exact H1 |]. split; [exact H2 |].
  pose proof (Z.div_mod (Obfusbit.__totalBits b + 7) 8 ltac:(lia)).
  pose proof (Z.mod_pos_bound (Obfusbit.__totalBits b + 7) 8 ltac:(lia)).
  split; [| lia]. split; [apply Z.div_pos; lia |].
  apply Z.div_lt_upper_bound; lia.
Qed.

Lemma intToBytesInternal_little (budget : nat) (schema : list FieldSchema)
    (ok : option Obfuskey) (b : Obfusbit.t) (p : Z) (byteorder : ByteOrder) :
  Obfusbit.new (inl schema) ok = Ok b -> Obfusbit.__totalBits b < 2 ^ 53 ->
  (Obfusbit.__totalBits b + 7) / 8 <= Z.of_nat budget ->
  0 <= p <= Obfusbit.__maximumValue b ->
  let digits := le_digits (Z.to_nat ((Obfusbit.__totalBits b + 7) / 8)) 256 p in
  intToBytesInternal budget b p byteorder =
    Ok (match byteorder with little => digits | big => rev digits end) /\
  le_value 256 digits = p.
Proof.
  intros Hnew Hbits Hbudget Hp digits.
  destruct (getRequiredByteLength_exact schema ok b Hnew Hbits)
    as (Hidx & _ & HL & Hfit).
  destruct (Obfusbit_new_sizes schema ok b Hnew) as (Htot & Hmax & Hnonneg & _).
  set (L := (Obfusbit.__totalBits b + 7) / 8) in *.
  split.
  - unfold intToBytesInternal. rewrite Hidx, bind_Ok_l.
    destruct (Z.leb_spec 0 p); [| lia].
    destruct (Z.leb_spec p (Obfusbit.__maximumValue b)); [| lia]. cbn [andb negb].
    destruct byteorder.
    + pose proof (intToBytes_loop_little budget L 0 [] p) as Hloop.
      rewrite Z.sub_0_r in Hloop. apply Hloop; simpl; lia.
    + pose proof (intToBytes_loop_big budget L 0 [] p) as Hloop.
      rewrite Z.sub_0_r, !app_nil_r in Hloop. apply Hloop; simpl; lia.
  - subst digits. apply (le_value_le_digits []); [lia |].
    rewrite Z2Nat.id by lia. split; [lia |].
    change 256 with (2 ^ 8). rewrite <- Z.pow_mul_r by lia.
    assert (2 ^ total_bits schema <= 2 ^ (8 * L)) by (apply Z.pow_le_mono_r; lia).
    lia.
Qed.

(** X27. [intToBytesInternal], the conversion behind [packBytes]: an
    integer in [[0, maximumValue]] becomes [ceil(totalBits / 8)] bytes, each
    from 0 to 255, that are its base-256 digits, most significant first for
    ['big'] and least significant first for ['little']; any other integer is
    a ValueError. *)
Theorem intToBytesInternal_digits (budget : nat) (schema : list FieldSchema)
    (ok : option Obfuskey) (b : Obfusbit.t) (p : Z) (byteorder : ByteOrder) :
  Obfusbit.new (inl schema) ok = Ok b -> Obfusbit.__totalBits b < 2 ^ 53 ->
  (Obfusbit.__totalBits b + 7) / 8 <= Z.of_nat budget ->
  (0 <= p <= Obfusbit.__maximumValue b /\
   exists bytes,
     intToBytesInternal budget b p byteorder = Ok bytes /\
     Z.of_nat (length bytes) = (Obfusbit.__totalBits b + 7) / 8 /\
     Forall (fun byte => 0 <= byte < 256) bytes /\
     le_value 256 (match byteorder with little => bytes | big => rev bytes end) = p) \/
  (~ 0 <= p <= Obfusbit.__maximumValue b /\
   intToBytesInternal budget b p byteorder = Throw ValueError).
Proof.
  intros Hnew Hbits Hbudget.
  destruct (decide (0 <= p <= Obfusbit.__maximumValue b)) as [Hp | Hp]; [left | right].
  - split; [exact Hp |].
    destruct (intToBytesInternal_little budget schema ok b p byteorder Hnew Hbits
                Hbudget Hp) as [Hrun Hval].
    cbn zeta in Hrun, Hval.
    destruct (getRequiredByteLength_exact schema ok b Hnew Hbits) as (_ & _ & HL & _).
    eexists. split; [exact Hrun |].
    assert (Hrange : Forall (fun byte => 0 <= byte < 256)
              (le_digits (Z.to_nat ((Obfusbit.__totalBits b + 7) / 8)) 256 p))
      by (apply le_digits_range; lia).
    destruct byteorder.
    + rewrite le_digits_length. split; [lia |]. split; assumption.
    + rewrite length_rev, le_digits_length, rev_involutive.
      split; [lia |]. split; [now apply Forall_rev | assumption].
  - split; [exact Hp |]. unfold intToBytesInternal.
    destruct (Z.leb_spec 0 p); [| reflexivity].
    destruct (Z.leb_spec p (Obfusbit.__maximumValue b)); [lia | reflexivity].
Qed.

Lemma intToBytesInternal_digits_witness :
  let schema := [{| name := "id"; bits := 10 |}; {| name := "type"; bits := 2 |};
                 {| name := "flag"; bits := 1 |}] in
  exists b,
    Obfusbit.new (inl schema) None = Ok b /\
    ((0 <= 805 <= Obfusbit.__maximumValue b /\
      exists bytes,
        intToBytesInternal 2 b 805 big = Ok bytes /\
        Z.of_nat (length bytes) = (Obfusbit.__totalBits b + 7) / 8 /\
        Forall (fun byte => 0 <= byte < 256) bytes /\
        le_value 256 (rev bytes) = 805) \/
     (~ 0 <= 805 <= Obfusbit.__maximumValue b /\
      intToBytesInternal 2 b 805 big = Throw ValueError)).
Proof.
  intros schema. eexists. split; [reflexivity |].
  apply (intToBytesInternal_digits 2 schema None _ 805 big);
    [reflexivity | reflexivity | vm_compute; discriminate].
Defined.

Lemma BigInt_of_0x_bytes (ordered : list Z) :
  Forall (fun byte => 0 <= byte < 256) ordered ->
  Js.BigInt_of_0x
    (concat (map (fun byte => JsString.padStart (Js.toString16 byte) 2 (JsString.lit "0"))
                 ordered)) =
    match ordered with
    | [] => None
    | _ => Some (le_value 256 (rev ordered))
    end.
Proof.
  intros Hall. destruct ordered as [| byte rest]; [reflexivity |].
  pose proof (parseHex_bytes (byte :: rest) 0 Hall) as Hparse.
  rewrite Z.mul_0_r, Z.add_0_l in Hparse.
  unfold Js.BigInt_of_0x. rewrite Hparse.
  inversion Hall as [| ? ? Hb _]; subst.
  destruct (parseHex_byte byte [] 0 Hb) as [_ Hne].
  cbn [map concat].
  destruct (JsString.padStart (Js.toString16 byte) 2 (JsString.lit "0")) as [| c pad];
    [congruence | reflexivity].
Qed.

Lemma bytesToIntInternal_value (schema : list FieldSchema) (ok : option Obfuskey)
    (b : Obfusbit.t) (byteData : list Z) (byteorder : ByteOrder) :
  Obfusbit.new (inl schema) ok = Ok b -> Obfusbit.__totalBits b < 2 ^ 53 ->
  Forall (fun byte => 0 <= byte < 256) byteData ->
  Z.of_nat (length byteData) = (Obfusbit.__totalBits b + 7) / 8 ->
  bytesToIntInternal b byteData byteorder =
    match byteData with
    | [] => SyntaxError
    | _ => Completed (Ok (le_value 256 (match byteorder with
                                        | little => byteData
                                        | big => rev byteData
                                        end)))
    end.
Proof.
  intros Hnew Hbits Hall Hlen.
  destruct (getRequiredByteLength_exact schema ok b Hnew Hbits) as (_ & Hnum & HL & _).
  unfold bytesToIntInternal. rewrite Hnum, Hlen.
  rewrite (proj2 (strictEquals_ofBigInt _ _ HL HL) eq_refl). cbn [negb].
  rewrite BigInt_of_0x_bytes by (destruct byteorder; [now apply Forall_rev | assumption]).
  destruct byteorder.
  - rewrite rev_involutive. destruct byteData as [| x l]; [reflexivity |].
    destruct (rev (x :: l)) eqn:E; [| reflexivity].
    apply (f_equal (@length Z)) in E. rewrite length_rev in E. discriminate.
  - destruct byteData; reflexivity.
Qed.

(** X28. [bytesToIntInternal], the conversion behind [unpackBytes]: an
    array whose length is not [ceil(totalBits / 8)] is a ValueError; an
    array of that length is read as a base-256 number in the given byte
    order, except that the empty array (which is the required length only
    for the empty schema) ends in the SyntaxError of [BigInt('0x')]. *)
Theorem bytesToIntInternal_outcomes (schema : list FieldSchema)
    (ok : option Obfuskey) (b : Obfusbit.t) (byteData : list Z)
    (byteorder : ByteOrder) :
  Obfusbit.new (inl schema) ok = Ok b -> Obfusbit.__totalBits b < 2 ^ 53 ->
  Forall (fun byte => 0 <= byte < 256) byteData ->
  Z.of_nat (length byteData) < 2 ^ 53 ->
  (Z.of_nat (length byteData) <> (Obfusbit.__totalBits b + 7) / 8 /\
   bytesToIntInternal b byteData byteorder = Completed (Throw ValueError)) \/
  (Z.of_nat (length byteData) = (Obfusbit.__totalBits b + 7) / 8 /\
   byteData = [] /\ schema = [] /\
   bytesToIntInternal b byteData byteorder = SyntaxError) \/
  (Z.of_nat (length byteData) = (Obfusbit.__totalBits b + 7) / 8 /\
   byteData <> [] /\
   bytesToIntInternal b byteData byteorder =
     Completed (Ok (le_value 256 (match byteorder with
                                  | little => byteData
                                  | big => rev byteData
                                  end)))).
Proof.
  intros Hnew Hbits Hall Hsize.
  destruct (getRequiredByteLength_exact schema ok b Hnew Hbits) as (_ & Hnum & HL & Hfit).
  destruct (Obfusbit_new_sizes schema ok b Hnew) as (Htot & _ & Hnonneg & Hempty).
  destruct (Z.eq_dec (Z.of_nat (length byteData)) ((Obfusbit.__totalBits b + 7) / 8))
    as [Hlen | Hlen].
  - right. rewrite (bytesToIntInternal_value schema ok b byteData byteorder Hnew Hbits
                      Hall Hlen).
    destruct byteData as [| x l]; [left | right].
    + split; [exact Hlen |]. split; [reflexivity |]. split; [| reflexivity].
      apply Hempty. simpl in Hlen. lia.
    + split; [exact Hlen |]. split; [discriminate | reflexivity].
  - left. split; [exact Hlen |]. unfold bytesToIntInternal. rewrite Hnum.
    destruct (Js.strictEquals (Number.ofBigInt (Z.of_nat (length byteData)))
                (Number.ofBigInt ((Obfusbit.__totalBits b + 7) / 8))) eqn:E;
      [| reflexivity].
    apply strictEquals_ofBigInt in E; [contradiction | lia | exact HL].
Qed.

Lemma bytesToIntInternal_outcomes_witness :
  let schema := [{| name := "id"; bits := 10 |}; {| name := "type"; bits := 2 |};
                 {| name := "flag"; bits := 1 |}] in
  let byteData := [3; 37] in
  exists b,
    Obfusbit.new (inl schema) None = Ok b /\
    ((Z.of_nat (length byteData) <> (Obfusbit.__totalBits b + 7) / 8 /\
      bytesToIntInternal b byteData big = Completed (Throw ValueError)) \/
     (Z.of_nat (length byteData) = (Obfusbit.__totalBits b + 7) / 8 /\
      byteData = [] /\ schema = [] /\
      bytesToIntInternal b byteData big = SyntaxError) \/
     (Z.of_nat (length byteData) = (Obfusbit.__totalBits b + 7) / 8 /\
      byteData <> [] /\
      bytesToIntInternal b byteData big =
        Completed (Ok (le_value 256 (rev byteData))))).
Proof.
  intros schema byteData. eexists. split; [reflexivity |].
  apply (bytesToIntInternal_outcomes schema None _ byteData big);
    [reflexivity | reflexivity | repeat constructor; lia | reflexivity].
Defined.

(** X29. Byte packing round-trips: for a valid record of a schema without
    a field named [__proto__], [packBytes] returns [ceil(totalBits / 8)]
    bytes and [unpackBytes] of them, in the same byte order, returns the
    record; with a field named [__proto__] it returns the other fields
    only.  The one exception is the empty schema, which the constructor
    accepts: [packBytes({})] is the empty array and [unpackBytes] of it ends
    in a SyntaxError. *)
Theorem unpackBytes_packBytes_roundtrip (budget : nat) (schema : list FieldSchema)
    (ok : option Obfuskey) (b : Obfusbit.t) (values : gmap string Z)
    (byteorder : ByteOrder) :
  Obfusbit.new (inl schema) ok = Ok b -> Obfusbit.__totalBits b < 2 ^ 53 ->
  (Obfusbit.__totalBits b + 7) / 8 <= Z.of_nat budget ->
  dom values = list_to_set (name <$> schema) ->
  (forall f v, f ∈ schema -> values !! name f = Some v -> 0 <= v < 2 ^ bits f) ->
  exists bytes,
    packBytes budget b values byteorder = Ok bytes /\
    Z.of_nat (length bytes) = (Obfusbit.__totalBits b + 7) / 8 /\
    ((schema <> [] /\
      unpackBytes budget b bytes byteorder =
        Completed (Ok (delete "__proto__"%string values)) /\
      (Forall (fun f => name f <> "__proto__"%string) schema ->
       unpackBytes budget b bytes byteorder = Completed (Ok values))) \/
     (schema = [] /\ bytes = [] /\
      unpackBytes budget b bytes byteorder = SyntaxError)).
Proof.
  intros Hnew Hbits Hbudget Hdom Hrange.
  destruct (Obfusbit_new_inv schema ok b Hnew) as (Hpos & Hnd & _ & Hs).
  destruct (Obfusbit_new_sizes schema ok b Hnew) as (Htot & Hmax & Hnonneg & Hempty).
  destruct (getRequiredByteLength_exact schema ok b Hnew Hbits) as (_ & _ & HL & _).
  destruct (pack_loop_packed schema values Hpos Hnd Hdom Hrange)
    as (p & Hrun & Hunpack & Hp & _).
  assert (Hpack : Obfusbit.pack budget b values false = Ok (PackedInt p, b)).
  { unfold Obfusbit.pack. rewrite Hs.
    rewrite (validateFields_ok schema Hnd values Hdom Hrange), bind_Ok_l.
    cbn [ObfusbitSchema.__fieldInfo]. rewrite Hrun, bind_Ok_l. reflexivity. }
  destruct (intToBytesInternal_little budget schema ok b p byteorder Hnew Hbits
              Hbudget ltac:(lia)) as [Hbytes Hval].
  cbn zeta in Hbytes, Hval.
  set (L := (Obfusbit.__totalBits b + 7) / 8) in *.
  set (digits := le_digits (Z.to_nat L) 256 p) in *.
  set (bytes := match byteorder with little => digits | big => rev digits end) in *.
  assert (Hlen : Z.of_nat (length bytes) = L).
  { subst bytes digits. destruct byteorder;
      rewrite ?length_rev, le_digits_length; lia. }
  assert (Hall : Forall (fun byte => 0 <= byte < 256) bytes).
  { assert (Forall (fun byte => 0 <= byte < 256) digits)
      by (apply le_digits_range; lia).
    subst bytes. destruct byteorder; [assumption | now apply Forall_rev]. }
  assert (Hord : le_value 256 (match byteorder with
                               | little => bytes
                               | big => rev bytes
                               end) = p).
  { subst bytes. destruct byteorder; [| rewrite rev_involutive]; exact Hval. }
  exists bytes. split.
  { unfold packBytes. rewrite Hpack, bind_Ok_l. exact Hbytes. }
  split; [exact Hlen |].
  unfold unpackBytes.
  rewrite (bytesToIntInternal_value schema ok b bytes byteorder Hnew Hbits Hall Hlen).
  destruct bytes as [| x l] eqn:Eb.
  - right. split; [| split; reflexivity]. apply Hempty.
    simpl in Hlen. subst L.
    pose proof (Z.div_mod (Obfusbit.__totalBits b + 7) 8 ltac:(lia)).
    pose proof (Z.mod_pos_bound (Obfusbit.__totalBits b + 7) 8 ltac:(lia)). lia.
  - left. split.
    + intros ->. assert (L = 0); [| simpl in Hlen; lia].
      subst L. replace (Obfusbit.__totalBits b) with 0 by (simpl in Htot; lia).
      reflexivity.
    + assert (Hback : Completed
                (fst <$> Obfusbit.unpack budget b
                   (PackedInt (le_value 256 match byteorder with
                                            | little => x :: l
                                            | big => rev (x :: l)
                                            end)) false) =
              Completed (Ok (delete "__proto__"%string values))).
      { rewrite Hord. unfold Obfusbit.unpack. rewrite !bind_Ok_l, Hs.
        cbn [ObfusbitSchema.__definition]. rewrite Hunpack. reflexivity. }
      split; [exact Hback |].
      intros Hnames. rewrite Hback.
      now rewrite (delete_proto_absent schema values Hdom Hnames).
Qed.

Lemma unpackBytes_packBytes_roundtrip_witness :
  let schema := [{| name := "a"; bits := 3 |}; {| name := "b"; bits := 14 |}] in
  let values : gmap string Z := <["a" := 5]> (<["b" := 9000]> ∅) in
  exists b,
    Obfusbit.new (inl schema) None = Ok b /\
    exists bytes,
      packBytes 3 b values little = Ok bytes /\
      Z.of_nat (length bytes) = (Obfusbit.__totalBits b + 7) / 8 /\
      ((schema <> [] /\
        unpackBytes 3 b bytes little =
          Completed (Ok (delete "__proto__"%string values)) /\
        (Forall (fun f => name f <> "__proto__"%string) schema ->
         unpackBytes 3 b bytes little = Completed (Ok values))) \/
       (schema = [] /\ bytes = [] /\
        unpackBytes 3 b bytes little = SyntaxError)).
Proof.
  intros schema values. eexists. split; [reflexivity |].
  apply (unpackBytes_packBytes_roundtrip 3 schema None _ values little);
    try reflexivity; try (vm_compute; discriminate).
  intros f v Hf Hv. subst schema values.
  apply list_elem_of_In in Hf. simpl in Hf.
  destruct Hf as [<- | [<- | []]]; vm_compute in Hv; inversion Hv; subst;
    simpl; lia.
Defined.

(** X30. The outcomes of the [Obfusbit] constructor on a schema definition:
    an invalid definition (a non-positive width or a repeated name) is a
    SchemaValidationError; a valid one whose maximum value
    [2^totalBits - 1] exceeds the [maximumValue] of the given Obfuskey is a
    MaximumValueError; every other call succeeds, so a packer that has an
    Obfuskey can always obfuscate what it packs. *)
Theorem Obfusbit_new_outcomes (schema : list FieldSchema) (ok : option Obfuskey) :
  let valid := Forall (fun f => 0 < bits f) schema /\ NoDup (name <$> schema) in
  let fits :=
    match ok with
    | Some o => 2 ^ total_bits schema - 1 <= maximumValue o
    | None => True
    end in
  (~ valid /\ Obfusbit.new (inl schema) ok = Throw SchemaValidationError) \/
  (valid /\ ~ fits /\ Obfusbit.new (inl schema) ok = Throw MaximumValueError) \/
  (valid /\ fits /\
   exists b, Obfusbit.new (inl schema) ok = Ok b /\
     Obfusbit.__obfuskey b = ok /\
     Obfusbit.__totalBits b = total_bits schema /\
     Obfusbit.__maximumValue b = 2 ^ total_bits schema - 1).
Proof.
  intros valid fits. subst valid fits.
  destruct (validateSchema_spec schema) as [Hok Hbad]. cbn zeta in *.
  unfold Obfusbit.new, ObfusbitSchema.new.
  destruct (decide (Forall (fun f => 0 < bits f) schema /\ NoDup (name <$> schema)))
    as [Hvalid | Hnot].
  2: { left. split; [exact Hnot |]. now rewrite (Hbad Hnot). }
  right. rewrite (Hok Hvalid), !bind_Ok_l.
  cbn [ObfusbitSchema.__maximumValue ObfusbitSchema.__totalBits].
  rewrite total_bits_foldl, Z.shiftl_1_l, Z.add_0_l.
  destruct ok as [o |].
  - destruct (Z.ltb_spec (maximumValue o) (2 ^ total_bits schema - 1)) as [Hlt | Hge].
    + left. split; [exact Hvalid |]. split; [lia | reflexivity].
    + right. split; [exact Hvalid |]. split; [exact Hge |].
      eexists. split; [reflexivity |]. repeat split.
  - right. split; [exact Hvalid |]. split; [exact I |].
    eexists. split; [reflexivity |]. repeat split.
Qed.
